(** * Live tutor: the conversation view's capture, VAD, playback and transcript core

    A shallow embedding of [src/components/ConversationView.tsx].  The React
    component keeps its session in mutable refs and in React state; the model
    keeps both in one record, [Component], and writes every handler of the
    source ([onaudioprocess], [onmessage], [cleanup], [startSession],
    [checkGrammar], ...) as a computation over it.  Calls into the browser are
    recorded in a log of [Effect]s. *)

From Stdlib Require Import ZArith List Bool Lia String Ascii.
From Stdlib Require Import Floats Reals Lra.
Import ListNotations.
Close Scope R_scope.

Set Implicit Arguments.

(** ** Numbers

    Every number of the source is a JavaScript Number.  The handlers are
    written once, over the operations they use.  [Float64] interprets them as
    the engine does (IEEE binary64, with the binary32 store of a
    [Float32Array]): it is the arithmetic of the program.  [Exact] interprets
    them in real arithmetic, where no product, sum or store rounds: an
    idealisation, and a statement over it says so. *)

Class JSNumber (num : Type) : Type := {
  nzero : num;
  nadd : num -> num -> num;
  nsub : num -> num -> num;
  nmul : num -> num -> num;
  ndiv : num -> num -> num;
  nsqrt : num -> num;                 (* Math.sqrt *)
  nmax : num -> num -> num;           (* Math.max *)
  ngtb : num -> num -> bool;          (* a > b *)
  neqb : num -> num -> bool;          (* a === b *)
  nfround : num -> num;               (* the value a Float32Array element keeps *)
  nlength : nat -> num                (* an array length as a Number *)
}.

Module Float64.

(** Rounding of a binary64 value to the nearest binary32 value, ties to
    even: what storing into a [Float32Array] does. *)
Definition fround (x : float) : float :=
  match Prim2SF x with
  | S754_finite s m e => SF2Prim (binary_round 24 128 s m e)
  | _ => x
  end.

(** [Math.max] on two arguments: NaN if either is NaN, and +0 above -0. *)
Definition max (a b : float) : float :=
  if is_nan a || is_nan b then nan
  else if PrimFloat.ltb a b then b
  else if PrimFloat.ltb b a then a
  else if get_sign a then b else a.

Definition of_nat (n : nat) : float :=
  PrimFloat.of_uint63 (Uint63.of_Z (Z.of_nat n)).

#[export] Instance number : JSNumber float := {|
  nzero := PrimFloat.zero;
  nadd := PrimFloat.add;
  nsub := PrimFloat.sub;
  nmul := PrimFloat.mul;
  ndiv := PrimFloat.div;
  nsqrt := PrimFloat.sqrt;
  nmax := max;
  ngtb := fun a b => PrimFloat.ltb b a;
  neqb := PrimFloat.eqb;
  nfround := fround;
  nlength := of_nat
|}.

End Float64.

Module Exact.

(** Real numbers in place of binary64: no operation rounds and [nfround] is
    the identity.  What holds here holds of the program only as far as its
    arithmetic is exact. *)
#[export] Instance number : JSNumber R := {|
  nzero := 0%R;
  nadd := Rplus;
  nsub := Rminus;
  nmul := Rmult;
  ndiv := Rdiv;
  nsqrt := sqrt;
  nmax := Rmax;
  ngtb := fun a b => if Rlt_dec b a then true else false;
  neqb := fun a b => if Req_dec_T a b then true else false;
  nfround := fun x => x;
  nlength := INR
|}.

End Exact.

(** ** Strings

    A JavaScript string is a sequence of UTF-16 code units. *)

Definition jsstring : Type := list N.

Definition str (s : string) : jsstring :=
  map (fun c => N_of_ascii c) (list_ascii_of_string s).

(** Truthiness of a string: only the empty string is falsy. *)
Definition truthy (s : jsstring) : bool :=
  match s with [] => false | _ :: _ => true end.

(** WhiteSpace and LineTerminator code points of ECMAScript, the ones
    [String.prototype.trim] strips. *)
Definition isWhiteSpace (c : N) : bool :=
  ((9 <=? c) && (c <=? 13) || (c =? 32) || (c =? 160) || (c =? 5760)
   || (8192 <=? c) && (c <=? 8202) || (c =? 8232) || (c =? 8233)
   || (c =? 8239) || (c =? 8287) || (c =? 12288) || (c =? 65279))%N.

Fixpoint trimStart (s : jsstring) : jsstring :=
  match s with
  | [] => []
  | c :: s' => if isWhiteSpace c then trimStart s' else s
  end.

Definition trimEnd (s : jsstring) : jsstring := rev (trimStart (rev s)).

Definition trim (s : jsstring) : jsstring := trimEnd (trimStart s).

(** [s.split(sep)] for a separator of one code unit; [cur] is the piece being
    read, youngest code unit first. *)
Fixpoint split_from (sep : N) (cur : jsstring) (s : jsstring) : list jsstring :=
  match s with
  | [] => [rev cur]
  | c :: s' =>
      if (c =? sep)%N then rev cur :: split_from sep [] s'
      else split_from sep (c :: cur) s'
  end.

Definition split (sep : N) (s : jsstring) : list jsstring := split_from sep [] s.

Definition space : N := 32%N.

Fixpoint isPrefix (p s : jsstring) : bool :=
  match p, s with
  | [], _ => true
  | _ :: _, [] => false
  | a :: p', b :: s' => (a =? b)%N && isPrefix p' s'
  end.

(** [s.includes(p)] *)
Fixpoint includes (p s : jsstring) : bool :=
  isPrefix p s || match s with [] => false | _ :: s' => includes p s' end.

(** ** Data of the component *)

Inductive Role : Type := user | model.

Inductive ChallengeType : Type := repeat | structure | describe.

Inductive ChallengeStatus : Type := active | evaluating | completed.

Record Challenge : Type := {
  type : ChallengeType;
  instruction : jsstring;
  target : option jsstring;
  status : ChallengeStatus
}.

(** What [JSON.parse(response.text || '{}')] yields for the grammar check;
    a field the reply leaves out is [None]. *)
Record GrammarReply : Type := {
  reply_status : option jsstring;
  correctedText : option jsstring
}.

Inductive FeedbackType : Type := start | stop.

(** A thrown value, a rejection or the event handed to [onerror], as far as
    the handlers look at it: [err?.message], which is [None] when there is
    none, and [String(err)]. *)
Record JSError : Type := {
  message : option jsstring;
  toString : jsstring
}.

Section Model.

Variable num : Type.
Context {NUM : JSNumber num}.

(** The encoded packet [createPcmBlob] builds (services/audioUtils, outside the
    sources at hand) is kept abstract. *)
Variable Blob : Type.

Record TranscriptionEntry : Type := {
  role : Role;
  text : jsstring;
  timestamp : num;
  correction : option jsstring
}.

Record AudioBuffer : Type := { duration : num }.

(** An [AudioBufferSourceNode] once started: its node identity, its buffer,
    the argument of [start] and its [playbackRate.value]. *)
Record Source : Type := {
  node : nat;
  buffer : AudioBuffer;
  startTime : num;
  playbackRate : num
}.

Record Transcription : Type := { input : jsstring; output : jsstring }.

(** The refs that mirror the sliders; the handlers only read them. *)
Record Tuning : Type := {
  isPausedRef : bool;
  speechRateRef : num;
  inputGainRef : num;
  outputVolumeRef : num;
  outputPitchRef : num;
  vadThresholdRef : num;
  vadDurationRef : num
}.

Record Component : Type := mkComponent {
  tuning : Tuning;
  sessionRef : option nat;
  audioContextInRef : option nat;
  audioContextOutRef : option nat;
  outputGainNodeRef : option nat;
  nextStartTimeRef : num;
  sourcesRef : list Source;
  transcriptionRef : Transcription;
  wasUserTalkingRef : bool;
  lastSilenceTimeRef : num;
  entries : list TranscriptionEntry;
  isActive : bool;
  isSpeaking : bool;
  isUserTalkingLocal : bool;
  isConnecting : bool;
  error : option jsstring;
  activeChallenge : option Challenge
}.

(** The component as [useRef] and [useState] initialise it, for the sliders'
    initial values [t] and the history [saved] read from local storage. *)
Definition initial (t : Tuning) (saved : list TranscriptionEntry) : Component :=
  {| tuning := t;
     sessionRef := None;
     audioContextInRef := None;
     audioContextOutRef := None;
     outputGainNodeRef := None;
     nextStartTimeRef := nzero;
     sourcesRef := [];
     transcriptionRef := {| input := []; output := [] |};
     wasUserTalkingRef := false;
     lastSilenceTimeRef := nzero;
     entries := saved;
     isActive := false;
     isSpeaking := false;
     isUserTalkingLocal := false;
     isConnecting := false;
     error := None;
     activeChallenge := None |}.

Definition set_sessionRef (v : option nat) (c : Component) : Component :=
  let (t, _, ai, ao, g, n, s, tr, w, l, e, a, sp, u, co, er, ch) := c in
  mkComponent t v ai ao g n s tr w l e a sp u co er ch.

Definition set_audioContextInRef (v : option nat) (c : Component) : Component :=
  let (t, se, _, ao, g, n, s, tr, w, l, e, a, sp, u, co, er, ch) := c in
  mkComponent t se v ao g n s tr w l e a sp u co er ch.

Definition set_audioContextOutRef (v : option nat) (c : Component) : Component :=
  let (t, se, ai, _, g, n, s, tr, w, l, e, a, sp, u, co, er, ch) := c in
  mkComponent t se ai v g n s tr w l e a sp u co er ch.

Definition set_outputGainNodeRef (v : option nat) (c : Component) : Component :=
  let (t, se, ai, ao, _, n, s, tr, w, l, e, a, sp, u, co, er, ch) := c in
  mkComponent t se ai ao v n s tr w l e a sp u co er ch.

Definition set_nextStartTimeRef (v : num) (c : Component) : Component :=
  let (t, se, ai, ao, g, _, s, tr, w, l, e, a, sp, u, co, er, ch) := c in
  mkComponent t se ai ao g v s tr w l e a sp u co er ch.

Definition set_sourcesRef (v : list Source) (c : Component) : Component :=
  let (t, se, ai, ao, g, n, _, tr, w, l, e, a, sp, u, co, er, ch) := c in
  mkComponent t se ai ao g n v tr w l e a sp u co er ch.

Definition set_transcriptionRef (v : Transcription) (c : Component) : Component :=
  let (t, se, ai, ao, g, n, s, _, w, l, e, a, sp, u, co, er, ch) := c in
  mkComponent t se ai ao g n s v w l e a sp u co er ch.

Definition set_wasUserTalkingRef (v : bool) (c : Component) : Component :=
  let (t, se, ai, ao, g, n, s, tr, _, l, e, a, sp, u, co, er, ch) := c in
  mkComponent t se ai ao g n s tr v l e a sp u co er ch.

Definition set_lastSilenceTimeRef (v : num) (c : Component) : Component :=
  let (t, se, ai, ao, g, n, s, tr, w, _, e, a, sp, u, co, er, ch) := c in
  mkComponent t se ai ao g n s tr w v e a sp u co er ch.

Definition setEntries (f : list TranscriptionEntry -> list TranscriptionEntry)
  (c : Component) : Component :=
  let (t, se, ai, ao, g, n, s, tr, w, l, e, a, sp, u, co, er, ch) := c in
  mkComponent t se ai ao g n s tr w l (f e) a sp u co er ch.

Definition setIsActive (v : bool) (c : Component) : Component :=
  let (t, se, ai, ao, g, n, s, tr, w, l, e, _, sp, u, co, er, ch) := c in
  mkComponent t se ai ao g n s tr w l e v sp u co er ch.

Definition setIsSpeaking (v : bool) (c : Component) : Component :=
  let (t, se, ai, ao, g, n, s, tr, w, l, e, a, _, u, co, er, ch) := c in
  mkComponent t se ai ao g n s tr w l e a v u co er ch.

Definition setIsUserTalkingLocal (v : bool) (c : Component) : Component :=
  let (t, se, ai, ao, g, n, s, tr, w, l, e, a, sp, _, co, er, ch) := c in
  mkComponent t se ai ao g n s tr w l e a sp v co er ch.

Definition setIsConnecting (v : bool) (c : Component) : Component :=
  let (t, se, ai, ao, g, n, s, tr, w, l, e, a, sp, u, _, er, ch) := c in
  mkComponent t se ai ao g n s tr w l e a sp u v er ch.

Definition setError (v : option jsstring) (c : Component) : Component :=
  let (t, se, ai, ao, g, n, s, tr, w, l, e, a, sp, u, co, _, ch) := c in
  mkComponent t se ai ao g n s tr w l e a sp u co v ch.

Definition setActiveChallenge (v : option Challenge) (c : Component) : Component :=
  let (t, se, ai, ao, g, n, s, tr, w, l, e, a, sp, u, co, er, _) := c in
  mkComponent t se ai ao g n s tr w l e a sp u co er v.

Definition set_tuning (v : Tuning) (c : Component) : Component :=
  let (_, se, ai, ao, g, n, s, tr, w, l, e, a, sp, u, co, er, ch) := c in
  mkComponent v se ai ao g n s tr w l e a sp u co er ch.

(** ** Calls into the browser and the services *)

Inductive Effect : Type :=
| SessionClose (session : nat)                (* session.close() *)
| ContextClose (ctx : nat)                    (* audioContext.close() *)
| SourceStop (n : nat)                        (* source.stop() *)
| SourceStart (s : Source)                    (* source.start(when) *)
| FeedbackTone (t : FeedbackType)             (* the oscillator of playFeedbackSound *)
| SendRealtimeInput (media : Blob)            (* session.sendRealtimeInput *)
| GetUserMedia
| NewAudioContext (ctx : nat) (sampleRate : N)
| CreateGain (n : nat) (volume : num)
| LiveConnect (session : nat)                 (* ai.live.connect *)
| GenerateContent (contents : jsstring)       (* the grammar request *)
| EvaluateChallengeResponse (userInput : jsstring)
| CheckGrammar (t : jsstring) (ts : num)
| ConsoleWarn.

(** What the handlers cannot decide themselves.  [throws e] is the exception
    (or promise rejection) that call [e] ends in, if it does; it is consulted
    for the calls the source wraps in [try] or [.catch], the other calls of
    the model are taken to return.  [decodeAudioData] is what the decoder
    resolves to: [onmessage] below is the handler of a message whose audio
    decodes, [onmessageUndecodable] the handler of one whose audio does
    not. *)
Record Host : Type := {
  throws : Effect -> option JSError;
  createPcmBlob : list num -> Blob;
  decodeAudioData : jsstring -> AudioBuffer;
  grammarService : jsstring -> GrammarReply;
  onLine : bool
}.

Variable host : Host.

Record World : Type := {
  comp : Component;
  log : list Effect;        (* oldest call first *)
  nextNode : nat            (* identities handed out so far *)
}.

Inductive Outcome (A : Type) : Type :=
| Returned (a : A)
| Thrown (err : JSError).

Arguments Thrown {A} err.

(** A handler body: it runs on the world and returns or throws. *)
Definition Eff (A : Type) : Type := World -> Outcome A * World.

Definition ret {A : Type} (a : A) : Eff A := fun w => (Returned a, w).

Definition bind {A B : Type} (m : Eff A) (k : A -> Eff B) : Eff B :=
  fun w =>
    match m w with
    | (Returned a, w') => k a w'
    | (Thrown err, w') => (Thrown err, w')
    end.

Definition get : Eff Component := fun w => (Returned (comp w), w).

Definition update (f : Component -> Component) : Eff unit :=
  fun w => (Returned tt, {| comp := f (comp w); log := log w; nextNode := nextNode w |}).

Definition emit (e : Effect) (w : World) : World :=
  {| comp := comp w; log := log w ++ [e]; nextNode := nextNode w |}.

(** A call that returns. *)
Definition perform (e : Effect) : Eff unit := fun w => (Returned tt, emit e w).

(** A call that may throw. *)
Definition call (e : Effect) : Eff unit :=
  fun w =>
    match throws host e with
    | Some err => (Thrown err, emit e w)
    | None => (Returned tt, emit e w)
    end.

Definition fresh : Eff nat :=
  fun w => (Returned (nextNode w),
            {| comp := comp w; log := log w; nextNode := S (nextNode w) |}).

(** [try { m } catch (e) { handler(e) }] *)
Definition tryCatch (m : Eff unit) (handler : JSError -> Eff unit) : Eff unit :=
  fun w =>
    match m w with
    | (Returned a, w') => (Returned a, w')
    | (Thrown err, w') => handler err w'
    end.

Definition ignore : JSError -> Eff unit := fun _ => ret tt.

(** [throw err], and an [await] on a promise that rejects with [err]. *)
Definition raise {A : Type} (err : JSError) : Eff A := fun w => (Thrown err, w).

Fixpoint forEach {A : Type} (l : list A) (f : A -> Eff unit) : Eff unit :=
  match l with
  | [] => ret tt
  | x :: l' => bind (f x) (fun _ => forEach l' f)
  end.

Definition when (b : bool) (m : Eff unit) : Eff unit := if b then m else ret tt.

Notation "x <- m ;; k" := (bind m (fun x => k))
  (at level 61, m at next level, right associativity).
Notation "m ;; k" := (bind m (fun _ => k))
  (at level 61, right associativity).

(** ** playFeedbackSound *)

Definition isNone {A : Type} (o : option A) : bool :=
  match o with None => true | Some _ => false end.

Definition playFeedbackSound (t : FeedbackType) : Eff unit :=
  c <- get ;;
  if isNone (audioContextOutRef c) || isPausedRef (tuning c) then ret tt
  else perform (FeedbackTone t).

(** ** cleanup *)

Definition cleanup : Eff unit :=
  c <- get ;;
  match sessionRef c with
  | Some s =>
      tryCatch (call (SessionClose s)) ignore ;;
      update (set_sessionRef None)
  | None => ret tt
  end ;;
  c <- get ;;
  match audioContextInRef c with
  | Some a =>
      tryCatch (call (ContextClose a)) ignore ;;
      update (set_audioContextInRef None)
  | None => ret tt
  end ;;
  c <- get ;;
  match audioContextOutRef c with
  | Some a =>
      tryCatch (call (ContextClose a)) ignore ;;
      update (set_audioContextOutRef None)
  | None => ret tt
  end ;;
  update (set_outputGainNodeRef None) ;;
  c <- get ;;
  forEach (sourcesRef c) (fun s => tryCatch (call (SourceStop (node s))) ignore) ;;
  update (set_sourcesRef []) ;;
  update (setIsActive false) ;;
  update (setIsUserTalkingLocal false) ;;
  update (setIsSpeaking false).

(** ** The capture callback, [scriptProcessor.onaudioprocess] *)

(** The loop over the frame: every sample is scaled where it lies (a
    [Float32Array] element, hence [nfround]) and the square of the stored
    value is added to [sum].  It returns the frame as the loop leaves it and
    the sum. *)
Fixpoint gainLoop (currentGain : num) (inputData : list num) (sum : num)
  : list num * num :=
  match inputData with
  | [] => ([], sum)
  | x :: rest =>
      let y := nfround (nmul x currentGain) in
      let (rest', sum') := gainLoop currentGain rest (nadd sum (nmul y y)) in
      (y :: rest', sum')
  end.

(** [Math.sqrt(sum / inputData.length)] after the loop. *)
Definition rmsOf (currentGain : num) (inputData : list num) : num :=
  nsqrt (ndiv (snd (gainLoop currentGain inputData nzero))
              (nlength (List.length inputData))).

(** The VAD step proper.  Its result is the cue it emitted, if any:
    [Some start] where the source runs [setIsUserTalkingLocal(true);
    playFeedbackSound('start')], [Some stop] where it runs
    [setIsUserTalkingLocal(false); playFeedbackSound('stop')]. *)
Definition vad (rms now : num) : Eff (option FeedbackType) :=
  c <- get ;;
  let currentThreshold := vadThresholdRef (tuning c) in
  let currentDuration := vadDurationRef (tuning c) in
  if ngtb rms currentThreshold then
    ev <- (if negb (wasUserTalkingRef c) then
             update (set_wasUserTalkingRef true) ;;
             update (setIsUserTalkingLocal true) ;;
             playFeedbackSound start ;;
             ret (Some start)
           else ret None) ;;
    update (set_lastSilenceTimeRef now) ;;
    ret ev
  else
    if wasUserTalkingRef c
       && ngtb (nsub now (lastSilenceTimeRef c)) currentDuration then
      update (set_wasUserTalkingRef false) ;;
      update (setIsUserTalkingLocal false) ;;
      playFeedbackSound stop ;;
      ret (Some stop)
    else ret None.

(** One callback on the frame [inputData] at [Date.now() = now].  It returns
    the frame as the callback leaves it and the cue of the VAD step. *)
Definition onaudioprocess (inputData : list num) (now : num)
  : Eff (list num * option FeedbackType) :=
  c <- get ;;
  if isPausedRef (tuning c) || isNone (sessionRef c) then ret (inputData, None)
  else
    let currentGain := inputGainRef (tuning c) in
    let inputData' := fst (gainLoop currentGain inputData nzero) in
    let rms := rmsOf currentGain inputData in
    ev <- vad rms now ;;
    let pcmBlob := createPcmBlob host inputData' in
    tryCatch (call (SendRealtimeInput pcmBlob)) ignore ;;
    ret (inputData', ev).

(** ** The inbound handler, [onmessage] *)

(** The parts of a [LiveServerMessage] the handler looks at:
    [serverContent.modelTurn.parts[0].inlineData.data],
    [serverContent.interrupted], [serverContent.inputTranscription] and
    [outputTranscription], and [serverContent.turnComplete].  A transcription
    is [None] when the object is absent; when it is there it is its [text],
    which the type leaves optional: [Some None] is a transcription without
    text. *)
Record LiveServerMessage : Type := {
  inlineData : option jsstring;
  interrupted : bool;
  inputTranscription : option (option jsstring);
  outputTranscription : option (option jsstring);
  turnComplete : bool
}.

(** What [acc += transcription.text] appends: the text, or the string
    "undefined" when the transcription has none. *)
Definition appended (t : option jsstring) : jsstring :=
  match t with
  | Some s => s
  | None => str "undefined"
  end.

(** The audio branch: schedule the decoded buffer on the output clock, whose
    reading at this message is [currentTime]. *)
Definition audioBranch (msg : LiveServerMessage) (currentTime : num) : Eff unit :=
  c <- get ;;
  match inlineData msg with
  | Some base64Audio =>
      if truthy base64Audio && negb (isNone (audioContextOutRef c))
         && negb (isPausedRef (tuning c)) && negb (isNone (outputGainNodeRef c))
      then
        update (setIsSpeaking true) ;;
        update (fun c => set_nextStartTimeRef
                           (nmax (nextStartTimeRef c) currentTime) c) ;;
        let buffer := decodeAudioData host base64Audio in
        n <- fresh ;;
        c <- get ;;
        let currentRate :=
          nmul (speechRateRef (tuning c)) (outputPitchRef (tuning c)) in
        let source := {| node := n; buffer := buffer;
                         startTime := nextStartTimeRef c;
                         playbackRate := currentRate |} in
        perform (SourceStart source) ;;
        update (fun c => set_nextStartTimeRef
                           (nadd (nextStartTimeRef c)
                                 (ndiv (duration buffer) currentRate)) c) ;;
        update (fun c => set_sourcesRef (sourcesRef c ++ [source]) c)
      else ret tt
  | None => ret tt
  end.

(** The interrupted branch. *)
Definition interruptedBranch (msg : LiveServerMessage) : Eff unit :=
  when (interrupted msg)
    (c <- get ;;
     forEach (sourcesRef c) (fun s => tryCatch (call (SourceStop (node s))) ignore) ;;
     update (set_sourcesRef []) ;;
     update (set_nextStartTimeRef nzero) ;;
     update (setIsSpeaking false)).

(** The two transcription branches. *)
Definition inputTranscriptionBranch (msg : LiveServerMessage) : Eff unit :=
  match inputTranscription msg with
  | Some t =>
      update (fun c => set_transcriptionRef
                         {| input := input (transcriptionRef c) ++ appended t;
                            output := output (transcriptionRef c) |} c)
  | None => ret tt
  end.

Definition outputTranscriptionBranch (msg : LiveServerMessage) : Eff unit :=
  match outputTranscription msg with
  | Some t =>
      update (fun c => set_transcriptionRef
                         {| input := input (transcriptionRef c);
                            output := output (transcriptionRef c) ++ appended t |} c)
  | None => ret tt
  end.

(** The turn-complete branch; [now1] and [now2] are what its two [Date.now()]
    return.  The two calls it does not wait for, [evaluateChallengeResponse]
    and [checkGrammar], are logged; [checkGrammar] itself is modelled below. *)
Definition turnCompleteBranch (msg : LiveServerMessage) (now1 now2 : num) : Eff unit :=
  when (turnComplete msg)
    (c <- get ;;
     let input := input (transcriptionRef c) in
     let output := output (transcriptionRef c) in
     let timestamp := now1 in
     when (truthy (trim input))
       (update (setEntries (fun prev =>
          prev ++ [{| role := user; text := input; timestamp := timestamp;
                      correction := None |}])) ;;
        perform (EvaluateChallengeResponse (trim input)) ;;
        perform (CheckGrammar (trim input) timestamp)) ;;
     when (truthy (trim output))
       (update (setEntries (fun prev =>
          prev ++ [{| role := model; text := output; timestamp := now2;
                      correction := None |}]))) ;;
     update (set_transcriptionRef {| input := []; output := [] |})).

(** [onmessage]: the five [if] statements of the handler, in order. *)
Definition onmessage (msg : LiveServerMessage) (currentTime now1 now2 : num)
  : Eff unit :=
  audioBranch msg currentTime ;;
  interruptedBranch msg ;;
  inputTranscriptionBranch msg ;;
  outputTranscriptionBranch msg ;;
  turnCompleteBranch msg now1 now2.

(** [onmessage] on a message whose [decodeAudioData] rejects with [err]: the
    handler is suspended at that [await], its promise rejects, and nothing
    after the [await] runs, neither the rest of the audio branch nor the four
    branches that follow.  When the guard of the audio branch fails nothing is
    decoded, and the handler is [onmessage]. *)
Definition onmessageUndecodable (err : JSError) (msg : LiveServerMessage)
  (currentTime now1 now2 : num) : Eff unit :=
  c <- get ;;
  match inlineData msg with
  | Some base64Audio =>
      if truthy base64Audio && negb (isNone (audioContextOutRef c))
         && negb (isPausedRef (tuning c)) && negb (isNone (outputGainNodeRef c))
      then
        update (setIsSpeaking true) ;;
        update (fun c => set_nextStartTimeRef
                           (nmax (nextStartTimeRef c) currentTime) c) ;;
        raise err
      else onmessage msg currentTime now1 now2
  | None => onmessage msg currentTime now1 now2
  end.

(** [source.onended] of the source whose node is [n]. *)
Definition onended (n : nat) : Eff unit :=
  update (fun c => set_sourcesRef
                     (filter (fun s => negb (Nat.eqb (node s) n)) (sourcesRef c)) c) ;;
  c <- get ;;
  when (Nat.eqb (List.length (sourcesRef c)) 0) (update (setIsSpeaking false)).

(** ** startSession *)

(** [err?.message || String(err)] *)
Definition messageOf (err : JSError) : jsstring :=
  match message err with
  | Some m => if truthy m then m else toString err
  | None => toString err
  end.

Definition getFriendlyErrorMessage (err : JSError) : jsstring :=
  let message := messageOf err in
  if negb (onLine host) then str "You seem to be offline."
  else if includes (str "Permission denied") message
       then str "Microphone access denied."
       else str "An error occurred: " ++ firstn 50 message ++ str "...".

(** The body of [startSession], run to the point where the session promise
    has settled. *)
Definition startSession : Eff unit :=
  c <- get ;;
  if isConnecting c then ret tt
  else
    cleanup ;;
    update (setError None) ;;
    update (setIsConnecting true) ;;
    tryCatch
      (call GetUserMedia ;;
       a <- fresh ;;
       perform (NewAudioContext a 16000%N) ;;
       update (set_audioContextInRef (Some a)) ;;
       b <- fresh ;;
       perform (NewAudioContext b 24000%N) ;;
       update (set_audioContextOutRef (Some b)) ;;
       g <- fresh ;;
       c <- get ;;
       perform (CreateGain g (outputVolumeRef (tuning c))) ;;
       update (set_outputGainNodeRef (Some g)) ;;
       s <- fresh ;;
       call (LiveConnect s) ;;
       update (set_sessionRef (Some s)))
      (fun err =>
         update (setError (Some (getFriendlyErrorMessage err))) ;;
         update (setIsConnecting false)).

(** What [audioContextInRef.current!.createMediaStreamSource] throws when the
    ref holds [null]. *)
Definition nullContext : JSError :=
  {| message := Some (str "Cannot read properties of null (reading 'createMediaStreamSource')");
     toString := str "TypeError: Cannot read properties of null (reading 'createMediaStreamSource')" |}.

(** The [onopen] callback of the session.  After the two setters it builds
    the capture graph on the input context (media stream source, script
    processor with [onaudioprocess] as its callback, both connected), calls
    that are not logged; on a [null] context the first of them throws. *)
Definition onopen : Eff unit :=
  update (setIsActive true) ;;
  update (setIsConnecting false) ;;
  c <- get ;;
  if isNone (audioContextInRef c) then raise nullContext else ret tt.

(** ** checkGrammar *)

Fixpoint jsstring_eqb (a b : jsstring) : bool :=
  match a, b with
  | [], [] => true
  | x :: a', y :: b' => (x =? y)%N && jsstring_eqb a' b'
  | _, _ => false
  end.

(** The updater [checkGrammar] hands to [setEntries]. *)
Definition attachCorrection (ts : num) (corrected : jsstring)
  (prev : list TranscriptionEntry) : list TranscriptionEntry :=
  map (fun e =>
         if neqb (timestamp e) ts
         then {| role := role e; text := text e; timestamp := timestamp e;
                 correction := Some corrected |}
         else e) prev.

Definition challengeIsActive (ch : option Challenge) : bool :=
  match ch with
  | Some c => match status c with active => true | _ => false end
  | None => false
  end.

(** [checkGrammar(text, timestamp)], run until the reply of the service has
    been dealt with.  The function closes over the [activeChallenge] of the
    render that defined it, which need not be the state at the time of the
    call: it is the argument [challenge]. *)
Definition checkGrammar (challenge : option Challenge) (t : jsstring) (ts : num)
  : Eff unit :=
  if negb (truthy t) || (List.length (split space t) <? 2)%nat then ret tt
  else if challengeIsActive challenge then ret tt
  else
    tryCatch
      (call (GenerateContent t) ;;
       let result := grammarService host t in
       match reply_status result, correctedText result with
       | Some st, Some corrected =>
           when (jsstring_eqb st (str "CORRECTION") && truthy corrected)
             (update (setEntries (attachCorrection ts corrected)))
       | _, _ => ret tt
       end)
      (fun _ => perform ConsoleWarn).

(** ** Sequences of callbacks *)

(** One capture callback, after the slider refs have taken the values [t]. *)
Record CaptureInput : Type := {
  cap_tuning : Tuning;
  cap_frame : list num;
  cap_now : num
}.

Fixpoint captureRun (inputs : list CaptureInput) : Eff (list (option FeedbackType)) :=
  match inputs with
  | [] => ret []
  | i :: rest =>
      update (set_tuning (cap_tuning i)) ;;
      r <- onaudioprocess (cap_frame i) (cap_now i) ;;
      evs <- captureRun rest ;;
      ret (snd r :: evs)
  end.

(** One inbound message together with the clock readings of its handling. *)
Record Inbound : Type := {
  in_msg : LiveServerMessage;
  in_currentTime : num;
  in_now1 : num;
  in_now2 : num
}.

Fixpoint inboundRun (inputs : list Inbound) : Eff unit :=
  match inputs with
  | [] => ret tt
  | i :: rest =>
      onmessage (in_msg i) (in_currentTime i) (in_now1 i) (in_now2 i) ;;
      inboundRun rest
  end.

End Model.

Arguments SessionClose {num Blob}.
Arguments ContextClose {num Blob}.
Arguments SourceStop {num Blob}.
Arguments SourceStart {num Blob}.
Arguments FeedbackTone {num Blob}.
Arguments SendRealtimeInput {num Blob}.
Arguments GetUserMedia {num Blob}.
Arguments NewAudioContext {num Blob}.
Arguments CreateGain {num Blob}.
Arguments LiveConnect {num Blob}.
Arguments GenerateContent {num Blob}.
Arguments EvaluateChallengeResponse {num Blob}.
Arguments CheckGrammar {num Blob}.
Arguments ConsoleWarn {num Blob}.
Arguments Thrown {A}.

(** * Properties *)

(** ** How the building blocks run *)

Section Running.

Variable num : Type.
Context {NUM : JSNumber num}.
Variable Blob : Type.
Variable host : Host num Blob.

Lemma world_eta (w : World num Blob) :
  {| comp := comp w; log := log w; nextNode := nextNode w |} = w.
Proof. destruct w; reflexivity. Qed.

(** A guarded call never throws: it is logged and the handler goes on. *)
Lemma guarded_call (e : Effect num Blob) (w : World num Blob) :
  tryCatch (call host e) (@ignore num Blob) w = (Returned tt, emit e w).
Proof.
  unfold tryCatch, call, ignore, ret.
  destruct (throws host e); reflexivity.
Qed.

(** Stopping every source of a list logs one [SourceStop] per source, in the
    order of the list, and nothing else happens. *)
Lemma forEach_stop (l : list (Source num)) (w : World num Blob) :
  forEach l (fun s => tryCatch (call host (SourceStop (node s))) (@ignore num Blob)) w
  = (Returned tt,
     {| comp := comp w;
        log := log w ++ map (fun s => SourceStop (node s)) l;
        nextNode := nextNode w |}).
Proof.
  revert w; induction l as [|s l IH]; intro w; cbn [forEach map].
  - unfold ret. rewrite app_nil_r, world_eta. reflexivity.
  - unfold bind. rewrite guarded_call, IH. unfold emit; cbn.
    rewrite <- app_assoc. reflexivity.
Qed.

(** The calls [cleanup] makes on a component, in order. *)
Definition closing (o : option nat) (f : nat -> Effect num Blob) : list (Effect num Blob) :=
  match o with Some x => [f x] | None => [] end.

Definition cleanupCalls (c : Component num) : list (Effect num Blob) :=
  closing (sessionRef c) SessionClose
  ++ closing (audioContextInRef c) ContextClose
  ++ closing (audioContextOutRef c) ContextClose
  ++ map (fun s => SourceStop (node s)) (sourcesRef c).

(** The component [cleanup] leaves. *)
Definition cleaned (c : Component num) : Component num :=
  setIsSpeaking false
    (setIsUserTalkingLocal false
       (setIsActive false
          (set_sourcesRef []
             (set_outputGainNodeRef None
                (set_audioContextOutRef None
                   (set_audioContextInRef None
                      (set_sessionRef None c))))))).

Lemma cleanup_runs (w : World num Blob) :
  cleanup host w
  = (Returned tt,
     {| comp := cleaned (comp w);
        log := log w ++ cleanupCalls (comp w);
        nextNode := nextNode w |}).
Proof.
  destruct w as [c l n].
  destruct c as [t se ai ao g nx ss tr wt ls en ac sp ut co er ch].
  unfold cleanup, cleanupCalls, cleaned, closing.
  destruct se as [se|], ai as [ai|], ao as [ao|];
    cbv [bind get update comp log nextNode sessionRef audioContextInRef
         audioContextOutRef sourcesRef set_sessionRef set_audioContextInRef
         set_audioContextOutRef set_outputGainNodeRef ret];
    repeat (rewrite guarded_call; cbv [emit comp log nextNode]);
    rewrite forEach_stop;
    cbv [comp log nextNode set_sourcesRef setIsActive setIsUserTalkingLocal
         setIsSpeaking];
    repeat rewrite <- app_assoc; reflexivity.
Qed.

Lemma cleaned_calls_nothing (c : Component num) : cleanupCalls (cleaned c) = [].
Proof. destruct c; reflexivity. Qed.

Lemma cleaned_twice (c : Component num) : cleaned (cleaned c) = cleaned c.
Proof. destruct c; reflexivity. Qed.

(** *** The branches of [onmessage] *)

(** The guard of the audio branch, and the payload it lets through. *)
Definition audible (msg : LiveServerMessage) (c : Component num) : option jsstring :=
  match inlineData msg with
  | Some base64Audio =>
      if truthy base64Audio && negb (isNone (audioContextOutRef c))
         && negb (isPausedRef (tuning c)) && negb (isNone (outputGainNodeRef c))
      then Some base64Audio else None
  | None => None
  end.

(** The source the audio branch starts for payload [a] at clock [currentTime]
    on component [c], with node identity [n]. *)
Definition sourceFor (c : Component num) (a : jsstring) (currentTime : num) (n : nat)
  : Source num :=
  {| node := n;
     buffer := decodeAudioData host a;
     startTime := nmax (nextStartTimeRef c) currentTime;
     playbackRate := nmul (speechRateRef (tuning c)) (outputPitchRef (tuning c)) |}.

Definition afterAudio (msg : LiveServerMessage) (currentTime : num)
  (w : World num Blob) : World num Blob :=
  match audible msg (comp w) with
  | Some a =>
      let s := sourceFor (comp w) a currentTime (nextNode w) in
      {| comp :=
           set_sourcesRef (sourcesRef (comp w) ++ [s])
             (set_nextStartTimeRef
                (nadd (startTime s) (ndiv (duration (buffer s)) (playbackRate s)))
                (setIsSpeaking true (comp w)));
         log := log w ++ [SourceStart s];
         nextNode := S (nextNode w) |}
  | None => w
  end.

Lemma audioBranch_runs (msg : LiveServerMessage) (currentTime : num)
  (w : World num Blob) :
  audioBranch host msg currentTime w = (Returned tt, afterAudio msg currentTime w).
Proof.
  destruct w as [c l n].
  destruct c as [t se ai ao g nx ss tr wt ls en ac sp ut co er ch].
  unfold audioBranch, afterAudio, audible, sourceFor.
  cbv [bind get comp].
  destruct (inlineData msg) as [a|]; [|reflexivity].
  cbv [audioContextOutRef outputGainNodeRef tuning].
  destruct (truthy a && negb (isNone ao) && negb (isPausedRef t) && negb (isNone g));
    reflexivity.
Qed.

Definition afterInterrupted (msg : LiveServerMessage) (w : World num Blob)
  : World num Blob :=
  if interrupted msg then
    {| comp := setIsSpeaking false
                 (set_nextStartTimeRef nzero (set_sourcesRef [] (comp w)));
       log := log w ++ map (fun s => SourceStop (node s)) (sourcesRef (comp w));
       nextNode := nextNode w |}
  else w.

Lemma interruptedBranch_runs (msg : LiveServerMessage) (w : World num Blob) :
  interruptedBranch host msg w = (Returned tt, afterInterrupted msg w).
Proof.
  unfold interruptedBranch, afterInterrupted, when.
  destruct (interrupted msg); [|reflexivity].
  cbv [bind get]. rewrite forEach_stop. reflexivity.
Qed.

Definition afterInput (msg : LiveServerMessage) (w : World num Blob)
  : World num Blob :=
  match inputTranscription msg with
  | Some t =>
      {| comp := set_transcriptionRef
                   {| input := input (transcriptionRef (comp w)) ++ appended t;
                      output := output (transcriptionRef (comp w)) |} (comp w);
         log := log w;
         nextNode := nextNode w |}
  | None => w
  end.

Definition afterOutput (msg : LiveServerMessage) (w : World num Blob)
  : World num Blob :=
  match outputTranscription msg with
  | Some t =>
      {| comp := set_transcriptionRef
                   {| input := input (transcriptionRef (comp w));
                      output := output (transcriptionRef (comp w)) ++ appended t |} (comp w);
         log := log w;
         nextNode := nextNode w |}
  | None => w
  end.

Lemma inputTranscriptionBranch_runs (msg : LiveServerMessage) (w : World num Blob) :
  inputTranscriptionBranch msg w = (Returned tt, afterInput msg w).
Proof.
  unfold inputTranscriptionBranch, afterInput.
  destruct (inputTranscription msg); reflexivity.
Qed.

Lemma outputTranscriptionBranch_runs (msg : LiveServerMessage) (w : World num Blob) :
  outputTranscriptionBranch msg w = (Returned tt, afterOutput msg w).
Proof.
  unfold outputTranscriptionBranch, afterOutput.
  destruct (outputTranscription msg); reflexivity.
Qed.

(** The entries a turn-complete appends for the accumulated texts. *)
Definition finalized (tr : Transcription) (now1 now2 : num)
  : list (TranscriptionEntry num) :=
  (if truthy (trim (input tr))
   then [{| role := user; text := input tr; timestamp := now1; correction := None |}]
   else [])
  ++ (if truthy (trim (output tr))
      then [{| role := model; text := output tr; timestamp := now2; correction := None |}]
      else []).

Definition afterTurnComplete (msg : LiveServerMessage) (now1 now2 : num)
  (w : World num Blob) : World num Blob :=
  if turnComplete msg then
    let tr := transcriptionRef (comp w) in
    {| comp := set_transcriptionRef {| input := []; output := [] |}
                 (setEntries (fun prev => prev ++ finalized tr now1 now2) (comp w));
       log := log w
              ++ (if truthy (trim (input tr))
                  then [EvaluateChallengeResponse (trim (input tr));
                        CheckGrammar (trim (input tr)) now1]
                  else []);
       nextNode := nextNode w |}
  else w.

Lemma turnCompleteBranch_runs (msg : LiveServerMessage) (now1 now2 : num)
  (w : World num Blob) :
  turnCompleteBranch msg now1 now2 w = (Returned tt, afterTurnComplete msg now1 now2 w).
Proof.
  destruct w as [c l n].
  destruct c as [t se ai ao g nx ss tr wt ls en ac sp ut co er ch].
  destruct tr as [i o].
  unfold turnCompleteBranch, afterTurnComplete, finalized, when.
  destruct (turnComplete msg); [|reflexivity].
  cbv [bind get comp transcriptionRef input output update perform emit log
       nextNode setEntries set_transcriptionRef ret].
  destruct (truthy (trim i)), (truthy (trim o)); cbn [app];
    repeat rewrite <- app_assoc; cbn [app]; rewrite ?app_nil_r; reflexivity.
Qed.

(** [onmessage] always returns, with the world its five branches leave. *)
Lemma onmessage_runs (msg : LiveServerMessage) (currentTime now1 now2 : num)
  (w : World num Blob) :
  onmessage host msg currentTime now1 now2 w
  = (Returned tt,
     afterTurnComplete msg now1 now2
       (afterOutput msg
          (afterInput msg
             (afterInterrupted msg (afterAudio msg currentTime w))))).
Proof.
  unfold onmessage, bind.
  rewrite audioBranch_runs, interruptedBranch_runs,
    inputTranscriptionBranch_runs, outputTranscriptionBranch_runs.
  apply turnCompleteBranch_runs.
Qed.

End Running.

(** ** Teardown *)

(** C5.  Session teardown is idempotent.  Whatever the session state and
    whichever of its calls into the browser fail, [cleanup] returns; a second
    [cleanup] right after it returns as well, makes no call and changes
    nothing, so the state after two teardowns is the state after one; and no
    playback source is left in the active set. *)
Theorem cleanup_idempotent :
  forall (num : Type) (NUM : JSNumber num) (Blob : Type)
         (host : Host num Blob) (w : World num Blob),
  exists w1 : World num Blob,
    cleanup host w = (Returned tt, w1)
    /\ cleanup host w1 = (Returned tt, w1)
    /\ sourcesRef (comp w1) = [].
Proof.
  intros num NUM Blob host w.
  eexists. split; [apply cleanup_runs|]. split.
  - rewrite cleanup_runs. cbn [comp log nextNode].
    rewrite cleaned_calls_nothing, cleaned_twice, app_nil_r. reflexivity.
  - destruct w as [c l n]; destruct c; reflexivity.
Qed.

Section StaleRefs.

Variable num : Type.
Context {NUM : JSNumber num}.
Variable Blob : Type.
Variable host : Host num Blob.

(** The refs of the scheduler, the transcript accumulators and the VAD. *)
Definition sessionRefs (c : Component num) : num * Transcription * bool * num :=
  (nextStartTimeRef c, transcriptionRef c, wasUserTalkingRef c, lastSilenceTimeRef c).

(** [cleanup] assigns none of them. *)
Lemma cleanup_keeps_sessionRefs (w : World num Blob) :
  sessionRefs (comp (snd (cleanup host w))) = sessionRefs (comp w).
Proof.
  rewrite cleanup_runs. destruct w as [c l n]; destruct c. reflexivity.
Qed.

(** Nor does [startSession], whether the microphone and the connection are
    granted or not. *)
Lemma startSession_keeps_sessionRefs (w : World num Blob) :
  sessionRefs (comp (snd (startSession host w))) = sessionRefs (comp w).
Proof.
  unfold startSession. cbv [bind get].
  destruct (isConnecting (comp w)); [reflexivity|].
  rewrite cleanup_runs. cbv [update tryCatch bind call fresh perform emit comp log nextNode].
  destruct (throws host GetUserMedia);
    [destruct w as [c l n]; destruct c; reflexivity|].
  match goal with
  | |- context [throws host (LiveConnect ?s)] =>
      destruct (throws host (LiveConnect s))
  end; destruct w as [c l n]; destruct c; reflexivity.
Qed.

End StaleRefs.

(** ** Strings: trimming *)

Lemma trimStart_nil_iff (s : jsstring) :
  trimStart s = [] <-> forallb isWhiteSpace s = true.
Proof.
  induction s as [|c s IH]; cbn [trimStart forallb].
  - split; reflexivity.
  - destruct (isWhiteSpace c); cbn [andb]; [exact IH|].
    split; discriminate.
Qed.

Lemma trimStart_head (s : jsstring) (c : N) (r : jsstring) :
  trimStart s = c :: r -> isWhiteSpace c = false.
Proof.
  induction s as [|d s IH]; cbn [trimStart]; [discriminate|].
  destruct (isWhiteSpace d) eqn:E; [exact IH|].
  intro H; injection H as -> _; exact E.
Qed.

Lemma forallb_rev (f : N -> bool) (s : jsstring) :
  forallb f (rev s) = forallb f s.
Proof.
  induction s as [|c s IH]; [reflexivity|].
  cbn [rev forallb]. rewrite forallb_app, IH. cbn [forallb].
  rewrite andb_true_r. apply andb_comm.
Qed.

(** A text trims to the empty string exactly when it is all white space. *)
Lemma trim_nil_iff (s : jsstring) :
  trim s = [] <-> forallb isWhiteSpace s = true.
Proof.
  unfold trim, trimEnd. split.
  - intro H.
    assert (H1 : trimStart (rev (trimStart s)) = []).
    { apply (f_equal (@rev N)) in H. rewrite rev_involutive in H. exact H. }
    apply trimStart_nil_iff in H1. rewrite forallb_rev in H1.
    destruct (trimStart s) as [|c r] eqn:E.
    + apply trimStart_nil_iff; exact E.
    + apply trimStart_head in E. cbn [forallb] in H1. rewrite E in H1.
      discriminate.
  - intro H. apply trimStart_nil_iff in H. rewrite H. reflexivity.
Qed.

Lemma truthy_trim_false (s : jsstring) :
  forallb isWhiteSpace s = true -> truthy (trim s) = false.
Proof. intro H. apply trim_nil_iff in H. rewrite H. reflexivity. Qed.

(** ** Turn finalization *)

Section TurnFinalization.

Variable num : Type.
Context {NUM : JSNumber num}.
Variable Blob : Type.
Variable host : Host num Blob.

(** An accumulator after the delta of the message at hand, if it carries one. *)
Definition accumulated (acc : jsstring) (delta : option (option jsstring)) : jsstring :=
  match delta with Some t => acc ++ appended t | None => acc end.

Lemma afterAudio_keeps_transcript (msg : LiveServerMessage) (ct : num)
  (w : World num Blob) :
  transcriptionRef (comp (afterAudio host msg ct w)) = transcriptionRef (comp w)
  /\ entries (comp (afterAudio host msg ct w)) = entries (comp w).
Proof.
  unfold afterAudio. destruct (audible msg (comp w)); [|split; reflexivity].
  destruct w as [c l n]; destruct c; split; reflexivity.
Qed.

Lemma afterInterrupted_keeps_transcript (msg : LiveServerMessage)
  (w : World num Blob) :
  transcriptionRef (comp (afterInterrupted msg w)) = transcriptionRef (comp w)
  /\ entries (comp (afterInterrupted msg w)) = entries (comp w).
Proof.
  unfold afterInterrupted. destruct (interrupted msg); [|split; reflexivity].
  destruct w as [c l n]; destruct c; split; reflexivity.
Qed.

Lemma afterDeltas_transcript (msg : LiveServerMessage) (w : World num Blob) :
  transcriptionRef (comp (afterOutput msg (afterInput msg w)))
  = {| input := accumulated (input (transcriptionRef (comp w))) (inputTranscription msg);
       output := accumulated (output (transcriptionRef (comp w))) (outputTranscription msg) |}
  /\ entries (comp (afterOutput msg (afterInput msg w))) = entries (comp w).
Proof.
  unfold afterOutput, afterInput, accumulated.
  destruct w as [c l n]; destruct c as [t se ai ao g nx ss tr wt ls en ac sp ut co er ch].
  destruct tr as [i o].
  destruct (inputTranscription msg), (outputTranscription msg); split; reflexivity.
Qed.

(** C4.  A message that completes a turn appends, to the entries, one user
    entry exactly when the accumulated input text is non-empty after trimming,
    then one agent entry exactly when the accumulated output text is
    non-empty after trimming, and nothing else; when both accumulations are
    all white space it appends nothing; and in every case both accumulators
    are empty afterwards. *)
Theorem turnComplete_finalizes :
  forall (msg : LiveServerMessage) (currentTime now1 now2 : num)
         (w : World num Blob),
  turnComplete msg = true ->
  let accIn := accumulated (input (transcriptionRef (comp w))) (inputTranscription msg) in
  let accOut := accumulated (output (transcriptionRef (comp w))) (outputTranscription msg) in
  exists w' : World num Blob,
    onmessage host msg currentTime now1 now2 w = (Returned tt, w')
    /\ entries (comp w')
       = entries (comp w)
         ++ (if truthy (trim accIn)
             then [{| role := user; text := accIn; timestamp := now1;
                      correction := None |}]
             else [])
         ++ (if truthy (trim accOut)
             then [{| role := model; text := accOut; timestamp := now2;
                      correction := None |}]
             else [])
    /\ (forallb isWhiteSpace accIn = true ->
        forallb isWhiteSpace accOut = true ->
        entries (comp w') = entries (comp w))
    /\ transcriptionRef (comp w') = {| input := []; output := [] |}.
Proof.
  intros msg ct now1 now2 w Htc accIn accOut.
  eexists. split; [apply onmessage_runs|].
  set (w2 := afterInterrupted msg (afterAudio host msg ct w)).
  assert (Htr : transcriptionRef (comp (afterOutput msg (afterInput msg w2)))
                = {| input := accIn; output := accOut |}
                /\ entries (comp (afterOutput msg (afterInput msg w2)))
                   = entries (comp w)).
  { destruct (afterDeltas_transcript msg w2) as [E1 E2].
    destruct (afterInterrupted_keeps_transcript msg (afterAudio host msg ct w))
      as [E3 E4].
    destruct (afterAudio_keeps_transcript msg ct w) as [E5 E6].
    fold w2 in E3, E4. rewrite E1, E2, E3, E4, E5, E6. split; reflexivity. }
  destruct Htr as [Htr Hen].
  set (w4 := afterOutput msg (afterInput msg w2)) in *.
  assert (Hfin : entries (comp (afterTurnComplete msg now1 now2 w4))
                 = entries (comp w) ++ finalized {| input := accIn; output := accOut |} now1 now2
                 /\ transcriptionRef (comp (afterTurnComplete msg now1 now2 w4))
                    = {| input := []; output := [] |}).
  { unfold afterTurnComplete. rewrite Htc, Htr.
    destruct w4 as [c l n]; destruct c. cbn in Hen |- *. rewrite Hen.
    split; reflexivity. }
  destruct Hfin as [Hfin Hclr].
  unfold finalized in Hfin; cbn [input output] in Hfin.
  split; [exact Hfin|]. split; [|exact Hclr].
  intros Hi Ho. rewrite Hfin.
  rewrite (truthy_trim_false _ Hi), (truthy_trim_false _ Ho).
  cbn [app]. apply app_nil_r.
Qed.

End TurnFinalization.

(** ** The grammar check *)

Section GrammarCheck.

Variable num : Type.
Context {NUM : JSNumber num}.
Variable Blob : Type.
Variable host : Host num Blob.

(** The guard at the head of [checkGrammar]. *)
Definition returnsEarly (challenge : option Challenge) (t : jsstring) : bool :=
  negb (truthy t) || (List.length (split space t) <? 2)%nat
  || challengeIsActive challenge.

(** The correction the reply of the service carries for text [t], if it is
    one the function attaches. *)
Definition correctionFor (t : jsstring) : option jsstring :=
  match reply_status (grammarService host t), correctedText (grammarService host t) with
  | Some st, Some corrected =>
      if jsstring_eqb st (str "CORRECTION") && truthy corrected
      then Some corrected else None
  | _, _ => None
  end.

Definition afterCheckGrammar (challenge : option Challenge) (t : jsstring)
  (ts : num) (w : World num Blob) : World num Blob :=
  if returnsEarly challenge t then w
  else
    let w1 := emit (GenerateContent t) w in
    match throws host (GenerateContent t) with
    | Some _ => emit ConsoleWarn w1
    | None =>
        match correctionFor t with
        | Some corrected =>
            {| comp := setEntries (attachCorrection ts corrected) (comp w1);
               log := log w1;
               nextNode := nextNode w1 |}
        | None => w1
        end
    end.

Lemma checkGrammar_runs (challenge : option Challenge) (t : jsstring) (ts : num)
  (w : World num Blob) :
  checkGrammar host challenge t ts w
  = (Returned tt, afterCheckGrammar challenge t ts w).
Proof.
  unfold checkGrammar, afterCheckGrammar, returnsEarly, correctionFor.
  destruct (negb (truthy t) || (List.length (split space t) <? 2)%nat);
    [reflexivity|].
  cbn [orb].
  destruct (challengeIsActive challenge); [reflexivity|].
  unfold tryCatch, bind, call.
  destruct (throws host (GenerateContent t)); [reflexivity|].
  destruct (reply_status (grammarService host t)) as [st|],
           (correctedText (grammarService host t)) as [c|];
    try reflexivity.
  unfold when.
  destruct (jsstring_eqb st (str "CORRECTION") && truthy c); reflexivity.
Qed.

Lemma attachCorrection_length (ts : num) (corrected : jsstring)
  (prev : list (TranscriptionEntry num)) :
  List.length (attachCorrection ts corrected prev) = List.length prev.
Proof. unfold attachCorrection. apply length_map. Qed.

Lemma attachCorrection_nth (ts : num) (corrected : jsstring)
  (prev : list (TranscriptionEntry num)) (i : nat) (e : TranscriptionEntry num) :
  nth_error prev i = Some e ->
  nth_error (attachCorrection ts corrected prev) i
  = Some (if neqb (timestamp e) ts
          then {| role := role e; text := text e; timestamp := timestamp e;
                  correction := Some corrected |}
          else e).
Proof.
  intro H. unfold attachCorrection.
  rewrite nth_error_map, H. reflexivity.
Qed.

(** C8.  [checkGrammar] on a text with timestamp [ts] returns, and every
    entry keeps its place, its role, its text and its timestamp; an entry
    whose timestamp is not [ts] is left as it was; so only the correction of
    an entry with timestamp [ts] can change.  When the check goes through and
    the service answers with a correction, each entry with timestamp [ts]
    carries that correction afterwards. *)
Theorem checkGrammar_touches_only_the_correction :
  forall (challenge : option Challenge) (t : jsstring) (ts : num)
         (w : World num Blob),
  exists w' : World num Blob,
    checkGrammar host challenge t ts w = (Returned tt, w')
    /\ List.length (entries (comp w')) = List.length (entries (comp w))
    /\ (forall (i : nat) (e : TranscriptionEntry num),
          nth_error (entries (comp w)) i = Some e ->
          exists e' : TranscriptionEntry num,
            nth_error (entries (comp w')) i = Some e'
            /\ role e' = role e /\ text e' = text e
            /\ timestamp e' = timestamp e
            /\ (neqb (timestamp e) ts = false -> e' = e)
            /\ (neqb (timestamp e) ts = true ->
                forall corrected : jsstring,
                  returnsEarly challenge t = false ->
                  throws host (GenerateContent t) = None ->
                  correctionFor t = Some corrected ->
                  correction e' = Some corrected)).
Proof.
  intros challenge t ts w. eexists. split; [apply checkGrammar_runs|].
  unfold afterCheckGrammar.
  destruct (returnsEarly challenge t) eqn:G;
    [| destruct (throws host (GenerateContent t)) eqn:T;
       [| destruct (correctionFor t) as [c|] eqn:C ] ].
  3: { assert (E : entries (comp
                     {| comp := setEntries (attachCorrection ts c)
                                  (comp (emit (GenerateContent t) w));
                        log := log (emit (GenerateContent t) w);
                        nextNode := nextNode (emit (GenerateContent t) w) |})
                   = attachCorrection ts c (entries (comp w))).
       { destruct w as [c0 l n]; destruct c0; reflexivity. }
       rewrite E. split; [apply attachCorrection_length|]. intros i e H.
       rewrite (attachCorrection_nth ts c _ i H).
       eexists; split; [reflexivity|].
       destruct (neqb (timestamp e) ts) eqn:Q; cbn.
       all: repeat split; intros; congruence. }
  all: split; [reflexivity|]; intros i e H; exists e;
    repeat split; try assumption; intros; congruence.
Qed.

End GrammarCheck.

(** ** Words of a text *)

(** The space-separated words of a text: the non-empty pieces of
    [text.split(' ')]. *)
Definition words (t : jsstring) : list jsstring := filter truthy (split space t).

Lemma split_from_head (sep : N) (s cur : jsstring) :
  cur <> [] ->
  exists p rest, split_from sep cur s = p :: rest /\ p <> [].
Proof.
  revert cur; induction s as [|c s IH]; intros cur Hc; cbn [split_from].
  - exists (rev cur), []. split; [reflexivity|].
    intro H. apply (f_equal (@rev N)) in H. rewrite rev_involutive in H.
    exact (Hc H).
  - destruct (c =? sep)%N.
    + exists (rev cur), (split_from sep [] s). split; [reflexivity|].
      intro H. apply (f_equal (@rev N)) in H. rewrite rev_involutive in H.
      exact (Hc H).
    + apply IH. discriminate.
Qed.

Lemma split_from_not_nil (sep : N) (s cur : jsstring) : split_from sep cur s <> [].
Proof.
  revert cur; induction s as [|c s IH]; intro cur; cbn [split_from].
  - discriminate.
  - destruct (c =? sep)%N; [discriminate | apply IH].
Qed.

Lemma split_from_last (sep : N) (s cur : jsstring) :
  (s <> [] -> last s 0%N <> sep) ->
  (s = [] -> cur <> []) ->
  last (split_from sep cur s) [] <> [].
Proof.
  revert cur; induction s as [|c s IH]; intros cur Hl Hc.
  - cbn. intro H. apply (f_equal (@rev N)) in H. rewrite rev_involutive in H.
    exact (Hc eq_refl H).
  - cbn [split_from]. destruct (c =? sep)%N eqn:E.
    + apply N.eqb_eq in E. subst c.
      assert (Hs : s <> []).
      { intro Hs; subst s. apply Hl; [discriminate | reflexivity]. }
      pose proof (split_from_not_nil sep s []) as Hn.
      destruct (split_from sep [] s) as [|p ps] eqn:Es; [contradiction|].
      change (last (rev cur :: p :: ps) []) with (last (p :: ps) []).
      rewrite <- Es. apply IH.
      * intros _. destruct s as [|d s']; [contradiction|].
        apply Hl. discriminate.
      * intro H; contradiction.
    + apply IH.
      * intro Hs. destruct s as [|d s']; [contradiction|].
        apply Hl. discriminate.
      * discriminate.
Qed.

Lemma filter_two {A : Type} (f : A -> bool) (d : A) (l : list A) :
  (2 <= List.length l)%nat -> f (hd d l) = true -> f (last l d) = true ->
  (2 <= List.length (filter f l))%nat.
Proof.
  intros Hlen Hh Hl.
  destruct l as [|x [|y l']]; cbn [List.length] in Hlen; try lia.
  cbn [hd] in Hh.
  change (last (x :: y :: l') d) with (last (y :: l') d) in Hl.
  remember (y :: l') as l2 eqn:El2.
  assert (Hin : In (last l2 d) (filter f l2)).
  { apply filter_In. split; [|exact Hl].
    destruct (@exists_last _ l2) as (m & z & E); [subst l2; discriminate|].
    rewrite E, last_last. apply in_or_app. right. left. reflexivity. }
  cbn [filter]. rewrite Hh.
  destruct (filter f l2); [destruct Hin | cbn [List.length]; lia].
Qed.

Lemma trimStart_suffix (s : jsstring) : exists p, s = p ++ trimStart s.
Proof.
  induction s as [|c s [p IH]]; [exists []; reflexivity|].
  cbn [trimStart]. destruct (isWhiteSpace c).
  - exists (c :: p). cbn. rewrite <- IH. reflexivity.
  - exists []. reflexivity.
Qed.

(** A trimmed text, when it is not empty, neither starts nor ends with white
    space. *)
Lemma trim_ends (s : jsstring) :
  trim s <> [] ->
  isWhiteSpace (hd 0%N (trim s)) = false
  /\ isWhiteSpace (last (trim s) 0%N) = false.
Proof.
  unfold trim, trimEnd. intro Hne.
  set (u := trimStart s) in *.
  destruct (trimStart (rev u)) as [|c v] eqn:Ev; [contradiction Hne; reflexivity|].
  split.
  - destruct (trimStart_suffix (rev u)) as [p Hp]. rewrite Ev in Hp.
    apply (f_equal (@rev N)) in Hp. rewrite rev_involutive, rev_app_distr in Hp.
    destruct (rev (c :: v)) as [|d r] eqn:Er; [contradiction Hne; reflexivity|].
    cbn [hd]. cbn [app] in Hp. unfold u in Hp.
    exact (trimStart_head _ Hp).
  - cbn [rev]. rewrite last_last. exact (trimStart_head _ Ev).
Qed.

(** A trimmed text that [split(' ')] cuts in two pieces or more has two words
    or more. *)
Lemma trimmed_words (s : jsstring) :
  (2 <= List.length (split space (trim s)))%nat ->
  (2 <= List.length (words (trim s)))%nat.
Proof.
  intro Hlen. unfold words.
  assert (Hne : trim s <> []).
  { intro E. rewrite E in Hlen. cbn in Hlen. lia. }
  destruct (trim_ends s Hne) as [Hh Hl].
  destruct (trim s) as [|c r] eqn:Et; [contradiction|].
  cbn [hd] in Hh.
  assert (Hc : (c =? space)%N = false).
  { destruct (c =? space)%N eqn:E; [|reflexivity].
    apply N.eqb_eq in E. subst c. discriminate Hh. }
  apply (filter_two truthy []); [exact Hlen| |].
  - unfold split. cbn [split_from]. rewrite Hc.
    destruct (@split_from_head space r [c]) as (p & rest & E & Hp); [discriminate|].
    rewrite E. cbn [hd]. destruct p; [contradiction|reflexivity].
  - unfold split.
    assert (Hlast : last (split_from space [] (c :: r)) [] <> []).
    { apply split_from_last; [|discriminate].
      intros _ E. rewrite E in Hl. discriminate Hl. }
    destruct (last (split_from space [] (c :: r)) []); [contradiction|reflexivity].
Qed.

Section GrammarGuard.

Variable num : Type.
Context {NUM : JSNumber num}.
Variable Blob : Type.
Variable host : Host num Blob.

(** The guard of [checkGrammar]: it returns at once, with no request
    issued, nothing logged and the entries as they were (so no correction
    attached), when the text is empty, when [split(' ')] cuts it in fewer
    than two pieces, when it is a trimmed text (as the turn-complete branch
    passes) of fewer than two words, or when the challenge the function closes
    over is active.  Which challenge that is, is the matter of
    [sessionOnmessage] below. *)
Theorem checkGrammar_returns_early :
  forall (challenge : option Challenge) (t : jsstring) (ts : num)
         (w : World num Blob),
  t = []
  \/ (List.length (split space t) < 2)%nat
  \/ ((exists t0 : jsstring, t = trim t0) /\ (List.length (words t) < 2)%nat)
  \/ challengeIsActive challenge = true ->
  checkGrammar host challenge t ts w = (Returned tt, w).
Proof.
  intros challenge t ts w H. rewrite checkGrammar_runs. f_equal.
  unfold afterCheckGrammar.
  assert (G : returnsEarly challenge t = true); [|rewrite G; reflexivity].
  unfold returnsEarly.
  destruct (Nat.ltb_spec (List.length (split space t)) 2) as [L|L];
    [rewrite orb_true_r; reflexivity|].
  destruct H as [H | [H | [[[t0 H0] H] | H]]].
  - subst t. reflexivity.
  - lia.
  - subst t. apply trimmed_words in L. lia.
  - rewrite H. apply orb_true_r.
Qed.

End GrammarGuard.

(** ** The capture callback, run *)

Section Capturing.

Variable num : Type.
Context {NUM : JSNumber num}.
Variable Blob : Type.
Variable host : Host num Blob.

(** The two tests of the VAD step on component [c]. *)
Definition isLoud (c : Component num) (rms : num) : bool :=
  ngtb rms (vadThresholdRef (tuning c)).

Definition hangoverOver (c : Component num) (now : num) : bool :=
  ngtb (nsub now (lastSilenceTimeRef c)) (vadDurationRef (tuning c)).

(** The cue of the VAD step. *)
Definition vadCue (c : Component num) (rms now : num) : option FeedbackType :=
  if isLoud c rms then
    if wasUserTalkingRef c then None else Some start
  else
    if wasUserTalkingRef c && hangoverOver c now then Some stop else None.

Definition afterFeedbackSound (t : FeedbackType) (w : World num Blob)
  : World num Blob :=
  if isNone (audioContextOutRef (comp w)) || isPausedRef (tuning (comp w))
  then w else emit (FeedbackTone t) w.

Lemma playFeedbackSound_runs (t : FeedbackType) (w : World num Blob) :
  playFeedbackSound t w = (Returned tt, afterFeedbackSound t w).
Proof.
  unfold playFeedbackSound, afterFeedbackSound. cbv [bind get].
  destruct (isNone (audioContextOutRef (comp w)) || isPausedRef (tuning (comp w)));
    reflexivity.
Qed.

Definition withComp (f : Component num -> Component num) (w : World num Blob)
  : World num Blob :=
  {| comp := f (comp w); log := log w; nextNode := nextNode w |}.

(** The world the VAD step leaves. *)
Definition afterVad (rms now : num) (w : World num Blob) : World num Blob :=
  match vadCue (comp w) rms now with
  | Some start =>
      withComp (set_lastSilenceTimeRef now)
        (afterFeedbackSound start
           (withComp (fun c => setIsUserTalkingLocal true (set_wasUserTalkingRef true c)) w))
  | Some stop =>
      afterFeedbackSound stop
        (withComp (fun c => setIsUserTalkingLocal false (set_wasUserTalkingRef false c)) w)
  | None =>
      if isLoud (comp w) rms then withComp (set_lastSilenceTimeRef now) w else w
  end.

Lemma vad_runs (rms now : num) (w : World num Blob) :
  vad rms now w = (Returned (vadCue (comp w) rms now), afterVad rms now w).
Proof.
  unfold vad, afterVad, vadCue, isLoud, hangoverOver. cbv [bind get].
  destruct (ngtb rms (vadThresholdRef (tuning (comp w)))).
  - destruct (wasUserTalkingRef (comp w)); cbn [negb].
    + reflexivity.
    + cbv [update ret]. rewrite playFeedbackSound_runs. reflexivity.
  - destruct (wasUserTalkingRef (comp w)
              && ngtb (nsub now (lastSilenceTimeRef (comp w)))
                   (vadDurationRef (tuning (comp w)))).
    + cbv [update ret bind]. rewrite playFeedbackSound_runs. reflexivity.
    + reflexivity.
Qed.

(** What the VAD step does to the refs it owns, and what it leaves alone. *)
Lemma afterVad_refs (rms now : num) (w : World num Blob) :
  wasUserTalkingRef (comp (afterVad rms now w))
  = (if isLoud (comp w) rms then true
     else if wasUserTalkingRef (comp w) && hangoverOver (comp w) now then false
          else wasUserTalkingRef (comp w))
  /\ lastSilenceTimeRef (comp (afterVad rms now w))
     = (if isLoud (comp w) rms then now else lastSilenceTimeRef (comp w))
  /\ sessionRef (comp (afterVad rms now w)) = sessionRef (comp w)
  /\ tuning (comp (afterVad rms now w)) = tuning (comp w).
Proof.
  destruct w as [c l n].
  destruct c as [t se ai ao g nx ss tr wt ls en ac sp ut co er ch].
  unfold afterVad, vadCue, afterFeedbackSound, withComp.
  cbn [comp wasUserTalkingRef].
  destruct (isLoud _ rms) eqn:L; destruct wt; cbn [andb].
  2: cbn; destruct (isNone ao || isPausedRef t); repeat split; reflexivity.
  1: repeat split; reflexivity.
  2: repeat split; reflexivity.
  destruct (hangoverOver _ now); [|repeat split; reflexivity].
  cbn; destruct (isNone ao || isPausedRef t); repeat split; reflexivity.
Qed.

(** One capture callback on a component that is neither paused nor without a
    session. *)
Lemma onaudioprocess_runs (inputData : list num) (now : num) (w : World num Blob) :
  isPausedRef (tuning (comp w)) = false ->
  sessionRef (comp w) <> None ->
  let g := inputGainRef (tuning (comp w)) in
  let inputData' := fst (gainLoop g inputData nzero) in
  onaudioprocess host inputData now w
  = (Returned (inputData', vadCue (comp w) (rmsOf g inputData) now),
     emit (SendRealtimeInput (createPcmBlob host inputData'))
       (afterVad (rmsOf g inputData) now w)).
Proof.
  intros Hp Hs g inputData'.
  unfold onaudioprocess. cbv [bind get]. rewrite Hp.
  destruct (sessionRef (comp w)) as [s|] eqn:Es; [|contradiction].
  cbn [isNone orb]. rewrite vad_runs, guarded_call. reflexivity.
Qed.

(** A paused callback, or one without a session, does nothing. *)
Lemma onaudioprocess_skips (inputData : list num) (now : num) (w : World num Blob) :
  isPausedRef (tuning (comp w)) = true \/ sessionRef (comp w) = None ->
  onaudioprocess host inputData now w = (Returned (inputData, None), w).
Proof.
  intros H. unfold onaudioprocess. cbv [bind get].
  destruct H as [H|H]; rewrite H; [reflexivity|].
  rewrite orb_true_r. reflexivity.
Qed.

(** The loop scales every sample, and the sum it returns is the sum of the
    squares of the scaled samples, taken in order. *)
Definition scaled (g : num) (inputData : list num) : list num :=
  map (fun x => nfround (nmul x g)) inputData.

Definition sumSquares (sum : num) (data : list num) : num :=
  fold_left (fun s y => nadd s (nmul y y)) data sum.

Lemma gainLoop_spec (g : num) (inputData : list num) (sum : num) :
  gainLoop g inputData sum = (scaled g inputData, sumSquares sum (scaled g inputData)).
Proof.
  revert sum; induction inputData as [|x rest IH]; intro sum; [reflexivity|].
  cbn [gainLoop]. rewrite IH. reflexivity.
Qed.

(** Root mean square of a frame as it stands: [sqrt (sum of squares / length)]. *)
Definition rootMeanSquare (data : list num) : num :=
  nsqrt (ndiv (sumSquares nzero data) (nlength (List.length data))).

(** The rms the callback measures is the rms of the scaled frame. *)
Lemma rmsOf_scaled (g : num) (inputData : list num) :
  rmsOf g inputData = rootMeanSquare (scaled g inputData).
Proof.
  unfold rmsOf, rootMeanSquare, scaled. rewrite gainLoop_spec.
  cbn [snd]. unfold scaled. rewrite length_map. reflexivity.
Qed.

End Capturing.

(** ** VAD hysteresis *)

Definition other (t : FeedbackType) : FeedbackType :=
  match t with start => stop | stop => start end.

(** The cues of a list strictly alternate, the first being [next]. *)
Fixpoint alternates (next : FeedbackType) (cues : list FeedbackType) : Prop :=
  match cues with
  | [] => True
  | c :: rest => c = next /\ alternates (other next) rest
  end.

Definition cuesOf (evs : list (option FeedbackType)) : list FeedbackType :=
  flat_map (fun o => match o with Some c => [c] | None => [] end) evs.

Section Hysteresis.

Variable num : Type.
Context {NUM : JSNumber num}.
Variable Blob : Type.
Variable host : Host num Blob.

(** The rms the callback measures on an input, and the outcome of its test
    [rms > currentThreshold]. *)
Definition rmsIn (i : CaptureInput num) : num :=
  rmsOf (inputGainRef (cap_tuning i)) (cap_frame i).

Definition loudb (i : CaptureInput num) : bool :=
  ngtb (rmsIn i) (vadThresholdRef (cap_tuning i)).

(** The outcome of the test [now - since > currentDuration] at an input. *)
Definition hangoverb (i : CaptureInput num) (since : num) : bool :=
  ngtb (nsub (cap_now i) since) (vadDurationRef (cap_tuning i)).

(** The world one callback of [captureRun] leaves. *)
Definition afterCapture (i : CaptureInput num) (w : World num Blob)
  : World num Blob :=
  emit (SendRealtimeInput
          (createPcmBlob host
             (fst (gainLoop (inputGainRef (cap_tuning i)) (cap_frame i) nzero))))
    (afterVad (rmsIn i) (cap_now i) (withComp (set_tuning (cap_tuning i)) w)).

Definition cueAt (i : CaptureInput num) (w : World num Blob) : option FeedbackType :=
  vadCue (comp (withComp (set_tuning (cap_tuning i)) w)) (rmsIn i) (cap_now i).

Lemma captureRun_cons (i : CaptureInput num) (rest : list (CaptureInput num))
  (w : World num Blob) :
  isPausedRef (cap_tuning i) = false ->
  sessionRef (comp w) <> None ->
  captureRun host (i :: rest) w
  = match captureRun host rest (afterCapture i w) with
    | (Returned evs, w') => (Returned (cueAt i w :: evs), w')
    | (Thrown m, w') => (Thrown m, w')
    end.
Proof.
  intros Hp Hs. cbn [captureRun]. unfold bind at 1. cbv [update].
  unfold bind at 1.
  rewrite onaudioprocess_runs.
  - destruct w as [c l n]; destruct c. cbn in Hs |- *.
    unfold bind, ret, afterCapture, cueAt, rmsIn, withComp. cbn.
    destruct (captureRun host rest _) as [[evs|m] w']; reflexivity.
  - destruct w as [c l n]; destruct c. exact Hp.
  - destruct w as [c l n]; destruct c. exact Hs.
Qed.

(** The cue of a callback and the VAD refs after it, in terms of the refs
    before it. *)
Lemma capture_step (i : CaptureInput num) (w : World num Blob) :
  let was := wasUserTalkingRef (comp w) in
  let last := lastSilenceTimeRef (comp w) in
  sessionRef (comp (afterCapture i w)) = sessionRef (comp w)
  /\ ((loudb i = true /\ lastSilenceTimeRef (comp (afterCapture i w)) = cap_now i
       /\ wasUserTalkingRef (comp (afterCapture i w)) = true
       /\ cueAt i w = if was then None else Some start)
      \/ (loudb i = false /\ lastSilenceTimeRef (comp (afterCapture i w)) = last
          /\ ((was = true /\ hangoverb i last = true
               /\ wasUserTalkingRef (comp (afterCapture i w)) = false
               /\ cueAt i w = Some stop)
              \/ (wasUserTalkingRef (comp (afterCapture i w)) = was
                  /\ cueAt i w = None)))).
Proof.
  intros was last.
  set (w0 := withComp (set_tuning (cap_tuning i)) w).
  assert (E0 : tuning (comp w0) = cap_tuning i
               /\ wasUserTalkingRef (comp w0) = was
               /\ lastSilenceTimeRef (comp w0) = last
               /\ sessionRef (comp w0) = sessionRef (comp w)).
  { subst w0 was last. destruct w as [c l n]; destruct c.
    repeat split; reflexivity. }
  destruct E0 as (Et & Ew & El & Es).
  destruct (afterVad_refs (rmsIn i) (cap_now i) w0) as (Aw & Al & As & _).
  unfold afterCapture, cueAt. fold w0. cbn [emit comp].
  rewrite Aw, Al, As, Es. split; [reflexivity|].
  unfold vadCue, isLoud, hangoverOver, loudb, hangoverb. rewrite Et, Ew, El.
  destruct (ngtb (rmsIn i) (vadThresholdRef (cap_tuning i))) eqn:L.
  - left. repeat split; reflexivity.
  - right. split; [reflexivity|]. split; [reflexivity|].
    destruct was; cbn [andb]; [|right; split; reflexivity].
    destruct (ngtb (nsub (cap_now i) last) (vadDurationRef (cap_tuning i))) eqn:H.
    + left. repeat split; reflexivity.
    + right. split; reflexivity.
Qed.

(** The invariant behind the hysteresis, in whatever arithmetic and from any
    VAD state: the cues alternate, starting with the one the state calls for;
    and a stop cue at callback [k] means that the test [rms > threshold]
    failed there and that the hangover test succeeded, counted from the last
    callback whose test [rms > threshold] succeeded, or from
    [lastSilenceTimeRef] of the starting state when there was none. *)
Lemma captureRun_general (inputs : list (CaptureInput num)) :
  forall w : World num Blob,
  sessionRef (comp w) <> None ->
  Forall (fun i => isPausedRef (cap_tuning i) = false) inputs ->
  exists (evs : list (option FeedbackType)) (w' : World num Blob),
    captureRun host inputs w = (Returned evs, w')
    /\ List.length evs = List.length inputs
    /\ alternates (if wasUserTalkingRef (comp w) then stop else start) (cuesOf evs)
    /\ forall (k : nat) (i : CaptureInput num),
         nth_error inputs k = Some i ->
         nth_error evs k = Some (Some stop) ->
         loudb i = false
         /\ ((exists (j : nat) (ij : CaptureInput num),
                (j < k)%nat /\ nth_error inputs j = Some ij /\ loudb ij = true
                /\ (forall (m : nat) (im : CaptureInput num),
                      (j < m < k)%nat -> nth_error inputs m = Some im ->
                      loudb im = false)
                /\ hangoverb i (cap_now ij) = true)
             \/ ((forall (m : nat) (im : CaptureInput num),
                     (m < k)%nat -> nth_error inputs m = Some im ->
                     loudb im = false)
                 /\ wasUserTalkingRef (comp w) = true
                 /\ hangoverb i (lastSilenceTimeRef (comp w)) = true)).
Proof.
  induction inputs as [|i rest IH]; intros w Hs Hp.
  - exists [], w. split; [reflexivity|]. split; [reflexivity|].
    split; [exact I|]. intros k i Hk. destruct k; discriminate.
  - inversion Hp as [|i' rest' Hpi Hprest]; subst i' rest'.
    rewrite (@captureRun_cons i rest w Hpi Hs).
    destruct (capture_step i w) as [Hs1 Hstep].
    assert (Hs' : sessionRef (comp (afterCapture i w)) <> None)
      by (rewrite Hs1; exact Hs).
    destruct (IH (afterCapture i w) Hs' Hprest) as (evs & w' & E & Hlen & Halt & Hstop).
    rewrite E. exists (cueAt i w :: evs), w'.
    split; [reflexivity|]. split; [cbn; f_equal; exact Hlen|]. split.
    + (* alternation *)
      unfold cuesOf; cbn [flat_map]; fold (cuesOf evs).
      destruct Hstep as [(Hl & _ & Hw1 & Hc) | (Hq & _ & [(Hw & _ & Hw1 & Hc) | (Hw1 & Hc)])];
        rewrite Hc; rewrite Hw1 in Halt.
      * destruct (wasUserTalkingRef (comp w)); cbn [app alternates];
          [exact Halt | split; [reflexivity | exact Halt]].
      * rewrite Hw. cbn [app alternates]. split; [reflexivity | exact Halt].
      * cbn [app]. exact Halt.
    + (* a stop cue *)
      intros k ik Hk Hev. destruct k as [|k].
      * cbn in Hk, Hev. injection Hk as <-. injection Hev as Hev.
        destruct Hstep as [(Hl & _ & _ & Hc) | (Hq & Hlast & [(Hw & Hd & _ & _) | (_ & Hc)])].
        -- rewrite Hc in Hev. destruct (wasUserTalkingRef (comp w)); discriminate.
        -- split; [exact Hq|]. right. split; [|split; assumption].
           intros m im Hm; lia.
        -- rewrite Hc in Hev; discriminate.
      * cbn in Hk, Hev.
        destruct (Hstop k ik Hk Hev) as [Hqk [(j & ij & Hj & Hnj & Hlj & Hbetween & Hd) | (Hquiet & Hw1 & Hd)]].
        -- split; [exact Hqk|]. left. exists (S j), ij.
           split; [lia|]. split; [exact Hnj|]. split; [exact Hlj|].
           split; [|exact Hd].
           intros m im Hm Hnm. destruct m as [|m]; [lia|].
           apply (Hbetween m im); [lia | exact Hnm].
        -- split; [exact Hqk|].
           destruct Hstep as [(Hl & Hlast & _ & _) | (Hq & Hlast & [(_ & _ & Hw1' & _) | (Hw1' & _)])].
           ++ left. exists 0%nat, i.
              split; [lia|]. split; [reflexivity|]. split; [exact Hl|].
              split; [|rewrite <- Hlast; exact Hd].
              intros m im Hm Hnm. destruct m as [|m]; [lia|].
              apply (Hquiet m im); [lia | exact Hnm].
           ++ rewrite Hw1' in Hw1. discriminate.
           ++ right. split; [|split].
              ** intros m im Hm Hnm. destruct m as [|m].
                 --- cbn in Hnm. injection Hnm as <-. exact Hq.
                 --- apply (Hquiet m im); [lia | exact Hnm].
              ** rewrite <- Hw1'. exact Hw1.
              ** rewrite <- Hlast. exact Hd.
Qed.

End Hysteresis.

Import Exact.

Lemma ngtb_true (a b : R) : ngtb a b = true <-> (a > b)%R.
Proof.
  cbn. destruct (Rlt_dec b a) as [H|H]; split; intro K;
    try reflexivity; try discriminate; try assumption.
  exfalso; apply H; exact K.
Qed.

Lemma ngtb_false (a b : R) : ngtb a b = false <-> (a <= b)%R.
Proof.
  cbn. destruct (Rlt_dec b a) as [H|H]; split; intro K;
    try reflexivity; try discriminate; try lra.
Qed.

Section HysteresisExact.

Variable Blob : Type.
Variable host : Host R Blob.

Local Open Scope R_scope.

(** C1.  From the Silent state, over any sequence of frames the callback
    processes (a session is there and no callback is paused), with the gain,
    threshold and hangover each callback finds in the refs: the cues emitted
    strictly alternate and the first is speech-start; and a speech-stop is
    emitted only at a callback whose rms is at most the threshold, later than
    some callback whose rms was above its threshold, with no such callback in
    between, and more than [vadDuration] after that one. *)
Theorem vad_cues_alternate_and_stop_waits :
  forall (inputs : list (CaptureInput R)) (w : World R Blob),
  wasUserTalkingRef (comp w) = false ->
  sessionRef (comp w) <> None ->
  Forall (fun i => isPausedRef (cap_tuning i) = false) inputs ->
  exists (evs : list (option FeedbackType)) (w' : World R Blob),
    captureRun host inputs w = (Returned evs, w')
    /\ List.length evs = List.length inputs
    /\ alternates start (cuesOf evs)
    /\ forall (k : nat) (i : CaptureInput R),
         nth_error inputs k = Some i ->
         nth_error evs k = Some (Some stop) ->
         rmsIn i <= vadThresholdRef (cap_tuning i)
         /\ exists (j : nat) (ij : CaptureInput R),
              (j < k)%nat /\ nth_error inputs j = Some ij
              /\ rmsIn ij > vadThresholdRef (cap_tuning ij)
              /\ (forall (m : nat) (im : CaptureInput R),
                    (j < m < k)%nat -> nth_error inputs m = Some im ->
                    rmsIn im <= vadThresholdRef (cap_tuning im))
              /\ cap_now i - cap_now ij > vadDurationRef (cap_tuning i).
Proof.
  intros inputs w Hw Hs Hp.
  destruct (@captureRun_general R _ Blob host inputs w Hs Hp)
    as (evs & w' & E & Hlen & Halt & Hstop).
  exists evs, w'. rewrite Hw in Halt.
  split; [exact E|]. split; [exact Hlen|]. split; [exact Halt|].
  intros k i Hk Hev.
  destruct (Hstop k i Hk Hev) as [Hq [(j & ij & Hj & Hnj & Hlj & Hb & Hd) | (_ & Hw' & _)]].
  - split; [apply ngtb_false; exact Hq|].
    exists j, ij. split; [exact Hj|]. split; [exact Hnj|].
    split; [apply ngtb_true; exact Hlj|]. split.
    + intros m im Hm Hnm. apply ngtb_false. exact (Hb m im Hm Hnm).
    + apply ngtb_true in Hd. exact Hd.
  - rewrite Hw in Hw'. discriminate.
Qed.

End HysteresisExact.

(** ** The playback scheduler, run *)

Section Scheduling.

Variable num : Type.
Context {NUM : JSNumber num}.
Variable Blob : Type.
Variable host : Host num Blob.

(** The sources started according to a log, oldest first. *)
Definition scheduledOf (l : list (Effect num Blob)) : list (Source num) :=
  flat_map (fun e => match e with SourceStart s => [s] | _ => [] end) l.

Lemma scheduledOf_app (l1 l2 : list (Effect num Blob)) :
  scheduledOf (l1 ++ l2) = scheduledOf l1 ++ scheduledOf l2.
Proof. unfold scheduledOf. apply flat_map_app. Qed.

(** The scheduler's part of a component: what the audio branch reads. *)
Definition sameScheduler (c1 c2 : Component num) : Prop :=
  tuning c1 = tuning c2
  /\ audioContextOutRef c1 = audioContextOutRef c2
  /\ outputGainNodeRef c1 = outputGainNodeRef c2.

(** The transcription and turn-complete branches leave the scheduler alone and
    start nothing. *)
Lemma transcript_branches_keep (msg : LiveServerMessage) (now1 now2 : num)
  (w : World num Blob) :
  let w' := afterTurnComplete msg now1 now2 (afterOutput msg (afterInput msg w)) in
  sameScheduler (comp w') (comp w)
  /\ nextStartTimeRef (comp w') = nextStartTimeRef (comp w)
  /\ sourcesRef (comp w') = sourcesRef (comp w)
  /\ isSpeaking (comp w') = isSpeaking (comp w)
  /\ exists extra, log w' = log w ++ extra
                   /\ scheduledOf extra = []
                   /\ forall n, ~ In (SourceStop n) extra.
Proof.
  destruct w as [c l n]; destruct c as [t se ai ao g nx ss tr wt ls en ac sp ut co er ch].
  destruct tr as [i o].
  unfold afterTurnComplete, afterOutput, afterInput, sameScheduler.
  assert (Hnil : forall l0 : list (Effect num Blob),
             exists extra, l0 = l0 ++ extra /\ scheduledOf extra = []
                           /\ forall k, ~ In (SourceStop k) extra).
  { intro l0. exists []. rewrite app_nil_r. repeat split. intros k []. }
  destruct (inputTranscription msg) as [ti|], (outputTranscription msg) as [to|],
    (turnComplete msg);
    cbn [comp log nextNode transcriptionRef input output set_transcriptionRef
         setEntries tuning audioContextOutRef outputGainNodeRef nextStartTimeRef
         sourcesRef isSpeaking];
    (split; [repeat split; reflexivity|]);
    repeat (split; [reflexivity|]);
    try apply Hnil;
    match goal with
    | |- context [truthy (trim ?x)] =>
        destruct (truthy (trim x));
        [ eexists; split; [reflexivity|]; split; [reflexivity|];
          intros k [H|[H|[]]]; discriminate
        | exists []; repeat split; intros k [] ]
    end.
Qed.

(** The audio branch on a message it lets through. *)
Lemma audio_branch_schedules (msg : LiveServerMessage) (currentTime : num)
  (a : jsstring) (w : World num Blob) :
  audible msg (comp w) = Some a ->
  let s := sourceFor host (comp w) a currentTime (nextNode w) in
  let w' := afterAudio host msg currentTime w in
  sameScheduler (comp w') (comp w)
  /\ nextStartTimeRef (comp w')
     = nadd (startTime s) (ndiv (duration (buffer s)) (playbackRate s))
  /\ sourcesRef (comp w') = sourcesRef (comp w) ++ [s]
  /\ log w' = log w ++ [SourceStart s].
Proof.
  intros Ha s w'. subst s w'. unfold afterAudio. rewrite Ha.
  destruct w as [c l n]; destruct c. unfold sameScheduler.
  repeat split; reflexivity.
Qed.

Lemma audio_branch_skips (msg : LiveServerMessage) (currentTime : num)
  (w : World num Blob) :
  audible msg (comp w) = None -> afterAudio host msg currentTime w = w.
Proof. intro Ha. unfold afterAudio. rewrite Ha. reflexivity. Qed.

(** The guard of the audio branch reads the scheduler's part only. *)
Lemma audible_same (msg : LiveServerMessage) (c1 c2 : Component num) :
  sameScheduler c1 c2 -> audible msg c1 = audible msg c2.
Proof.
  intros (Et & Eo & Eg). unfold audible. rewrite Et, Eo, Eg. reflexivity.
Qed.

End Scheduling.

(** ** Gap-free scheduling and interruption *)

Section GapFree.

Variable num : Type.
Context {NUM : JSNumber num}.
Variable Blob : Type.
Variable host : Host num Blob.

(** The message carries a payload the audio branch accepts. *)
Definition carriesAudio (i : Inbound num) : Prop :=
  exists a : jsstring, inlineData (in_msg i) = Some a /\ truthy a = true.

(** Duration of the buffer decoded from the payload of a message. *)
Definition durationOf (i : Inbound num) : num :=
  match inlineData (in_msg i) with
  | Some a => duration (decodeAudioData host a)
  | None => nzero
  end.

(** The output context, its gain node and the pause flag let audio through. *)
Definition playing (c : Component num) : Prop :=
  audioContextOutRef c <> None /\ outputGainNodeRef c <> None
  /\ isPausedRef (tuning c) = false.

(** Where [nextStartTime] stands after the buffers of [msgs], played one
    after the other at rate [r] from [start]: the additions of the handler,
    in its order. *)
Definition endAfter (r start : num) (msgs : list (Inbound num)) : num :=
  fold_left (fun acc i => nadd acc (ndiv (durationOf i) r)) msgs start.

(** Each message finds [Math.max(nextStartTime, currentTime)] to be
    [nextStartTime]; [next] is [nextStartTime] at the first of [msgs]. *)
Fixpoint keepsPace (r next : num) (msgs : list (Inbound num)) : Prop :=
  match msgs with
  | [] => True
  | i :: rest =>
      nmax next (in_currentTime i) = next
      /\ keepsPace r (nadd next (ndiv (durationOf i) r)) rest
  end.

Lemma playing_same (c1 c2 : Component num) :
  sameScheduler c1 c2 -> playing c2 -> playing c1.
Proof.
  intros (Et & Eo & Eg) (Ho & Hg & Hp). unfold playing.
  rewrite Et, Eo, Eg. repeat split; assumption.
Qed.

Lemma playing_audible (i : Inbound num) (c : Component num) :
  playing c -> carriesAudio i ->
  exists a, inlineData (in_msg i) = Some a /\ audible (in_msg i) c = Some a.
Proof.
  intros (Ho & Hg & Hp) (a & Ha & Ht). exists a. split; [exact Ha|].
  unfold audible. rewrite Ha, Ht, Hp.
  destruct (audioContextOutRef c); [|contradiction].
  destruct (outputGainNodeRef c); [|contradiction].
  reflexivity.
Qed.

(** One message with audio and without interruption, on a playing component:
    its buffer starts at [max(nextStartTime, currentTime)] at rate
    [speechRate * pitch], and [nextStartTime] moves to the end of the buffer. *)
Lemma one_buffer (i : Inbound num) (w : World num Blob) :
  playing (comp w) -> carriesAudio i -> interrupted (in_msg i) = false ->
  exists (s : Source num) (w' : World num Blob),
    onmessage host (in_msg i) (in_currentTime i) (in_now1 i) (in_now2 i) w
    = (Returned tt, w')
    /\ sameScheduler (comp w') (comp w)
    /\ scheduledOf (log w') = scheduledOf (log w) ++ [s]
    /\ startTime s = nmax (nextStartTimeRef (comp w)) (in_currentTime i)
    /\ playbackRate s
       = nmul (speechRateRef (tuning (comp w))) (outputPitchRef (tuning (comp w)))
    /\ duration (buffer s) = durationOf i
    /\ nextStartTimeRef (comp w')
       = nadd (startTime s) (ndiv (duration (buffer s)) (playbackRate s))
    /\ In s (sourcesRef (comp w')).
Proof.
  intros Hpl Hau Hni.
  destruct (playing_audible Hpl Hau) as (a & Ha & Haud).
  set (ct := in_currentTime i).
  exists (sourceFor host (comp w) a ct (nextNode w)).
  eexists. split; [apply onmessage_runs|].
  unfold afterInterrupted. rewrite Hni.
  destruct (audio_branch_schedules host (in_msg i) ct w Haud)
    as (Hsame & Hnext & Hsrc & Hlog).
  destruct (transcript_branches_keep (in_msg i) (in_now1 i) (in_now2 i)
              (afterAudio host (in_msg i) ct w))
    as (Hsame' & Hnext' & Hsrc' & _ & extra & Hlog' & Hextra & _).
  cbv zeta in Hsame', Hnext', Hsrc', Hlog'.
  split.
  { destruct Hsame as (A1 & A2 & A3). destruct Hsame' as (B1 & B2 & B3).
    unfold sameScheduler. rewrite B1, B2, B3, A1, A2, A3. repeat split. }
  split.
  { rewrite Hlog', Hlog, !scheduledOf_app, Hextra, app_nil_r. reflexivity. }
  split; [reflexivity|]. split; [reflexivity|].
  split; [unfold durationOf; rewrite Ha; reflexivity|].
  split; [rewrite Hnext', Hnext; reflexivity|].
  rewrite Hsrc', Hsrc. apply in_or_app. right. left. reflexivity.
Qed.

(** Gap-free scheduling in whatever arithmetic: as long as the clock has not
    passed [nextStartTime] when a message arrives, each buffer starts where
    the additions of the handler have put the end of the one before. *)
Lemma starts_accumulate (rest : list (Inbound num)) :
  forall (first : Inbound num) (w : World num Blob),
  let r := nmul (speechRateRef (tuning (comp w))) (outputPitchRef (tuning (comp w))) in
  let start1 := nmax (nextStartTimeRef (comp w)) (in_currentTime first) in
  playing (comp w) ->
  Forall (fun i => carriesAudio i /\ interrupted (in_msg i) = false) (first :: rest) ->
  keepsPace r (nadd start1 (ndiv (durationOf first) r)) rest ->
  exists (srcs : list (Source num)) (w' : World num Blob),
    inboundRun host (first :: rest) w = (Returned tt, w')
    /\ scheduledOf (log w') = scheduledOf (log w) ++ srcs
    /\ List.length srcs = List.length (first :: rest)
    /\ (forall (k : nat) (i : Inbound num) (s : Source num),
          nth_error (first :: rest) k = Some i ->
          nth_error srcs k = Some s ->
          playbackRate s = r
          /\ duration (buffer s) = durationOf i
          /\ startTime s = endAfter r start1 (firstn k (first :: rest)))
    /\ nextStartTimeRef (comp w') = endAfter r start1 (first :: rest)
    /\ sameScheduler (comp w') (comp w).
Proof.
  induction rest as [|second rest IH]; intros first w r start1 Hpl Hall Hbb.
  - inversion Hall as [|x l [Hau Hni] _]; subst x l.
    destruct (one_buffer w Hpl Hau Hni)
      as (s & w' & E & Hsame & Hlog & Hst & Hrate & Hdur & Hnext & _).
    exists [s], w'. cbn [inboundRun]. unfold bind, ret. rewrite E.
    split; [reflexivity|]. split; [exact Hlog|]. split; [reflexivity|].
    split; [|split; [|exact Hsame]].
    + intros k i s' Hk Hs. destruct k as [|k].
      * cbn in Hk, Hs. injection Hk as <-. injection Hs as <-.
        split; [exact Hrate|]. split; [exact Hdur|]. exact Hst.
      * cbn in Hk. destruct k; discriminate.
    + rewrite Hnext, Hst, Hrate, Hdur. reflexivity.
  - inversion Hall as [|x l [Hau Hni] Hrest]; subst x l.
    destruct (one_buffer w Hpl Hau Hni)
      as (s & w1 & E & Hsame & Hlog & Hst & Hrate & Hdur & Hnext & _).
    destruct Hbb as [Hct Hbb].
    assert (Hn1 : nextStartTimeRef (comp w1)
                  = nadd start1 (ndiv (durationOf first) r)).
    { rewrite Hnext, Hst, Hrate, Hdur. reflexivity. }
    assert (Hr1 : nmul (speechRateRef (tuning (comp w1)))
                    (outputPitchRef (tuning (comp w1))) = r).
    { destruct Hsame as (Et & _). rewrite Et. reflexivity. }
    assert (Hs1 : nmax (nextStartTimeRef (comp w1)) (in_currentTime second)
                  = nadd start1 (ndiv (durationOf first) r)).
    { rewrite Hn1. exact Hct. }
    destruct (IH second w1) as (srcs & w' & E' & Hlog' & Hlen & Hk & Hnext' & Hsame').
    + apply (playing_same Hsame Hpl).
    + exact Hrest.
    + rewrite Hr1, Hs1. exact Hbb.
    + rewrite Hr1, Hs1 in Hk, Hnext'.
      exists (s :: srcs), w'.
      split.
      { change (inboundRun host (first :: second :: rest))
          with (bind (onmessage host (in_msg first) (in_currentTime first)
                        (in_now1 first) (in_now2 first))
                  (fun _ => inboundRun host (second :: rest))).
        unfold bind at 1. rewrite E. exact E'. }
      split.
      { rewrite Hlog', Hlog, <- app_assoc. reflexivity. }
      split; [cbn [List.length] in Hlen |- *; rewrite Hlen; reflexivity|].
      split; [|split].
      * intros k i s' Hnk Hns. destruct k as [|k].
        -- cbn in Hnk, Hns. injection Hnk as <-. injection Hns as <-.
           split; [exact Hrate|]. split; [exact Hdur|]. exact Hst.
        -- cbn [nth_error] in Hnk, Hns.
           destruct (Hk k i s' Hnk Hns) as (Kr & Kd & Ks).
           split; [exact Kr|]. split; [exact Kd|].
           rewrite Ks. reflexivity.
      * rewrite Hnext'. reflexivity.
      * destruct Hsame as (A1 & A2 & A3). destruct Hsame' as (B1 & B2 & B3).
        unfold sameScheduler. rewrite B1, B2, B3, A1, A2, A3. repeat split.
Qed.

End GapFree.

(** ** Interruption *)

Section Interruption.

Variable num : Type.
Context {NUM : JSNumber num}.
Variable Blob : Type.
Variable host : Host num Blob.

Lemma afterAudio_keeps_sources (msg : LiveServerMessage) (ct : num)
  (w : World num Blob) (s : Source num) :
  In s (sourcesRef (comp w)) ->
  In s (sourcesRef (comp (afterAudio host msg ct w))).
Proof.
  intro H. destruct (audible msg (comp w)) as [a|] eqn:Ha.
  - destruct (audio_branch_schedules host msg ct w Ha) as (_ & _ & Hsrc & _).
    rewrite Hsrc. apply in_or_app. left. exact H.
  - rewrite (audio_branch_skips host msg ct w Ha). exact H.
Qed.

(** After a message with the interrupted flag, in whatever arithmetic: every
    source of the active set (those that were there, and the one the same
    message may have scheduled) has been stopped, the set is empty, the
    speaking indicator is cleared and [nextStartTime] is 0; the buffer of the
    next message is then started at [Math.max(0, currentTime)]. *)
Lemma interruption_flushes :
  forall (msg : LiveServerMessage) (currentTime now1 now2 : num) (w : World num Blob),
  interrupted msg = true ->
  exists w' : World num Blob,
    onmessage host msg currentTime now1 now2 w = (Returned tt, w')
    /\ sourcesRef (comp w') = []
    /\ isSpeaking (comp w') = false
    /\ nextStartTimeRef (comp w') = nzero
    /\ (forall s : Source num,
          In s (sourcesRef (comp w))
          \/ In s (sourcesRef (comp (afterAudio host msg currentTime w))) ->
          In (SourceStop (node s)) (log w'))
    /\ (forall next : Inbound num,
          playing (comp w') -> carriesAudio next ->
          interrupted (in_msg next) = false ->
          exists (s : Source num) (w'' : World num Blob),
            onmessage host (in_msg next) (in_currentTime next)
              (in_now1 next) (in_now2 next) w' = (Returned tt, w'')
            /\ scheduledOf (log w'') = scheduledOf (log w') ++ [s]
            /\ startTime s = nmax nzero (in_currentTime next)).
Proof.
  intros msg ct n1 n2 w Hi.
  eexists. split; [apply onmessage_runs|].
  set (w1 := afterAudio host msg ct w).
  assert (E2 : afterInterrupted msg w1
               = {| comp := setIsSpeaking false
                              (set_nextStartTimeRef nzero (set_sourcesRef [] (comp w1)));
                    log := log w1 ++ map (fun s => SourceStop (node s))
                                       (sourcesRef (comp w1));
                    nextNode := nextNode w1 |}).
  { unfold afterInterrupted. rewrite Hi. reflexivity. }
  destruct (transcript_branches_keep msg n1 n2 (afterInterrupted msg w1))
    as (_ & Hnext & Hsrc & Hsp & extra & Hlog & _).
  cbv zeta in Hnext, Hsrc, Hsp, Hlog.
  set (w' := afterTurnComplete msg n1 n2
               (afterOutput msg (afterInput msg (afterInterrupted msg w1)))) in *.
  rewrite E2 in Hnext, Hsrc, Hsp, Hlog.
  assert (F : sourcesRef (comp w') = [] /\ isSpeaking (comp w') = false
              /\ nextStartTimeRef (comp w') = nzero).
  { rewrite Hnext, Hsrc, Hsp. destruct w1 as [c1 l1 k1]; destruct c1.
    repeat split; reflexivity. }
  destruct F as (F1 & F2 & F3).
  split; [exact F1|]. split; [exact F2|]. split; [exact F3|]. split.
  - intros s Hs.
    assert (Hs1 : In s (sourcesRef (comp w1))).
    { destruct Hs as [Hs|Hs]; [apply afterAudio_keeps_sources|]; exact Hs. }
    rewrite Hlog. cbn [log]. apply in_or_app. left. apply in_or_app. right.
    apply in_map_iff. exists s. split; [reflexivity | exact Hs1].
  - intros next Hpl Hau Hni.
    destruct (@one_buffer num _ Blob host next w' Hpl Hau Hni)
      as (s & w'' & E & _ & Hl & Hst & _).
    exists s, w''. split; [exact E|]. split; [exact Hl|].
    rewrite Hst, F3. reflexivity.
Qed.

End Interruption.

Section PlaybackTiming.

Variable Blob : Type.
Variable host : Host R Blob.

Local Open Scope R_scope.

(** Buffers arrive back to back at rate [r] when each arrives no later, on
    the output clock, than the end of the buffer scheduled before it;
    [next] is that end for the first message of the list. *)
Fixpoint backToBack (r next : R) (msgs : list (Inbound R)) : Prop :=
  match msgs with
  | [] => True
  | i :: rest =>
      in_currentTime i <= next
      /\ backToBack r (next + durationOf host i / r) rest
  end.

Definition sumR (l : list R) : R := fold_right Rplus 0 l.

Lemma backToBack_keepsPace (r : R) (msgs : list (Inbound R)) :
  forall next : R, backToBack r next msgs -> keepsPace host r next msgs.
Proof.
  induction msgs as [|i rest IH]; intros next H; [exact I|].
  destruct H as [Hle H]. split.
  - apply Rmax_left. exact Hle.
  - apply IH. exact H.
Qed.

Lemma endAfter_sum (r : R) (msgs : list (Inbound R)) :
  forall start : R,
  endAfter host r start msgs
  = start + sumR (map (fun j => durationOf host j / r) msgs).
Proof.
  induction msgs as [|i rest IH]; intro start0.
  - cbn. lra.
  - unfold endAfter in *. cbn [fold_left map sumR fold_right].
    rewrite IH. unfold sumR. cbn. lra.
Qed.

(** Where no addition rounds, the running sum of the handler is the start
    of the first buffer plus the sum of [duration / rate] over the messages
    before. *)
Lemma starts_in_closed_form :
  forall (rest : list (Inbound R)) (first : Inbound R) (w : World R Blob),
  let r := speechRateRef (tuning (comp w)) * outputPitchRef (tuning (comp w)) in
  let start1 := Rmax (nextStartTimeRef (comp w)) (in_currentTime first) in
  playing (comp w) ->
  Forall (fun i => carriesAudio i /\ interrupted (in_msg i) = false) (first :: rest) ->
  backToBack r (start1 + durationOf host first / r) rest ->
  exists (srcs : list (Source R)) (w' : World R Blob),
    inboundRun host (first :: rest) w = (Returned tt, w')
    /\ scheduledOf (log w') = scheduledOf (log w) ++ srcs
    /\ List.length srcs = List.length (first :: rest)
    /\ (forall (k : nat) (i : Inbound R) (s : Source R),
          nth_error (first :: rest) k = Some i ->
          nth_error srcs k = Some s ->
          playbackRate s = r
          /\ duration (buffer s) = durationOf host i
          /\ startTime s
             = start1 + sumR (map (fun j => durationOf host j / r)
                                (firstn k (first :: rest))))
    /\ nextStartTimeRef (comp w')
       = start1 + sumR (map (fun j => durationOf host j / r) (first :: rest)).
Proof.
  intros rest first w r start1 Hpl Hall Hbb.
  destruct (@starts_accumulate R _ Blob host rest first w Hpl Hall
              (backToBack_keepsPace _ _ _ Hbb))
    as (srcs & w' & E & Hlog & Hlen & Hk & Hnext & _).
  exists srcs, w'.
  split; [exact E|]. split; [exact Hlog|]. split; [exact Hlen|]. split.
  - intros k i s Hnk Hns. destruct (Hk k i s Hnk Hns) as (Kr & Kd & Ks).
    split; [exact Kr|]. split; [exact Kd|].
    rewrite Ks. apply endAfter_sum.
  - rewrite Hnext. apply endAfter_sum.
Qed.

(** Where the clock is a real number, and not negative, the later of 0 and
    the clock is the clock. *)
Lemma interruption_rewinds_to_the_clock :
  forall (msg : LiveServerMessage) (currentTime now1 now2 : R) (w : World R Blob),
  interrupted msg = true ->
  exists w' : World R Blob,
    onmessage host msg currentTime now1 now2 w = (Returned tt, w')
    /\ sourcesRef (comp w') = []
    /\ isSpeaking (comp w') = false
    /\ nextStartTimeRef (comp w') = 0
    /\ (forall s : Source R,
          In s (sourcesRef (comp w))
          \/ In s (sourcesRef (comp (afterAudio host msg currentTime w))) ->
          In (SourceStop (node s)) (log w'))
    /\ (forall next : Inbound R,
          playing (comp w') -> carriesAudio next ->
          interrupted (in_msg next) = false ->
          0 <= in_currentTime next ->
          exists (s : Source R) (w'' : World R Blob),
            onmessage host (in_msg next) (in_currentTime next)
              (in_now1 next) (in_now2 next) w' = (Returned tt, w'')
            /\ scheduledOf (log w'') = scheduledOf (log w') ++ [s]
            /\ startTime s = in_currentTime next).
Proof.
  intros msg ct n1 n2 w Hi.
  destruct (@interruption_flushes R _ Blob host msg ct n1 n2 w Hi)
    as (w' & E & F1 & F2 & F3 & Hstop & Hnext).
  exists w'. repeat (split; [assumption|]).
  intros next Hpl Hau Hni Hct.
  destruct (Hnext next Hpl Hau Hni) as (s & w'' & E' & Hl & Hst).
  exists s, w''. split; [exact E'|]. split; [exact Hl|].
  rewrite Hst. apply Rmax_right. exact Hct.
Qed.

End PlaybackTiming.

(** C3, as the code has it.  After a message with the interrupted flag: every
    source of the active set (those that were there, and the one the same
    message may have scheduled) has been stopped, the set is empty, the
    speaking indicator is cleared and [nextStartTime] is 0, not the clock.
    The buffer of the next message is then started at [Math.max(0,
    currentTime)], the clock read when that message is handled: the first
    part, for any arithmetic, binary64 included.  With the clock a real number
    that is not negative, that start is the clock's reading: the second
    part. *)
Theorem interruption_flushes_and_rewinds :
  (forall (num : Type) (NUM : JSNumber num) (Blob : Type) (host : Host num Blob)
          (msg : LiveServerMessage) (currentTime now1 now2 : num) (w : World num Blob),
   interrupted msg = true ->
   exists w' : World num Blob,
     onmessage host msg currentTime now1 now2 w = (Returned tt, w')
     /\ sourcesRef (comp w') = []
     /\ isSpeaking (comp w') = false
     /\ nextStartTimeRef (comp w') = nzero
     /\ (forall s : Source num,
           In s (sourcesRef (comp w))
           \/ In s (sourcesRef (comp (afterAudio host msg currentTime w))) ->
           In (SourceStop (node s)) (log w'))
     /\ (forall next : Inbound num,
           playing (comp w') -> carriesAudio next ->
           interrupted (in_msg next) = false ->
           exists (s : Source num) (w'' : World num Blob),
             onmessage host (in_msg next) (in_currentTime next)
               (in_now1 next) (in_now2 next) w' = (Returned tt, w'')
             /\ scheduledOf (log w'') = scheduledOf (log w') ++ [s]
             /\ startTime s = nmax nzero (in_currentTime next)))
  /\ (forall (Blob : Type) (host : Host R Blob)
             (msg : LiveServerMessage) (currentTime now1 now2 : R) (w : World R Blob),
      interrupted msg = true ->
      exists w' : World R Blob,
        onmessage host msg currentTime now1 now2 w = (Returned tt, w')
        /\ sourcesRef (comp w') = []
        /\ isSpeaking (comp w') = false
        /\ nextStartTimeRef (comp w') = 0%R
        /\ (forall s : Source R,
              In s (sourcesRef (comp w))
              \/ In s (sourcesRef (comp (afterAudio host msg currentTime w))) ->
              In (SourceStop (node s)) (log w'))
        /\ (forall next : Inbound R,
              playing (comp w') -> carriesAudio next ->
              interrupted (in_msg next) = false ->
              (0 <= in_currentTime next)%R ->
              exists (s : Source R) (w'' : World R Blob),
                onmessage host (in_msg next) (in_currentTime next)
                  (in_now1 next) (in_now2 next) w' = (Returned tt, w'')
                /\ scheduledOf (log w'') = scheduledOf (log w') ++ [s]
                /\ startTime s = in_currentTime next)).
Proof.
  split.
  - intros num NUM Blob host. apply interruption_flushes.
  - intros Blob host. apply interruption_rewinds_to_the_clock.
Qed.

(** C2, as the code has it.  On a playing component, every buffer of a
    message without interruption is started at [max(nextStartTime,
    currentTime)] with playback rate [speechRate * pitch], and
    [nextStartTime] then is that start plus [duration / rate]: this is the
    statement below for the first message, which is any message.  When
    further messages follow back to back (each finds
    [Math.max(nextStartTime, currentTime)] to be [nextStartTime]), the buffer
    of the message at position [k] starts at the running sum of the handler,
    [((start1 + d1/r) + d2/r) + ...] over the messages before it, added in
    this order in the arithmetic of the program: the first part, for any
    arithmetic, binary64 included.  Where the additions are exact, that is
    with the numbers taken as reals, back to back means that each message
    arrives no later than the end of the buffer before it, and the running
    sum is [start1] plus the sum of [d/r] over the messages before: the second
    part. *)
Theorem buffers_are_scheduled_gap_free :
  (forall (num : Type) (NUM : JSNumber num) (Blob : Type) (host : Host num Blob)
          (rest : list (Inbound num)) (first : Inbound num) (w : World num Blob),
   let r := nmul (speechRateRef (tuning (comp w))) (outputPitchRef (tuning (comp w))) in
   let start1 := nmax (nextStartTimeRef (comp w)) (in_currentTime first) in
   playing (comp w) ->
   Forall (fun i => carriesAudio i /\ interrupted (in_msg i) = false) (first :: rest) ->
   keepsPace host r (nadd start1 (ndiv (durationOf host first) r)) rest ->
   exists (srcs : list (Source num)) (w' : World num Blob),
     inboundRun host (first :: rest) w = (Returned tt, w')
     /\ scheduledOf (log w') = scheduledOf (log w) ++ srcs
     /\ List.length srcs = List.length (first :: rest)
     /\ (forall (k : nat) (i : Inbound num) (s : Source num),
           nth_error (first :: rest) k = Some i ->
           nth_error srcs k = Some s ->
           playbackRate s = r
           /\ duration (buffer s) = durationOf host i
           /\ startTime s
              = fold_left (fun acc j => nadd acc (ndiv (durationOf host j) r))
                  (firstn k (first :: rest)) start1)
     /\ nextStartTimeRef (comp w')
        = fold_left (fun acc j => nadd acc (ndiv (durationOf host j) r))
            (first :: rest) start1)
  /\ (forall (Blob : Type) (host : Host R Blob)
             (rest : list (Inbound R)) (first : Inbound R) (w : World R Blob),
      let r := (speechRateRef (tuning (comp w)) * outputPitchRef (tuning (comp w)))%R in
      let start1 := Rmax (nextStartTimeRef (comp w)) (in_currentTime first) in
      playing (comp w) ->
      Forall (fun i => carriesAudio i /\ interrupted (in_msg i) = false) (first :: rest) ->
      backToBack host r (start1 + durationOf host first / r)%R rest ->
      exists (srcs : list (Source R)) (w' : World R Blob),
        inboundRun host (first :: rest) w = (Returned tt, w')
        /\ scheduledOf (log w') = scheduledOf (log w) ++ srcs
        /\ List.length srcs = List.length (first :: rest)
        /\ (forall (k : nat) (i : Inbound R) (s : Source R),
              nth_error (first :: rest) k = Some i ->
              nth_error srcs k = Some s ->
              playbackRate s = r
              /\ duration (buffer s) = durationOf host i
              /\ startTime s
                 = (start1 + sumR (map (fun j => durationOf host j / r)
                                     (firstn k (first :: rest))))%R)
        /\ nextStartTimeRef (comp w')
           = (start1 + sumR (map (fun j => durationOf host j / r) (first :: rest)))%R).
Proof.
  split.
  - intros num NUM Blob host rest first w r start1 Hpl Hall Hkp.
    destruct (@starts_accumulate num NUM Blob host rest first w Hpl Hall Hkp)
      as (srcs & w' & E & Hlog & Hlen & Hk & Hnext & _).
    exists srcs, w'. repeat (split; [assumption|]). exact Hnext.
  - intros Blob host rest first w. apply starts_in_closed_form.
Qed.

(** ** Gain and the measured rms *)

Section GainLinearity.

Variable Blob : Type.
Variable host : Host R Blob.

Local Open Scope R_scope.

Lemma sumSquares_scaled (g : R) (data : list R) (sum : R) :
  sumSquares (g * g * sum) (map (fun x => x * g) data)
  = g * g * sumSquares sum data.
Proof.
  revert sum; induction data as [|x rest IH]; intro sum; [reflexivity|].
  cbn [map sumSquares fold_left] in *.
  replace (nadd (g * g * sum) (nmul (x * g) (x * g)))
    with (g * g * (nadd sum (nmul x x))) by (cbn; ring).
  apply IH.
Qed.

(** In real arithmetic the rms of a frame scaled by [g >= 0] is [g] times
    the rms of the frame. *)
Lemma rootMeanSquare_scaled (g : R) (data : list R) :
  0 <= g ->
  rootMeanSquare (map (fun x => x * g) data) = g * rootMeanSquare data.
Proof.
  intro Hg. unfold rootMeanSquare. rewrite length_map.
  replace (sumSquares nzero (map (fun x => x * g) data))
    with (g * g * sumSquares nzero data).
  - cbn [nsqrt ndiv nlength Exact.number].
    replace (g * g * sumSquares nzero data / INR (List.length data))
      with ((g * g) * (sumSquares nzero data / INR (List.length data)))
      by (unfold Rdiv; ring).
    rewrite sqrt_mult_alt by nra.
    rewrite sqrt_square by exact Hg. reflexivity.
  - rewrite <- sumSquares_scaled. f_equal. cbn. ring.
Qed.

End GainLinearity.

(** C7, as the code has it.  A callback that is neither paused nor without
    a session, with gain [g] in its ref, replaces every sample of the frame by
    the product of the sample and [g] as the [Float32Array] keeps it; the rms
    its VAD step judges is the rms of that stored frame, and the packet it
    sends encodes that stored frame: the first part, for any arithmetic,
    binary64 with its binary32 store included.  With samples and gain real
    numbers and [g > 0], where nothing rounds, the stored frame is the frame
    times [g] and the rms measured is [g] times the rms of the frame as it
    came in: the second part. *)
Theorem gain_scales_frame_and_rms :
  (forall (num : Type) (NUM : JSNumber num) (Blob : Type) (host : Host num Blob)
          (inputData : list num) (now : num) (w : World num Blob),
   let g := inputGainRef (tuning (comp w)) in
   let inputData' := map (fun x => nfround (nmul x g)) inputData in
   isPausedRef (tuning (comp w)) = false ->
   sessionRef (comp w) <> None ->
   exists w' : World num Blob,
     onaudioprocess host inputData now w
     = (Returned (inputData', vadCue (comp w) (rootMeanSquare inputData') now), w')
     /\ w' = emit (SendRealtimeInput (createPcmBlob host inputData'))
               (afterVad (rootMeanSquare inputData') now w)
     /\ rmsOf g inputData = rootMeanSquare inputData')
  /\ (forall (g : R) (inputData : list R),
      (g > 0)%R ->
      map (fun x => nfround (nmul x g)) inputData = map (fun x => (x * g)%R) inputData
      /\ rmsOf g inputData = (g * rootMeanSquare inputData)%R).
Proof.
  split.
  - intros num NUM Blob host inputData now w g inputData' Hp Hs.
    assert (E : rmsOf g inputData = rootMeanSquare inputData')
      by apply rmsOf_scaled.
    eexists. split; [|split; [reflexivity | exact E]].
    rewrite (onaudioprocess_runs host inputData now w Hp Hs). cbv zeta.
    fold g. rewrite E, gainLoop_spec. reflexivity.
  - intros g inputData Hg. split; [reflexivity|].
    rewrite rmsOf_scaled. apply rootMeanSquare_scaled. lra.
Qed.

(** ** What the handlers of a session close over *)

Section Closures.

Variable num : Type.
Context {NUM : JSNumber num}.
Variable Blob : Type.
Variable host : Host num Blob.

(** [generateChallenge] up to its request: from its first statement on, and
    while the request is under way, the challenge is active, with a
    placeholder for its instruction. *)
Definition generateChallengeRequest : Eff num Blob unit :=
  update (setActiveChallenge
            (Some {| type := repeat;
                     instruction := str "Generating challenge...";
                     target := None;
                     status := active |})).

(** The calls of [checkGrammar] in a log, and the grammar requests in it. *)
Definition grammarCalls (l : list (Effect num Blob)) : list (jsstring * num) :=
  flat_map (fun e => match e with CheckGrammar t ts => [(t, ts)] | _ => [] end) l.

Definition grammarRequests (l : list (Effect num Blob)) : list jsstring :=
  flat_map (fun e => match e with GenerateContent t => [t] | _ => [] end) l.

(** The [onmessage] of a session together with the [checkGrammar] it calls.
    The functions of a render close over the state of that render.
    [startSession] is memoized on a dependency list that has neither
    [activeChallenge] nor [checkGrammar] in it, so the [checkGrammar] that the
    [onmessage] of a session calls is the one of the render that made this
    [startSession], and the [activeChallenge] its guard reads is the state
    that render saw, [render], not the state at the time of the call.  The
    calls the handler has logged are run with it. *)
Definition sessionOnmessage (render : Component num) (msg : LiveServerMessage)
  (currentTime now1 now2 : num) : Eff num Blob unit :=
  fun w =>
    match onmessage host msg currentTime now1 now2 w with
    | (Returned _, w') =>
        forEach (grammarCalls (skipn (List.length (log w)) (log w')))
          (fun call => checkGrammar host (activeChallenge render) (fst call) (snd call))
          w'
    | (Thrown err, w') => (Thrown err, w')
    end.

End Closures.

(** * Concrete runs *)

(** ** In binary64 arithmetic, as the engine computes *)

Import Float64.

(** A host whose calls all return: packets are the frames themselves, every
    payload decodes to a buffer of 1.5 s, and the grammar service corrects
    every text to "I am". *)
Definition hostF : Host float (list float) :=
  {| throws := fun _ => None;
     createPcmBlob := fun frame => frame;
     decodeAudioData := fun _ => {| duration := 1.5%float |};
     grammarService := fun _ =>
       {| reply_status := Some (str "CORRECTION");
          correctedText := Some (str "I am") |};
     onLine := true |}.

(** The sliders at their initial values: rate, gain, volume and pitch 1.0,
    threshold 0.008 and hangover 800 ms. *)
Definition tuningF : Tuning float :=
  {| isPausedRef := false;
     speechRateRef := 1%float;
     inputGainRef := 1%float;
     outputVolumeRef := 1%float;
     outputPitchRef := 1%float;
     vadThresholdRef := 0x1.0624dd2f1a9fcp-7%float;
     vadDurationRef := 800%float |}.

(** The component as mounted, with an empty history. *)
Definition mountedF : World float (list float) :=
  {| comp := initial tuningF []; log := []; nextNode := 0 |}.

(** The world a handler leaves. *)
Definition after {num Blob A : Type} (m : Eff num Blob A) (w : World num Blob)
  : World num Blob := snd (m w).

(** A session started and opened. *)
Definition openedF : World float (list float) :=
  after (@onopen float (list float)) (after (startSession hostF) mountedF).

(** A frame of 4096 samples, all 0.5, heard at [Date.now() = 1000]. *)
Definition loudFrame : list float := List.repeat 0.5%float 4096.

Definition talkingF : World float (list float) :=
  after (onaudioprocess hostF loudFrame 1000%float) openedF.

(** A message with audio and the input delta " hel", handled at output clock
    0.5; it does not complete the turn. *)
Definition audioAndDelta : LiveServerMessage :=
  {| inlineData := Some (str "UklGRg==");
     interrupted := false;
     inputTranscription := Some (Some (str " hel"));
     outputTranscription := None;
     turnComplete := false |}.

Definition playingF : World float (list float) :=
  after (onmessage hostF audioAndDelta 0.5%float 0%float 0%float) talkingF.

Definition interruptedOnly : LiveServerMessage :=
  {| inlineData := None;
     interrupted := true;
     inputTranscription := None;
     outputTranscription := None;
     turnComplete := false |}.

Lemma float_neq (a b : float) : Prim2SF a <> Prim2SF b -> a <> b.
Proof. intros H E. apply H. rewrite E. reflexivity. Qed.

(** C3, as the spec has it, fails: an interruption handled at output clock 5
    leaves [nextStartTime] at 0, not at 5. *)
Lemma interruption_leaves_zero_not_the_clock :
  exists w' : World float (list float),
    onmessage hostF interruptedOnly 5%float 0%float 0%float playingF
    = (Returned tt, w')
    /\ nextStartTimeRef (comp playingF) = 2%float
    /\ nextStartTimeRef (comp w') = 0%float
    /\ nextStartTimeRef (comp w') <> 5%float.
Proof.
  eexists. split; [vm_compute; reflexivity|].
  split; [vm_compute; reflexivity|].
  split; [vm_compute; reflexivity|].
  apply float_neq. vm_compute. discriminate.
Qed.

(** C6: teardown of the playing session keeps [nextStartTime] at 2 and the
    input accumulator at " hel", neither of which is the initial value; the
    next session, on a fresh output clock, starts its first buffer at 2 and
    not at the clock's 0.25, and its first turn starts from " hel". *)
Lemma cleanup_keeps_schedule_and_transcript :
  let tornDown := after (cleanup hostF) playingF in
  let restarted := after (@onopen float (list float))
                     (after (startSession hostF) tornDown) in
  let resumed := after (onmessage hostF audioAndDelta 0.25%float 0%float 0%float)
                   restarted in
  sourcesRef (comp tornDown) = []
  /\ sessionRef (comp tornDown) = None
  /\ nextStartTimeRef (comp tornDown) = 2%float
  /\ nextStartTimeRef (initial tuningF []) = 0%float
  /\ transcriptionRef (comp tornDown) = {| input := str " hel"; output := [] |}
  /\ map (@startTime float) (sourcesRef (comp resumed)) = [2%float]
  /\ input (transcriptionRef (comp resumed)) = str " hel hel".
Proof. vm_compute. repeat split; reflexivity. Qed.

(** A silent frame, heard at [Date.now() = 9000] by the next session. *)
Definition silentFrame : list float := List.repeat 0%float 4096.

(** C9: a session started while the user was talking inherits the VAD state:
    [wasUserTalkingRef] is still true and [lastSilenceTimeRef] still 1000,
    although the indicator was cleared; and the first cue of the new session,
    on a silent frame, is a speech-stop. *)
Lemma startSession_keeps_vad_state :
  let restarted := after (@onopen float (list float))
                     (after (startSession hostF) talkingF) in
  wasUserTalkingRef (comp talkingF) = true
  /\ isConnecting (comp talkingF) = false
  /\ wasUserTalkingRef (comp restarted) = true
  /\ lastSilenceTimeRef (comp restarted) = 1000%float
  /\ isUserTalkingLocal (comp restarted) = false
  /\ wasUserTalkingRef (initial tuningF []) = false
  /\ fst (onaudioprocess hostF silentFrame 9000%float restarted)
     = Returned (silentFrame, Some stop).
Proof. vm_compute. repeat split; reflexivity. Qed.

(** One sample at full scale in a silent frame, and the gain slider at 0.1. *)
Definition clickFrame : list float := 1%float :: List.repeat 0%float 4095.

Definition tenth : float := 0x1.999999999999ap-4%float.

(** C7, as the spec has it, fails in the arithmetic of the code: with gain
    0.1 the sample 1 is stored as the binary32 value nearest to 0.1, so the
    rms measured, [fround(0.1) / 64], is above 0.1 times the rms [1 / 64] of
    the frame as it came in. *)
Lemma gain_is_not_exactly_linear :
  rootMeanSquare clickFrame = 0.015625%float
  /\ rmsOf tenth clickFrame = PrimFloat.div (fround tenth) 64%float
  /\ PrimFloat.ltb (nmul tenth (rootMeanSquare clickFrame)) (rmsOf tenth clickFrame)
     = true
  /\ rmsOf tenth clickFrame <> nmul tenth (rootMeanSquare clickFrame).
Proof.
  split; [vm_compute; reflexivity|].
  split; [vm_compute; reflexivity|].
  split; [vm_compute; reflexivity|].
  apply float_neq. vm_compute. discriminate.
Qed.

(** The frames of ten callbacks 256 ms apart, with the sliders at their
    initial values: four at amplitude 0.002, two at 0.02, four at 0.001. *)
Definition heard (amplitude now : float) : CaptureInput float :=
  {| cap_tuning := tuningF;
     cap_frame := List.repeat amplitude 4096;
     cap_now := now |}.

Definition utterance : list (CaptureInput float) :=
  [ heard 0x1.0624dd2f1a9fcp-9 0; heard 0x1.0624dd2f1a9fcp-9 256;
    heard 0x1.0624dd2f1a9fcp-9 512; heard 0x1.0624dd2f1a9fcp-9 768;
    heard 0x1.47ae147ae147bp-6 1024; heard 0x1.47ae147ae147bp-6 1280;
    heard 0x1.0624dd2f1a9fcp-10 1536; heard 0x1.0624dd2f1a9fcp-10 1792;
    heard 0x1.0624dd2f1a9fcp-10 2048; heard 0x1.0624dd2f1a9fcp-10 2304 ]%float.

(** One speech-start at the first loud frame, one speech-stop at the first
    frame more than 800 ms after the last loud one. *)
Example utterance_cues :
  fst (captureRun hostF utterance openedF)
  = Returned [None; None; None; None; Some start; None;
              None; None; None; Some stop].
Proof. vm_compute. reflexivity. Qed.

(** Three buffers of 1.5 s arriving at output clock 0.5, 0.75 and 1: each
    starts where the one before ends. *)
Definition arrivalF (currentTime : float) : Inbound float :=
  {| in_msg := audioAndDelta; in_currentTime := currentTime;
     in_now1 := 0%float; in_now2 := 0%float |}.

Example three_buffers_back_to_back :
  map (@startTime float)
    (scheduledOf (log (after (inboundRun hostF
                                [arrivalF 0.5; arrivalF 0.75; arrivalF 1]%float)
                         openedF)))
  = [0.5; 2; 3.5]%float.
Proof. vm_compute. reflexivity. Qed.

(** A decoder whose buffers last 0.2 s, 0.3 s and 0.4 s, told apart by the
    length of the payload. *)
Definition hostD : Host float (list float) :=
  {| throws := fun _ => None;
     createPcmBlob := fun frame => frame;
     decodeAudioData := fun a =>
       {| duration := match List.length a with
                      | 4%nat => 0x1.999999999999ap-3%float
                      | 8%nat => 0x1.3333333333333p-2%float
                      | _ => 0x1.999999999999ap-2%float
                      end |};
     grammarService := grammarService hostF;
     onLine := true |}.

Definition audioD (payload : string) (currentTime : float) : Inbound float :=
  {| in_msg := {| inlineData := Some (str payload);
                  interrupted := false;
                  inputTranscription := None;
                  outputTranscription := None;
                  turnComplete := false |};
     in_currentTime := currentTime; in_now1 := 0%float; in_now2 := 0%float |}.

(** Three buffers of 0.2 s, 0.3 s and 0.4 s, handled at output clock 0.1,
    0.2 and 0.3, at rate 1: back to back. *)
Definition burst : list (Inbound float) :=
  [ audioD "AAAA" 0x1.999999999999ap-4;
    audioD "AAAAAAAA" 0x1.999999999999ap-3;
    audioD "AAAAAAAAAAAA" 0x1.3333333333333p-2 ]%float.

(** The value of a finite binary64 number times [2^k], when that is an
    integer: an exact reading, no rounding involved. *)
Definition timesPow2 (k : Z) (x : float) : option Z :=
  match Prim2SF x with
  | S754_zero _ => Some 0%Z
  | S754_finite s m e =>
      if (0 <=? e + k)%Z
      then Some ((if s then Z.neg m else Z.pos m) * 2 ^ (e + k))%Z
      else None
  | _ => None
  end.

(** C2, as the spec has it, fails in the arithmetic of the code.  The
    buffers of [burst] arrive back to back, the second and the third while
    [nextStartTime] is ahead of the clock.  The third starts at
    0.6000000000000001, the running sum [(0.1 + 0.2) + 0.3] of the handler,
    and not at [0.1 + (0.2 + 0.3)], which is 0.6; read exactly, its start is
    not the sum of the first start and the two durations either (times
    [2^60]: 691752902764108288 against 691752902764108192), that sum being
    no binary64 number. *)
Lemma running_sum_is_not_the_closed_form :
  map (@startTime float)
    (scheduledOf (log (after (inboundRun hostD burst) openedF)))
  = [0x1.999999999999ap-4; 0x1.3333333333334p-2; 0x1.3333333333334p-1]%float
  /\ nmax 0x1.3333333333334p-2%float 0x1.999999999999ap-3%float
     = 0x1.3333333333334p-2%float
  /\ nmax 0x1.3333333333334p-1%float 0x1.3333333333333p-2%float
     = 0x1.3333333333334p-1%float
  /\ map (fun i => ndiv (durationOf hostD i) 1%float) burst
     = [0x1.999999999999ap-3; 0x1.3333333333333p-2; 0x1.999999999999ap-2]%float
  /\ (0x1.999999999999ap-4 + (0x1.999999999999ap-3 + 0x1.3333333333333p-2))%float
     = 0x1.3333333333333p-1%float
  /\ 0x1.3333333333334p-1%float <> 0x1.3333333333333p-1%float
  /\ timesPow2 60 0x1.3333333333334p-1 = Some 691752902764108288%Z
  /\ timesPow2 60 0x1.999999999999ap-4 = Some 115292150460684704%Z
  /\ timesPow2 60 0x1.999999999999ap-3 = Some 230584300921369408%Z
  /\ timesPow2 60 0x1.3333333333333p-2 = Some 345876451382054080%Z
  /\ (691752902764108288
      <> 115292150460684704 + 230584300921369408 + 345876451382054080)%Z.
Proof.
  split; [vm_compute; reflexivity|].
  split; [vm_compute; reflexivity|].
  split; [vm_compute; reflexivity|].
  split; [vm_compute; reflexivity|].
  split; [vm_compute; reflexivity|].
  split; [apply float_neq; vm_compute; discriminate|].
  split; [vm_compute; reflexivity|].
  split; [vm_compute; reflexivity|].
  split; [vm_compute; reflexivity|].
  split; [vm_compute; reflexivity|].
  lia.
Qed.

(** Two messages that complete a turn: one after the user said " hi there",
    one with nothing but white space accumulated. *)
Definition turnOfWords : LiveServerMessage :=
  {| inlineData := None;
     interrupted := false;
     inputTranscription := Some (Some (str " hi there"));
     outputTranscription := Some (Some (str "Hello!"));
     turnComplete := true |}.

Lemma turnComplete_finalizes_witness :
  turnComplete turnOfWords = true
  /\ exists w' : World float (list float),
       onmessage hostF turnOfWords 0%float 1000%float 1001%float openedF
       = (Returned tt, w')
       /\ entries (comp w')
          = [ {| role := user; text := str " hi there"; timestamp := 1000%float;
                 correction := None |};
              {| role := model; text := str "Hello!"; timestamp := 1001%float;
                 correction := None |} ]
       /\ transcriptionRef (comp w') = {| input := []; output := [] |}.
Proof.
  split; [reflexivity|].
  destruct (turnComplete_finalizes hostF turnOfWords 0%float
              1000%float 1001%float openedF eq_refl)
    as (w' & E & Hen & _ & Hclr).
  exists w'. split; [exact E|]. split; [exact Hen | exact Hclr].
Defined.

(** C10: a text that arrives while a challenge is active is checked all the
    same.  The session was started by the render of the mounted component,
    whose [activeChallenge] is null; the Challenge button then makes the
    challenge of the state active; the turn " hi there" is finalized at
    [Date.now() = 1000]: the request is issued and the correction "I am" is
    attached to the user's entry.  The guard itself, given the challenge of the
    state, would have returned at once. *)
Lemma grammar_check_runs_during_a_challenge :
  let challenged := after (@generateChallengeRequest float (list float)) openedF in
  let answered :=
    after (sessionOnmessage hostF (comp mountedF) turnOfWords
             0%float 1000%float 1001%float) challenged in
  activeChallenge (comp mountedF) = None
  /\ challengeIsActive (activeChallenge (comp challenged)) = true
  /\ challengeIsActive (activeChallenge (comp answered)) = true
  /\ grammarRequests (log challenged) = []
  /\ grammarRequests (log answered) = [str "hi there"]
  /\ map (fun e => (text e, correction e)) (entries (comp answered))
     = [(str " hi there", Some (str "I am")); (str "Hello!", None)]
  /\ checkGrammar hostF (activeChallenge (comp challenged)) (str "hi there")
       1000%float challenged
     = (Returned tt, challenged).
Proof. vm_compute. repeat split; reflexivity. Qed.

Lemma checkGrammar_returns_early_witness :
  (List.length (split space (str "Bonjour")) < 2)%nat
  /\ checkGrammar hostF None (str "Bonjour") 1000%float openedF
     = (Returned tt, openedF).
Proof.
  assert (H : (List.length (split space (str "Bonjour")) < 2)%nat)
    by (vm_compute; lia).
  split; [exact H|].
  apply (@checkGrammar_returns_early float _ (list float) hostF None (str "Bonjour")
           1000%float openedF).
  right. left. exact H.
Defined.

(** The grammar check on the entry of a finished turn: the correction is
    attached to the entry with timestamp 1000 and to no other. *)
Lemma checkGrammar_attaches_witness :
  exists w' : World float (list float),
    checkGrammar hostF None (str "I is") 1000%float
      (after (onmessage hostF turnOfWords 0%float 1000%float 1001%float) openedF)
    = (Returned tt, w')
    /\ map (@correction float) (entries (comp w')) = [Some (str "I am"); None].
Proof.
  destruct (@checkGrammar_touches_only_the_correction float _ (list float) hostF
              None (str "I is") 1000%float
              (after (onmessage hostF turnOfWords 0%float 1000%float 1001%float)
                 openedF))
    as (w' & E & _).
  exists w'. split; [exact E|].
  vm_compute in E. injection E as <-. vm_compute. reflexivity.
Defined.

(** ** In real arithmetic *)

Definition hostR : Host R unit :=
  {| throws := fun _ => None;
     createPcmBlob := fun _ => tt;
     decodeAudioData := fun _ => {| duration := 3%R |};
     grammarService := fun _ => {| reply_status := None; correctedText := None |};
     onLine := true |}.

Definition tuningR : Tuning R :=
  {| isPausedRef := false;
     speechRateRef := 1%R;
     inputGainRef := 2%R;
     outputVolumeRef := 1%R;
     outputPitchRef := 1%R;
     vadThresholdRef := 1%R;
     vadDurationRef := 800%R |}.

(** A component with a session and both audio contexts, nothing scheduled. *)
Definition openedR : World R unit :=
  {| comp :=
       {| tuning := tuningR;
          sessionRef := Some 3%nat;
          audioContextInRef := Some 0%nat;
          audioContextOutRef := Some 1%nat;
          outputGainNodeRef := Some 2%nat;
          nextStartTimeRef := 0%R;
          sourcesRef := [];
          transcriptionRef := {| input := []; output := [] |};
          wasUserTalkingRef := false;
          lastSilenceTimeRef := 0%R;
          entries := [];
          isActive := true;
          isSpeaking := false;
          isUserTalkingLocal := false;
          isConnecting := false;
          error := None;
          activeChallenge := None |};
     log := [];
     nextNode := 4 |}.

Definition framesR : list (CaptureInput R) :=
  [ {| cap_tuning := tuningR; cap_frame := [3%R; 4%R]; cap_now := 1000%R |};
    {| cap_tuning := tuningR; cap_frame := [0%R; 0%R]; cap_now := 2000%R |} ].

Lemma vad_cues_witness :
  wasUserTalkingRef (comp openedR) = false
  /\ sessionRef (comp openedR) <> None
  /\ Forall (fun i => isPausedRef (cap_tuning i) = false) framesR
  /\ exists (evs : list (option FeedbackType)) (w' : World R unit),
       captureRun hostR framesR openedR = (Returned evs, w')
       /\ alternates start (cuesOf evs).
Proof.
  assert (H1 : wasUserTalkingRef (comp openedR) = false) by reflexivity.
  assert (H2 : sessionRef (comp openedR) <> None) by discriminate.
  assert (H3 : Forall (fun i => isPausedRef (cap_tuning i) = false) framesR)
    by (repeat constructor).
  split; [exact H1|]. split; [exact H2|]. split; [exact H3|].
  destruct (@vad_cues_alternate_and_stop_waits unit hostR framesR openedR H1 H2 H3)
    as (evs & w' & E & _ & A & _).
  exists evs, w'. split; [exact E | exact A].
Defined.

Definition audioOnly : LiveServerMessage :=
  {| inlineData := Some (str "UklGRg==");
     interrupted := false;
     inputTranscription := None;
     outputTranscription := None;
     turnComplete := false |}.

Definition arrival (currentTime : R) : Inbound R :=
  {| in_msg := audioOnly; in_currentTime := currentTime;
     in_now1 := 0%R; in_now2 := 0%R |}.

Lemma playing_openedR : playing (comp openedR).
Proof. unfold playing. cbn. repeat split; discriminate. Qed.

Lemma carriesAudio_arrival (t : R) :
  carriesAudio (arrival t) /\ interrupted (in_msg (arrival t)) = false.
Proof.
  split; [|reflexivity]. exists (str "UklGRg=="). split; reflexivity.
Qed.

Lemma playing_openedF : playing (comp openedF).
Proof. unfold playing. vm_compute. repeat split; discriminate. Qed.

Lemma carriesAudio_burst :
  Forall (fun i => carriesAudio i /\ interrupted (in_msg i) = false) burst.
Proof.
  repeat constructor.
  - exists (str "AAAA"). split; reflexivity.
  - exists (str "AAAAAAAA"). split; reflexivity.
  - exists (str "AAAAAAAAAAAA"). split; reflexivity.
Qed.

(** In binary64, on [burst]: the three starts are 0.1, 0.30000000000000004
    and 0.6000000000000001, the running sums.  In real arithmetic, on three
    buffers of 3 s arriving at 1, 2 and 6. *)
Lemma buffers_gap_free_witness :
  (playing (comp openedF)
   /\ Forall (fun i => carriesAudio i /\ interrupted (in_msg i) = false) burst
   /\ exists (srcs : list (Source float)) (w' : World float (list float)),
        inboundRun hostD burst openedF = (Returned tt, w')
        /\ scheduledOf (log w') = scheduledOf (log openedF) ++ srcs
        /\ map (@startTime float) srcs
           = [0x1.999999999999ap-4; 0x1.3333333333334p-2;
              0x1.3333333333334p-1]%float)
  /\ (playing (comp openedR)
      /\ Forall (fun i => carriesAudio i /\ interrupted (in_msg i) = false)
           [arrival 1%R; arrival 2%R; arrival 6%R]
      /\ exists (srcs : list (Source R)) (w' : World R unit),
           inboundRun hostR [arrival 1%R; arrival 2%R; arrival 6%R] openedR
           = (Returned tt, w')
           /\ scheduledOf (log w') = srcs
           /\ List.length srcs = 3%nat).
Proof.
  split.
  - split; [exact playing_openedF|]. split; [exact carriesAudio_burst|].
    destruct (proj1 buffers_are_scheduled_gap_free float Float64.number
                (list float) hostD
                [ audioD "AAAAAAAA" 0x1.999999999999ap-3;
                  audioD "AAAAAAAAAAAA" 0x1.3333333333333p-2 ]%float
                (audioD "AAAA" 0x1.999999999999ap-4%float) openedF
                playing_openedF carriesAudio_burst)
      as (srcs & w' & E & Hlog & Hlen & Hk & _).
    + vm_compute. repeat split; reflexivity.
    + exists srcs, w'. split; [exact E|]. split; [exact Hlog|].
      destruct srcs as [|s1 [|s2 [|s3 [|s4 srcs]]]]; try discriminate Hlen.
      destruct (Hk 0%nat _ s1 eq_refl eq_refl) as (_ & _ & K1).
      destruct (Hk 1%nat _ s2 eq_refl eq_refl) as (_ & _ & K2).
      destruct (Hk 2%nat _ s3 eq_refl eq_refl) as (_ & _ & K3).
      cbn [map]. rewrite K1, K2, K3. vm_compute. reflexivity.
  - assert (H2 : Forall (fun i => carriesAudio i /\ interrupted (in_msg i) = false)
                   [arrival 1%R; arrival 2%R; arrival 6%R])
      by (repeat constructor; apply carriesAudio_arrival).
    split; [exact playing_openedR|]. split; [exact H2|].
    destruct (proj2 buffers_are_scheduled_gap_free unit hostR
                [arrival 2%R; arrival 6%R] (arrival 1%R) openedR
                playing_openedR H2)
      as (srcs & w' & E & Hlog & Hlen & _).
    + cbn. unfold Rmax. destruct (Rle_dec 0 1); repeat split; lra.
    + exists srcs, w'. split; [exact E|]. split; [exact Hlog | exact Hlen].
Defined.

Definition interruptedR : LiveServerMessage :=
  {| inlineData := None;
     interrupted := true;
     inputTranscription := None;
     outputTranscription := None;
     turnComplete := false |}.

(** The tutor speaking: one buffer of 3 s scheduled at output clock 0.5. *)
Definition playingR : World R unit :=
  after (onmessage hostR audioOnly (1 / 2)%R 0%R 0%R) openedR.

Lemma playingR_speaks :
  List.length (sourcesRef (comp playingR)) = 1%nat
  /\ isSpeaking (comp playingR) = true
  /\ nextStartTimeRef (comp playingR) = (7 / 2)%R.
Proof.
  unfold playingR, after. rewrite onmessage_runs. cbn.
  split; [reflexivity|]. split; [reflexivity|].
  unfold Rmax. destruct (Rle_dec 0 (1 / 2)); lra.
Qed.

Lemma carriesAudio_arrivalF (t : float) :
  carriesAudio (arrivalF t) /\ interrupted (in_msg (arrivalF t)) = false.
Proof.
  split; [|reflexivity]. exists (str "UklGRg=="). split; reflexivity.
Qed.

(** An interruption at output clock 5 while the tutor speaks.  In binary64,
    on [playingF], whose buffer is scheduled until 2: the source is stopped and
    dropped, the indicator goes off, [nextStartTime] falls from 2 to 0, and the
    buffer of the next message, handled at clock 7, starts at 7.  In real
    arithmetic, on [playingR], whose buffer is scheduled until 3.5, the
    same. *)
Lemma interruption_witness :
  (interrupted interruptedOnly = true
   /\ List.length (sourcesRef (comp playingF)) = 1%nat
   /\ isSpeaking (comp playingF) = true
   /\ nextStartTimeRef (comp playingF) = 2%float
   /\ exists w' : World float (list float),
        onmessage hostF interruptedOnly 5%float 0%float 0%float playingF
        = (Returned tt, w')
        /\ sourcesRef (comp w') = []
        /\ isSpeaking (comp w') = false
        /\ nextStartTimeRef (comp w') = 0%float
        /\ (forall s : Source float,
              In s (sourcesRef (comp playingF)) -> In (SourceStop (node s)) (log w'))
        /\ exists (s : Source float) (w'' : World float (list float)),
             onmessage hostF audioAndDelta 7%float 0%float 0%float w'
             = (Returned tt, w'')
             /\ scheduledOf (log w'') = scheduledOf (log w') ++ [s]
             /\ startTime s = 7%float)
  /\ (interrupted interruptedR = true
      /\ List.length (sourcesRef (comp playingR)) = 1%nat
      /\ isSpeaking (comp playingR) = true
      /\ nextStartTimeRef (comp playingR) = (7 / 2)%R
      /\ exists w' : World R unit,
           onmessage hostR interruptedR 5%R 0%R 0%R playingR = (Returned tt, w')
           /\ sourcesRef (comp w') = []
           /\ isSpeaking (comp w') = false
           /\ nextStartTimeRef (comp w') = 0%R
           /\ (forall s : Source R,
                 In s (sourcesRef (comp playingR)) -> In (SourceStop (node s)) (log w'))
           /\ exists (s : Source R) (w'' : World R unit),
                onmessage hostR audioOnly 7%R 0%R 0%R w' = (Returned tt, w'')
                /\ scheduledOf (log w'') = scheduledOf (log w') ++ [s]
                /\ startTime s = 7%R).
Proof.
  split.
  - split; [reflexivity|]. split; [vm_compute; reflexivity|].
    split; [vm_compute; reflexivity|]. split; [vm_compute; reflexivity|].
    destruct (proj1 interruption_flushes_and_rewinds float Float64.number
                (list float) hostF interruptedOnly 5%float 0%float 0%float
                playingF eq_refl)
      as (w' & E & Hs & Hsp & Hn & Hstop & Hnext).
    exists w'. split; [exact E|]. split; [exact Hs|]. split; [exact Hsp|].
    split; [exact Hn|]. split; [intros s Hin; apply Hstop; left; exact Hin|].
    assert (Hpl : playing (comp w')).
    { vm_compute in E. injection E as <-.
      unfold playing. cbn. repeat split; discriminate. }
    destruct (Hnext (arrivalF 7%float) Hpl (proj1 (carriesAudio_arrivalF 7%float))
                eq_refl)
      as (s & w'' & E' & Hl & Hst).
    exists s, w''. split; [exact E'|]. split; [exact Hl|].
    rewrite Hst. vm_compute. reflexivity.
  - destruct playingR_speaks as (P1 & P2 & P3).
    split; [reflexivity|]. split; [exact P1|]. split; [exact P2|].
    split; [exact P3|].
    destruct (proj2 interruption_flushes_and_rewinds unit hostR interruptedR
                5%R 0%R 0%R playingR eq_refl)
      as (w' & E & Hs & Hsp & Hn & Hstop & Hnext).
    exists w'. split; [exact E|]. split; [exact Hs|]. split; [exact Hsp|].
    split; [exact Hn|]. split; [intros s Hin; apply Hstop; left; exact Hin|].
    assert (Hpl : playing (comp w')).
    { rewrite onmessage_runs in E. injection E as <-.
      unfold playing. cbn. repeat split; discriminate. }
    destruct (Hnext (arrival 7%R) Hpl (proj1 (carriesAudio_arrival 7%R)) eq_refl)
      as (s & w'' & E' & Hl & Hst); [cbn; lra|].
    exists s, w''. split; [exact E'|]. split; [exact Hl | exact Hst].
Defined.

(** The opened session with the gain slider at 0.1. *)
Definition faintF : World float (list float) :=
  after (update (set_tuning
           {| isPausedRef := false;
              speechRateRef := 1%float;
              inputGainRef := tenth;
              outputVolumeRef := 1%float;
              outputPitchRef := 1%float;
              vadThresholdRef := 0x1.0624dd2f1a9fcp-7%float;
              vadDurationRef := 800%float |})) openedF.

(** In binary64, on [clickFrame] with gain 0.1: the sample 1 is stored as
    [fround 0.1], no cue is given, and the rms measured is [fround 0.1 / 64].
    In real arithmetic, on the frame (3, 4) with gain 2. *)
Lemma gain_scales_witness :
  (isPausedRef (tuning (comp faintF)) = false
   /\ sessionRef (comp faintF) <> None
   /\ fst (onaudioprocess hostF clickFrame 1000%float faintF)
      = Returned (fround tenth :: List.repeat 0%float 4095, None)
   /\ rmsOf tenth clickFrame = PrimFloat.div (fround tenth) 64%float)
  /\ ((2 > 0)%R
      /\ rmsOf 2%R [3%R; 4%R] = (2 * rootMeanSquare [3%R; 4%R])%R).
Proof.
  split.
  - assert (H2 : isPausedRef (tuning (comp faintF)) = false) by reflexivity.
    assert (H3 : sessionRef (comp faintF) <> None) by discriminate.
    split; [exact H2|]. split; [exact H3|].
    destruct (proj1 gain_scales_frame_and_rms float Float64.number (list float)
                hostF clickFrame 1000%float faintF H2 H3)
      as (w' & E1 & _ & E2).
    split.
    + rewrite E1. cbn [fst]. vm_compute. reflexivity.
    + change (inputGainRef (tuning (comp faintF))) with tenth in E2.
      rewrite E2. vm_compute. reflexivity.
  - assert (H1 : (2 > 0)%R) by lra.
    split; [exact H1|].
    exact (proj2 (proj2 gain_scales_frame_and_rms 2%R [3%R; 4%R] H1)).
Defined.

(** * The rest of the conversation view *)

(** ** startSession and onended, run *)

Section SessionStart.

Variable num : Type.
Context {NUM : JSNumber num}.
Variable Blob : Type.
Variable host : Host num Blob.

Notation "x <- m ;; k" := (bind m (fun x => k))
  (at level 61, m at next level, right associativity).
Notation "m ;; k" := (bind m (fun _ => k))
  (at level 61, right associativity).

(** The component once [startSession] has torn the old session down and
    announced the new one: [cleanup(); setError(null); setIsConnecting(true)]. *)
Definition announced (c : Component num) : Component num :=
  setIsConnecting true (setError None (cleaned c)).

(** The calls of a [startSession] that gets as far as [ai.live.connect], with
    [n] the first free identity. *)
Definition setupCalls (c : Component num) (n : nat) : list (Effect num Blob) :=
  [ GetUserMedia; NewAudioContext n 16000%N; NewAudioContext (S n) 24000%N;
    CreateGain (S (S n)) (outputVolumeRef (tuning c)); LiveConnect (S (S (S n))) ].

(** The component after the two contexts and the gain node were created. *)
Definition equipped (c : Component num) (n : nat) : Component num :=
  set_outputGainNodeRef (Some (S (S n)))
    (set_audioContextOutRef (Some (S n))
       (set_audioContextInRef (Some n) (announced c))).

Definition failed (err : JSError) (c : Component num) : Component num :=
  setIsConnecting false (setError (Some (getFriendlyErrorMessage host err)) c).

(** The world [startSession] leaves. *)
Definition afterStartSession (w : World num Blob) : World num Blob :=
  if isConnecting (comp w) then w
  else
    let c := comp w in
    let n := nextNode w in
    let l := log w ++ @cleanupCalls num Blob c in
    match throws host GetUserMedia with
    | Some err =>
        {| comp := failed err (announced c);
           log := l ++ [GetUserMedia];
           nextNode := n |}
    | None =>
        match throws host (LiveConnect (S (S (S n)))) with
        | Some err =>
            {| comp := failed err (equipped c n);
               log := l ++ setupCalls c n;
               nextNode := S (S (S (S n))) |}
        | None =>
            {| comp := set_sessionRef (Some (S (S (S n)))) (equipped c n);
               log := l ++ setupCalls c n;
               nextNode := S (S (S (S n))) |}
        end
    end.

Lemma startSession_runs (w : World num Blob) :
  startSession host w = (Returned tt, afterStartSession w).
Proof.
  destruct w as [c l n].
  destruct c as [t se ai ao g nx ss tr wt ls en ac sp ut co er ch].
  unfold startSession, afterStartSession. cbv [bind get comp isConnecting].
  destruct co; [reflexivity|].
  rewrite cleanup_runs.
  cbv [update tryCatch bind call fresh perform emit comp log nextNode].
  unfold setupCalls, equipped, announced, failed.
  destruct (throws host GetUserMedia).
  { cbn. rewrite <- !app_assoc. reflexivity. }
  cbn [cleaned set_sessionRef set_audioContextInRef set_audioContextOutRef
       set_outputGainNodeRef set_sourcesRef setIsActive setIsUserTalkingLocal
       setIsSpeaking setError setIsConnecting tuning].
  destruct (throws host (LiveConnect (S (S (S n)))));
    cbn; rewrite <- !app_assoc; reflexivity.
Qed.

Definition afterEnded (n : nat) (w : World num Blob) : World num Blob :=
  let rest := filter (fun s => negb (Nat.eqb (node s) n)) (sourcesRef (comp w)) in
  {| comp := (if Nat.eqb (List.length rest) 0
              then setIsSpeaking false else fun c => c)
               (set_sourcesRef rest (comp w));
     log := log w;
     nextNode := nextNode w |}.

Lemma onended_runs (n : nat) (w : World num Blob) :
  @onended num Blob n w = (Returned tt, afterEnded n w).
Proof.
  unfold onended, afterEnded. cbv [bind update get when comp log nextNode].
  destruct w as [c l k]; destruct c. cbn.
  destruct (Nat.eqb (List.length (filter _ _)) 0); reflexivity.
Qed.

(** *** startSession, await by await

    [startSession] is suspended twice, at [await getUserMedia] and at
    [await sessionPromise], and other handlers run in between.  These are
    its three pieces. *)

(** Up to the request for the microphone: the guard, the teardown, the two
    setters and the call.  [true] when the function goes on. *)
Definition startSessionRequest : Eff num Blob bool :=
  c <- @get num Blob ;;
  if isConnecting c then ret false
  else
    cleanup host ;;
    update (setError None) ;;
    update (setIsConnecting true) ;;
    perform GetUserMedia ;;
    ret true.

(** [catch (err)] *)
Definition startSessionCatch (err : JSError) : Eff num Blob unit :=
  update (setError (Some (getFriendlyErrorMessage host err))) ;;
  update (setIsConnecting false).

(** From the settled request to [await sessionPromise]; it returns the
    session it asked for, if it got that far. *)
Definition startSessionSetup : Eff num Blob (option nat) :=
  match throws host GetUserMedia with
  | Some err => startSessionCatch err ;; ret None
  | None =>
      a <- @fresh num Blob ;;
      perform (NewAudioContext a 16000%N) ;;
      update (set_audioContextInRef (Some a)) ;;
      b <- @fresh num Blob ;;
      perform (NewAudioContext b 24000%N) ;;
      update (set_audioContextOutRef (Some b)) ;;
      g <- @fresh num Blob ;;
      c <- @get num Blob ;;
      perform (CreateGain g (outputVolumeRef (tuning c))) ;;
      update (set_outputGainNodeRef (Some g)) ;;
      s <- @fresh num Blob ;;
      perform (LiveConnect s) ;;
      ret (Some s)
  end.

(** From the settled session promise to the end. *)
Definition startSessionSettle (s : nat) : Eff num Blob unit :=
  match throws host (LiveConnect s) with
  | Some err => startSessionCatch err
  | None => update (set_sessionRef (Some s))
  end.

(** The three pieces, run one after the other with nothing in between, are
    [startSession]. *)
Lemma startSession_in_pieces (w : World num Blob) :
  startSession host w
  = (go <- startSessionRequest ;;
     if go : bool then
       o <- startSessionSetup ;;
       match o with
       | Some s => startSessionSettle s
       | None => ret tt
       end
     else ret tt) w.
Proof.
  rewrite startSession_runs. unfold afterStartSession, startSessionRequest.
  destruct w as [c l n].
  destruct c as [t se ai ao g nx ss tr wt ls en ac sp ut co er ch].
  cbv [bind get comp isConnecting]. destruct co; [reflexivity|].
  rewrite cleanup_runs.
  unfold startSessionSetup, startSessionSettle, startSessionCatch.
  cbv [update bind fresh perform emit comp log nextNode ret].
  unfold setupCalls, equipped, announced, failed.
  destruct (throws host GetUserMedia).
  { cbn. rewrite <- !app_assoc. reflexivity. }
  cbn [cleaned set_sessionRef set_audioContextInRef set_audioContextOutRef
       set_outputGainNodeRef set_sourcesRef setIsActive setIsUserTalkingLocal
       setIsSpeaking setError setIsConnecting tuning].
  cbn.
  destruct (throws host (LiveConnect (S (S (S n)))));
    cbn; rewrite <- !app_assoc; reflexivity.
Qed.

(** *** onmessage, across its await

    [onmessage] is suspended at [await decodeAudioData] when it plays audio,
    and other handlers run in between.  These are its two pieces. *)

(** What [source.connect(outputGainNodeRef.current)] throws when the ref
    holds [null]. *)
Definition nullGain : JSError :=
  {| message := Some (str "Failed to execute 'connect' on 'AudioNode': Overload resolution failed.");
     toString := str "TypeError: Failed to execute 'connect' on 'AudioNode': Overload resolution failed." |}.

(** Up to the decoder: the guard of the audio branch and, when it passes,
    the two assignments before the [await].  It returns the payload handed to
    the decoder, if any. *)
Definition onmessageDecode (msg : LiveServerMessage) (currentTime : num)
  : Eff num Blob (option jsstring) :=
  c <- @get num Blob ;;
  match audible msg c with
  | Some base64Audio =>
      update (setIsSpeaking true) ;;
      update (fun c => set_nextStartTimeRef
                         (nmax (nextStartTimeRef c) currentTime) c) ;;
      ret (Some base64Audio)
  | None => ret None
  end.

(** From the decoded buffer on: the rest of the audio branch, on the refs as
    they are by now, and the four branches after it.  [decoded] is the payload
    that went to the decoder, if the audio branch was entered. *)
Definition onmessageDecoded (decoded : option jsstring) (msg : LiveServerMessage)
  (now1 now2 : num) : Eff num Blob unit :=
  match decoded with
  | Some base64Audio =>
      let buffer := decodeAudioData host base64Audio in
      n <- @fresh num Blob ;;
      c <- @get num Blob ;;
      let currentRate :=
        nmul (speechRateRef (tuning c)) (outputPitchRef (tuning c)) in
      if isNone (outputGainNodeRef c) then raise nullGain
      else
        let source := {| node := n; buffer := buffer;
                         startTime := nextStartTimeRef c;
                         playbackRate := currentRate |} in
        perform (SourceStart source) ;;
        update (fun c => set_nextStartTimeRef
                           (nadd (nextStartTimeRef c)
                                 (ndiv (duration buffer) currentRate)) c) ;;
        update (fun c => set_sourcesRef (sourcesRef c ++ [source]) c)
  | None => ret tt
  end ;;
  interruptedBranch host msg ;;
  inputTranscriptionBranch msg ;;
  outputTranscriptionBranch msg ;;
  turnCompleteBranch msg now1 now2.

(** The two pieces, run one after the other with nothing in between, are
    [onmessage]. *)
Lemma onmessage_in_pieces (msg : LiveServerMessage) (currentTime now1 now2 : num)
  (w : World num Blob) :
  onmessage host msg currentTime now1 now2 w
  = (decoded <- onmessageDecode msg currentTime ;;
     onmessageDecoded decoded msg now1 now2) w.
Proof.
  unfold onmessage, onmessageDecode, onmessageDecoded, audioBranch, audible.
  destruct w as [c l n].
  destruct c as [t se ai ao g nx ss tr wt ls en ac sp ut co er ch].
  cbv [bind get comp].
  destruct (inlineData msg) as [a|]; [|reflexivity].
  cbv [audioContextOutRef outputGainNodeRef tuning].
  destruct (truthy a && negb (isNone ao) && negb (isPausedRef t) && negb (isNone g))
    eqn:G; [|reflexivity].
  apply andb_prop in G. destruct G as [_ G]. apply negb_true_iff in G.
  cbv [update fresh ret comp log nextNode setIsSpeaking set_nextStartTimeRef
       outputGainNodeRef].
  rewrite G. reflexivity.
Qed.

(** The second piece, run: it throws at [connect] when the gain node is
    gone, and otherwise returns. *)
Definition afterDecoded (decoded : option jsstring) (msg : LiveServerMessage)
  (now1 now2 : num) (w : World num Blob) : World num Blob :=
  let w1 :=
    match decoded with
    | Some a =>
        let s := {| node := nextNode w; buffer := decodeAudioData host a;
                    startTime := nextStartTimeRef (comp w);
                    playbackRate := nmul (speechRateRef (tuning (comp w)))
                                      (outputPitchRef (tuning (comp w))) |} in
        {| comp := set_sourcesRef (sourcesRef (comp w) ++ [s])
                     (set_nextStartTimeRef
                        (nadd (startTime s) (ndiv (duration (buffer s)) (playbackRate s)))
                        (comp w));
           log := log w ++ [SourceStart s];
           nextNode := S (nextNode w) |}
    | None => w
    end in
  afterTurnComplete msg now1 now2
    (afterOutput msg (afterInput msg (afterInterrupted msg w1))).

Lemma onmessageDecoded_runs (decoded : option jsstring) (msg : LiveServerMessage)
  (now1 now2 : num) (w : World num Blob) :
  onmessageDecoded decoded msg now1 now2 w
  = match decoded, outputGainNodeRef (comp w) with
    | Some _, None =>
        (Thrown nullGain,
         {| comp := comp w; log := log w; nextNode := S (nextNode w) |})
    | _, _ => (Returned tt, afterDecoded decoded msg now1 now2 w)
    end.
Proof.
  unfold onmessageDecoded, afterDecoded.
  destruct decoded as [a|].
  - destruct w as [c l n].
    destruct c as [t se ai ao g nx ss tr wt ls en ac sp ut co er ch].
    unfold bind at 1. unfold bind at 1.
    cbv [fresh get comp log nextNode outputGainNodeRef].
    destruct g as [g|]; [|reflexivity].
    cbv [isNone]. unfold bind at 1 2 3.
    cbv [perform update emit comp log nextNode tuning nextStartTimeRef
         sourcesRef set_nextStartTimeRef set_sourcesRef].
    cbn [startTime buffer duration playbackRate].
    unfold bind.
    rewrite interruptedBranch_runs, inputTranscriptionBranch_runs,
      outputTranscriptionBranch_runs.
    apply turnCompleteBranch_runs.
  - assert (E : (ret tt ;;
                 interruptedBranch host msg ;;
                 inputTranscriptionBranch msg ;;
                 outputTranscriptionBranch msg ;;
                 turnCompleteBranch msg now1 now2) w
                = (Returned tt,
                   afterTurnComplete msg now1 now2
                     (afterOutput msg (afterInput msg (afterInterrupted msg w))))).
    { unfold bind, ret.
      rewrite interruptedBranch_runs, inputTranscriptionBranch_runs,
        outputTranscriptionBranch_runs.
      apply turnCompleteBranch_runs. }
    rewrite E. destruct (outputGainNodeRef (comp w)); reflexivity.
Qed.

(** *** onopen and the undecodable message, run *)

Definition afterOpen (w : World num Blob) : World num Blob :=
  withComp (fun c => setIsConnecting false (setIsActive true c)) w.

Lemma onopen_runs (w : World num Blob) :
  @onopen num Blob w
  = (if isNone (audioContextInRef (comp w)) then Thrown nullContext else Returned tt,
     afterOpen w).
Proof.
  unfold onopen, afterOpen, withComp. cbv [bind update get raise ret comp log nextNode].
  destruct w as [c l n]; destruct c as [t se ai ao g nx ss tr wt ls en ac sp ut co er ch].
  cbn. destruct ai; reflexivity.
Qed.

(** The world an undecodable message leaves when its audio would have been
    played: the indicator is on and [nextStartTime] has caught up with the
    clock, nothing else has happened. *)
Definition afterRejected (currentTime : num) (w : World num Blob) : World num Blob :=
  withComp (fun c => set_nextStartTimeRef (nmax (nextStartTimeRef c) currentTime)
                       (setIsSpeaking true c)) w.

Lemma onmessageUndecodable_runs (err : JSError) (msg : LiveServerMessage)
  (currentTime now1 now2 : num) (w : World num Blob) :
  onmessageUndecodable host err msg currentTime now1 now2 w
  = match audible msg (comp w) with
    | Some _ => (Thrown err, afterRejected currentTime w)
    | None => onmessage host msg currentTime now1 now2 w
    end.
Proof.
  unfold onmessageUndecodable, audible, afterRejected, withComp.
  cbv [bind get]. destruct (inlineData msg) as [a|]; [|reflexivity].
  destruct (truthy a && negb (isNone (audioContextOutRef (comp w)))
            && negb (isPausedRef (tuning (comp w)))
            && negb (isNone (outputGainNodeRef (comp w)))); [|reflexivity].
  cbv [update raise comp log nextNode].
  destruct w as [c l n]; destruct c; reflexivity.
Qed.

End SessionStart.

(** ** The handlers as an event loop *)

Section EventLoop.

Variable num : Type.
Context {NUM : JSNumber num}.
Variable Blob : Type.
Variable host : Host num Blob.

(** What can happen to a mounted conversation view, one handler at a time:
    a slider effect copies new values into the refs, the capture callback
    fires, a message arrives whose audio decodes or does not, a source ends,
    a grammar check runs (with the challenge its closure holds), the view is
    torn down, a session is started or opened; and, with other handlers in
    between, the pieces that the [await]s cut [startSession] and [onmessage]
    into. *)
Inductive Step : Type :=
| Retune (t : Tuning num)
| Capture (inputData : list num) (now : num)
| Message (i : Inbound num)
| Ended (n : nat)
| Grammar (challenge : option Challenge) (t : jsstring) (ts : num)
| Cleanup
| StartSession
| Open
| Undecodable (err : JSError) (i : Inbound num)
| StartRequest
| StartSetup
| StartSettle (s : nat)
| MessageDecode (i : Inbound num)
| MessageDecoded (decoded : option jsstring) (i : Inbound num).

Definition runStep (s : Step) : Eff num Blob unit :=
  match s with
  | Retune t => update (set_tuning t)
  | Capture inputData now =>
      bind (onaudioprocess host inputData now) (fun _ => ret tt)
  | Message i =>
      onmessage host (in_msg i) (in_currentTime i) (in_now1 i) (in_now2 i)
  | Ended n => @onended num Blob n
  | Grammar challenge t ts => checkGrammar host challenge t ts
  | Cleanup => cleanup host
  | StartSession => startSession host
  | Open => @onopen num Blob
  | Undecodable err i =>
      onmessageUndecodable host err (in_msg i) (in_currentTime i)
        (in_now1 i) (in_now2 i)
  | StartRequest => bind (startSessionRequest host) (fun _ => ret tt)
  | StartSetup => bind (startSessionSetup host) (fun _ => ret tt)
  | StartSettle s => startSessionSettle host s
  | MessageDecode i =>
      bind (onmessageDecode (in_msg i) (in_currentTime i)) (fun _ => ret tt)
  | MessageDecoded decoded i =>
      onmessageDecoded host decoded (in_msg i) (in_now1 i) (in_now2 i)
  end.

(** The steps as one computation: it ends where a step throws. *)
Fixpoint runSteps (steps : list Step) : Eff num Blob unit :=
  match steps with
  | [] => ret tt
  | s :: rest => bind (runStep s) (fun _ => runSteps rest)
  end.

(** The steps as turns of the event loop: a handler that throws ends there,
    what it has done stays done, and the next handler runs. *)
Fixpoint runEvents (steps : list Step) (w : World num Blob) : World num Blob :=
  match steps with
  | [] => w
  | s :: rest => runEvents rest (snd (runStep s w))
  end.

(** The capture callback returns, paused or not, and what it leaves differs
    from what it found by the VAD step and one packet at most. *)
Lemma onaudioprocess_returns (inputData : list num) (now : num) (w : World num Blob) :
  exists r,
    onaudioprocess host inputData now w
    = (Returned r,
       if isPausedRef (tuning (comp w)) || isNone (sessionRef (comp w)) then w
       else emit (SendRealtimeInput
                    (createPcmBlob host
                       (fst (gainLoop (inputGainRef (tuning (comp w))) inputData nzero))))
              (afterVad (rmsOf (inputGainRef (tuning (comp w))) inputData) now w)).
Proof.
  destruct (isPausedRef (tuning (comp w))) eqn:Hp.
  - eexists. cbn [orb]. apply onaudioprocess_skips. left. exact Hp.
  - destruct (sessionRef (comp w)) as [s|] eqn:Hs.
    + eexists. cbn [orb isNone]. apply onaudioprocess_runs; [exact Hp|].
      rewrite Hs. discriminate.
    + eexists. cbn [orb isNone]. apply onaudioprocess_skips. right. exact Hs.
Qed.

Lemma afterVad_keeps_entries (rms now : num) (w : World num Blob) :
  entries (comp (afterVad rms now w)) = entries (comp w).
Proof.
  destruct w as [c l n].
  destruct c as [t se ai ao g nx ss tr wt ls en ac sp ut co er ch].
  unfold afterVad, vadCue, afterFeedbackSound, withComp.
  cbn [comp wasUserTalkingRef].
  destruct (isLoud _ rms); destruct wt; cbn [andb]; try reflexivity.
  - cbn. destruct (isNone ao || isPausedRef t); reflexivity.
  - destruct (hangoverOver _ now); [|reflexivity].
    cbn. destruct (isNone ao || isPausedRef t); reflexivity.
Qed.

Lemma afterTurnComplete_entries (msg : LiveServerMessage) (now1 now2 : num)
  (w : World num Blob) :
  entries (comp (afterTurnComplete msg now1 now2 w))
  = entries (comp w)
    ++ (if turnComplete msg then finalized (transcriptionRef (comp w)) now1 now2
        else []).
Proof.
  unfold afterTurnComplete. destruct (turnComplete msg).
  - destruct w as [c l n]; destruct c. reflexivity.
  - rewrite app_nil_r. reflexivity.
Qed.

(** The entries after a message, whatever the message. *)
Lemma onmessage_entries (msg : LiveServerMessage) (ct now1 now2 : num)
  (w : World num Blob) :
  exists added,
    entries (comp (after (onmessage host msg ct now1 now2) w))
    = entries (comp w) ++ added
    /\ (turnComplete msg = false -> added = []).
Proof.
  unfold after. rewrite onmessage_runs. cbn [snd].
  rewrite afterTurnComplete_entries.
  destruct (afterDeltas_transcript msg (afterInterrupted msg (afterAudio host msg ct w)))
    as [_ E2].
  destruct (afterInterrupted_keeps_transcript msg (afterAudio host msg ct w)) as [_ E4].
  destruct (afterAudio_keeps_transcript host msg ct w) as [_ E6].
  rewrite E2, E4, E6. eexists. split; [reflexivity|].
  intro H. rewrite H. reflexivity.
Qed.

Lemma afterStartSession_keeps_entries (w : World num Blob) :
  entries (comp (afterStartSession host w)) = entries (comp w).
Proof.
  unfold afterStartSession.
  destruct (isConnecting (comp w)); [reflexivity|].
  destruct (throws host GetUserMedia);
    [destruct w as [c l n]; destruct c; reflexivity|].
  destruct (throws host (LiveConnect (S (S (S (nextNode w))))));
    destruct w as [c l n]; destruct c; reflexivity.
Qed.

(** An entry as it was finalized, and whether it carries a correction. *)
Definition keeps (e e' : TranscriptionEntry num) : Prop :=
  role e' = role e /\ text e' = text e /\ timestamp e' = timestamp e
  /\ (correction e <> None -> correction e' <> None).

(** [new] is [old], entry for entry, followed by later entries. *)
Definition grownFrom (old new : list (TranscriptionEntry num)) : Prop :=
  exists kept added, new = kept ++ added /\ Forall2 keeps old kept.

Lemma keeps_refl (e : TranscriptionEntry num) : keeps e e.
Proof. repeat split; auto. Qed.

Lemma Forall2_keeps_refl (l : list (TranscriptionEntry num)) : Forall2 keeps l l.
Proof. induction l; constructor; [apply keeps_refl | assumption]. Qed.

Lemma grownFrom_refl (l : list (TranscriptionEntry num)) : grownFrom l l.
Proof. exists l, []. split; [symmetry; apply app_nil_r | apply Forall2_keeps_refl]. Qed.

Lemma grownFrom_app (l added : list (TranscriptionEntry num)) :
  grownFrom l (l ++ added).
Proof. exists l, added. split; [reflexivity | apply Forall2_keeps_refl]. Qed.

Lemma Forall2_keeps_trans (a b c : list (TranscriptionEntry num)) :
  Forall2 keeps a b -> Forall2 keeps b c -> Forall2 keeps a c.
Proof.
  intro H; revert c; induction H as [|x y a b Hxy Hab IH]; intros c Hbc.
  - inversion Hbc; constructor.
  - inversion Hbc as [|y' z b' c' Hyz Hbc']; subst. constructor.
    + destruct Hxy as (R1 & T1 & S1 & C1). destruct Hyz as (R2 & T2 & S2 & C2).
      repeat split; try congruence. intro H0. apply C2, C1, H0.
    + apply IH. assumption.
Qed.

Lemma grownFrom_trans (a b c : list (TranscriptionEntry num)) :
  grownFrom a b -> grownFrom b c -> grownFrom a c.
Proof.
  intros (k1 & a1 & E1 & F1) (k2 & a2 & E2 & F2). subst b.
  apply Forall2_app_inv_l in F2. destruct F2 as (k2a & k2b & Fa & Fb & E).
  subst k2. exists k2a, (k2b ++ a2). split.
  - rewrite E2, app_assoc. reflexivity.
  - apply (Forall2_keeps_trans F1 Fa).
Qed.

Lemma attachCorrection_keeps (ts : num) (corrected : jsstring)
  (l : list (TranscriptionEntry num)) :
  Forall2 keeps l (attachCorrection ts corrected l).
Proof.
  induction l as [|e l IH]; cbn; constructor; [|exact IH].
  destruct (neqb (timestamp e) ts); [|apply keeps_refl].
  repeat split; cbn; auto. discriminate.
Qed.

Lemma checkGrammar_grows (challenge : option Challenge) (t : jsstring) (ts : num)
  (w : World num Blob) :
  grownFrom (entries (comp w)) (entries (comp (afterCheckGrammar host challenge t ts w))).
Proof.
  unfold afterCheckGrammar.
  destruct (returnsEarly challenge t); [apply grownFrom_refl|].
  destruct (throws host (GenerateContent t)); [apply grownFrom_refl|].
  destruct (correctionFor host t) as [c|]; [|apply grownFrom_refl].
  exists (attachCorrection ts c (entries (comp w))), [].
  split; [|apply attachCorrection_keeps].
  destruct w as [c0 l n]; destruct c0. cbn. rewrite app_nil_r. reflexivity.
Qed.

Lemma onmessage_grows (i : Inbound num) (w : World num Blob) :
  grownFrom (entries (comp w))
    (entries (comp (snd (onmessage host (in_msg i) (in_currentTime i)
                           (in_now1 i) (in_now2 i) w)))).
Proof.
  destruct (onmessage_entries (in_msg i) (in_currentTime i) (in_now1 i)
              (in_now2 i) w) as (added & E & _).
  unfold after in E. rewrite E. apply grownFrom_app.
Qed.

Lemma afterDecoded_grows (decoded : option jsstring) (msg : LiveServerMessage)
  (now1 now2 : num) (w : World num Blob) :
  grownFrom (entries (comp w))
    (entries (comp (afterDecoded host decoded msg now1 now2 w))).
Proof.
  unfold afterDecoded. cbv zeta. rewrite afterTurnComplete_entries.
  match goal with
  | |- context [afterInterrupted msg ?w1] =>
      destruct (afterDeltas_transcript msg (afterInterrupted msg w1)) as [_ E2];
      destruct (afterInterrupted_keeps_transcript msg w1) as [_ E4];
      assert (E6 : entries (comp w1) = entries (comp w))
        by (destruct decoded; destruct w as [c l n]; destruct c; reflexivity)
  end.
  rewrite E2, E4, E6. apply grownFrom_app.
Qed.

Lemma same_entries_grow (w w' : World num Blob) :
  entries (comp w') = entries (comp w) ->
  grownFrom (entries (comp w)) (entries (comp w')).
Proof. intros ->. apply grownFrom_refl. Qed.

(** Every step, returned or thrown, leaves the transcript grown from what it
    was. *)
Lemma runStep_grows (s : Step) (w : World num Blob) :
  grownFrom (entries (comp w)) (entries (comp (snd (runStep s w)))).
Proof.
  destruct s as [t | inputData now | i | n | ch t ts | | | | err i | | | s
                 | i | decoded i];
    cbn [runStep].
  - destruct w as [c l n]; destruct c. apply grownFrom_refl.
  - destruct (onaudioprocess_returns inputData now w) as [r E].
    unfold bind. rewrite E. cbn [snd ret].
    destruct (isPausedRef (tuning (comp w)) || isNone (sessionRef (comp w)));
      [apply grownFrom_refl|].
    cbn [emit comp]. rewrite afterVad_keeps_entries. apply grownFrom_refl.
  - apply onmessage_grows.
  - rewrite onended_runs. cbn [snd].
    unfold afterEnded. destruct w as [c l k]; destruct c. cbn.
    destruct (Nat.eqb (List.length (filter _ _)) 0); apply grownFrom_refl.
  - rewrite checkGrammar_runs. apply checkGrammar_grows.
  - rewrite cleanup_runs. cbn [snd].
    destruct w as [c l n]; destruct c. apply grownFrom_refl.
  - rewrite startSession_runs. cbn [snd].
    rewrite afterStartSession_keeps_entries. apply grownFrom_refl.
  - rewrite onopen_runs. cbn [snd].
    destruct w as [c l n]; destruct c. apply grownFrom_refl.
  - rewrite onmessageUndecodable_runs.
    destruct (audible (in_msg i) (comp w)); [|apply onmessage_grows].
    cbn [snd]. destruct w as [c l n]; destruct c. apply grownFrom_refl.
  - apply same_entries_grow. unfold startSessionRequest. cbv [bind get].
    destruct (isConnecting (comp w)); [reflexivity|].
    rewrite cleanup_runs. destruct w as [c l n]; destruct c. reflexivity.
  - apply same_entries_grow. unfold startSessionSetup, startSessionCatch.
    destruct (throws host GetUserMedia);
      destruct w as [c l n]; destruct c; reflexivity.
  - apply same_entries_grow. unfold startSessionSettle, startSessionCatch.
    destruct (throws host (LiveConnect s));
      destruct w as [c l n]; destruct c; reflexivity.
  - apply same_entries_grow. unfold onmessageDecode. cbv [bind get].
    destruct (audible (in_msg i) (comp w));
      destruct w as [c l n]; destruct c; reflexivity.
  - rewrite onmessageDecoded_runs.
    destruct decoded as [a|]; [destruct (outputGainNodeRef (comp w))|];
      cbn [snd]; try apply afterDecoded_grows.
    apply grownFrom_refl.
Qed.

(** X1.  The transcript is append-only.  Whatever handlers run, whole or in
    the pieces their [await]s cut them into, in whatever order, whichever of
    them throw (a failed decode, a source connected to a gain node that is
    gone, an [onopen] on a context that is gone) and whichever browser or
    service calls fail, the entries that were there stay where they were,
    with their role, text and timestamp, and an entry that carried a
    correction still carries one; new entries only come after them. *)
Theorem transcript_is_append_only :
  forall (steps : list Step) (w : World num Blob),
  grownFrom (entries (comp w)) (entries (comp (runEvents steps w))).
Proof.
  induction steps as [|s rest IH]; intro w.
  - apply grownFrom_refl.
  - cbn [runEvents].
    exact (grownFrom_trans (runStep_grows s w) (IH (snd (runStep s w)))).
Qed.

End EventLoop.

(** ** The capture stream: packets, tones and the talking indicator *)

Section CaptureStream.

Variable num : Type.
Context {NUM : JSNumber num}.
Variable Blob : Type.
Variable host : Host num Blob.

(** The packets sent and the tones played according to a log, oldest first. *)
Definition packetsOf (l : list (Effect num Blob)) : list Blob :=
  flat_map (fun e => match e with SendRealtimeInput b => [b] | _ => [] end) l.

Definition tonesOf (l : list (Effect num Blob)) : list FeedbackType :=
  flat_map (fun e => match e with FeedbackTone t => [t] | _ => [] end) l.

Lemma packetsOf_app (l1 l2 : list (Effect num Blob)) :
  packetsOf (l1 ++ l2) = packetsOf l1 ++ packetsOf l2.
Proof. unfold packetsOf. apply flat_map_app. Qed.

Lemma tonesOf_app (l1 l2 : list (Effect num Blob)) :
  tonesOf (l1 ++ l2) = tonesOf l1 ++ tonesOf l2.
Proof. unfold tonesOf. apply flat_map_app. Qed.

(** The callback returns at once. *)
Definition skipped (c : Component num) : bool :=
  isPausedRef (tuning c) || isNone (sessionRef c).

(** The component with the slider refs of an input. *)
Definition retuned (i : CaptureInput num) (w : World num Blob) : World num Blob :=
  withComp (set_tuning (cap_tuning i)) w.

(** The world and the cue of one callback of [captureRun], skipped or not. *)
Definition afterCallback (i : CaptureInput num) (w : World num Blob)
  : World num Blob :=
  if skipped (comp (retuned i w)) then retuned i w else afterCapture host i w.

Definition cueOfCallback (i : CaptureInput num) (w : World num Blob)
  : option FeedbackType :=
  if skipped (comp (retuned i w)) then None else cueAt i w.

Lemma captureRun_unfold (i : CaptureInput num) (rest : list (CaptureInput num))
  (w : World num Blob) :
  captureRun host (i :: rest) w
  = match captureRun host rest (afterCallback i w) with
    | (Returned evs, w') => (Returned (cueOfCallback i w :: evs), w')
    | (Thrown m, w') => (Thrown m, w')
    end.
Proof.
  unfold afterCallback, cueOfCallback, skipped.
  assert (Et : tuning (comp (retuned i w)) = cap_tuning i
               /\ sessionRef (comp (retuned i w)) = sessionRef (comp w))
    by (destruct w as [c l n]; destruct c; split; reflexivity).
  destruct Et as [Et Es]. rewrite Et, Es.
  destruct (isPausedRef (cap_tuning i)) eqn:Hp.
  - cbn [captureRun orb]. unfold bind at 1. cbv [update]. unfold bind at 1.
    fold (retuned i w).
    rewrite (onaudioprocess_skips host (cap_frame i) (cap_now i) (retuned i w))
      by (left; rewrite Et; exact Hp).
    unfold bind, ret. cbn [snd].
    destruct (captureRun host rest (retuned i w)) as [[evs|m] w']; reflexivity.
  - destruct (sessionRef (comp w)) as [s|] eqn:Hs.
    + cbn [orb isNone]. apply captureRun_cons; [exact Hp|].
      rewrite Hs. discriminate.
    + cbn [captureRun orb isNone]. unfold bind at 1. cbv [update].
      unfold bind at 1. fold (retuned i w).
      rewrite (onaudioprocess_skips host (cap_frame i) (cap_now i) (retuned i w))
        by (right; rewrite Es; reflexivity).
      unfold bind, ret. cbn [snd].
      destruct (captureRun host rest (retuned i w)) as [[evs|m] w']; reflexivity.
Qed.

(** What the VAD step logs and what it does to the indicator. *)
Lemma afterVad_tone (rms now : num) (w : World num Blob) :
  log (afterVad rms now w)
  = log w
    ++ match vadCue (comp w) rms now with
       | Some t =>
           if isNone (audioContextOutRef (comp w)) || isPausedRef (tuning (comp w))
           then [] else [FeedbackTone t]
       | None => []
       end
  /\ audioContextOutRef (comp (afterVad rms now w)) = audioContextOutRef (comp w)
  /\ (isUserTalkingLocal (comp w) = wasUserTalkingRef (comp w) ->
      isUserTalkingLocal (comp (afterVad rms now w))
      = wasUserTalkingRef (comp (afterVad rms now w))).
Proof.
  destruct w as [c l n].
  destruct c as [t se ai ao g nx ss tr wt ls en ac sp ut co er ch].
  unfold afterVad, vadCue, afterFeedbackSound, withComp.
  cbn [comp wasUserTalkingRef isUserTalkingLocal audioContextOutRef tuning log].
  destruct (isLoud _ rms); destruct wt; cbn [andb].
  - cbn. rewrite app_nil_r. repeat split. intro H; exact H.
  - cbn. destruct (isNone ao || isPausedRef t); cbn;
      rewrite ?app_nil_r; repeat split.
  - destruct (hangoverOver _ now).
    + cbn. destruct (isNone ao || isPausedRef t); cbn;
        rewrite ?app_nil_r; repeat split.
    + cbn. rewrite app_nil_r. repeat split. intro H; exact H.
  - cbn. rewrite app_nil_r. repeat split. intro H; exact H.
Qed.

(** One callback of the stream. *)
Lemma callback_effects (i : CaptureInput num) (w : World num Blob) :
  let w' := afterCallback i w in
  sessionRef (comp w') = sessionRef (comp w)
  /\ audioContextOutRef (comp w') = audioContextOutRef (comp w)
  /\ packetsOf (log w')
     = packetsOf (log w)
       ++ (if isPausedRef (cap_tuning i) || isNone (sessionRef (comp w)) then []
           else [createPcmBlob host
                   (scaled (inputGainRef (cap_tuning i)) (cap_frame i))])
  /\ tonesOf (log w')
     = tonesOf (log w)
       ++ (if isNone (audioContextOutRef (comp w)) then []
           else cuesOf [cueOfCallback i w])
  /\ (isUserTalkingLocal (comp w) = wasUserTalkingRef (comp w) ->
      isUserTalkingLocal (comp w') = wasUserTalkingRef (comp w')).
Proof.
  intro w'. subst w'. unfold afterCallback, cueOfCallback, skipped.
  assert (E0 : tuning (comp (retuned i w)) = cap_tuning i
               /\ sessionRef (comp (retuned i w)) = sessionRef (comp w)
               /\ audioContextOutRef (comp (retuned i w)) = audioContextOutRef (comp w)
               /\ log (retuned i w) = log w
               /\ isUserTalkingLocal (comp (retuned i w)) = isUserTalkingLocal (comp w)
               /\ wasUserTalkingRef (comp (retuned i w)) = wasUserTalkingRef (comp w))
    by (destruct w as [c l n]; destruct c; repeat split; reflexivity).
  destruct E0 as (Et & Es & Eo & El & Eu & Ew).
  rewrite Et, Es.
  destruct (isPausedRef (cap_tuning i) || isNone (sessionRef (comp w))) eqn:Sk.
  - rewrite Es, Eo, El, Eu, Ew, !app_nil_r.
    repeat split; try reflexivity.
    + destruct (isNone (audioContextOutRef (comp w))); rewrite app_nil_r; reflexivity.
    + intro H; exact H.
  - apply orb_false_iff in Sk. destruct Sk as [Hp Hs].
    unfold afterCapture, cueAt. fold (retuned i w). cbn [emit comp log].
    destruct (afterVad_refs (rmsIn i) (cap_now i) (retuned i w)) as (_ & _ & As & _).
    destruct (afterVad_tone (rmsIn i) (cap_now i) (retuned i w)) as (Al & Ao & Am).
    rewrite As, Ao, Al, Es, Eo, El, Et, Hp, Eu, Ew in *.
    split; [reflexivity|]. split; [reflexivity|]. split; [|split].
    + rewrite !packetsOf_app.
      assert (P : packetsOf
                    match vadCue (comp (retuned i w)) (rmsIn i) (cap_now i) with
                    | Some t =>
                        if isNone (audioContextOutRef (comp w)) || false
                        then [] else [FeedbackTone t]
                    | None => []
                    end = []).
      { destruct (vadCue _ _ _); [|reflexivity].
        destruct (isNone (audioContextOutRef (comp w)) || false); reflexivity. }
      rewrite P, app_nil_r. cbn. rewrite gainLoop_spec. reflexivity.
    + rewrite !tonesOf_app. cbn [tonesOf flat_map app]. rewrite app_nil_r.
      rewrite orb_false_r.
      destruct (vadCue _ _ _);
        destruct (isNone (audioContextOutRef (comp w))); reflexivity.
    + exact Am.
Qed.

(** X2 and X3 rest on this: the stream of callbacks, whatever is paused. *)
Lemma captureRun_stream (inputs : list (CaptureInput num)) :
  forall w : World num Blob,
  exists (evs : list (option FeedbackType)) (w' : World num Blob),
    captureRun host inputs w = (Returned evs, w')
    /\ packetsOf (log w')
       = packetsOf (log w)
         ++ (if isNone (sessionRef (comp w)) then []
             else map (fun i => createPcmBlob host
                                  (scaled (inputGainRef (cap_tuning i)) (cap_frame i)))
                    (filter (fun i => negb (isPausedRef (cap_tuning i))) inputs))
    /\ tonesOf (log w')
       = tonesOf (log w)
         ++ (if isNone (audioContextOutRef (comp w)) then [] else cuesOf evs)
    /\ (isUserTalkingLocal (comp w) = wasUserTalkingRef (comp w) ->
        isUserTalkingLocal (comp w') = wasUserTalkingRef (comp w')).
Proof.
  induction inputs as [|i rest IH]; intro w.
  - exists [], w. split; [reflexivity|].
    destruct (isNone (sessionRef (comp w))),
             (isNone (audioContextOutRef (comp w)));
      rewrite !app_nil_r; repeat split; auto.
  - rewrite captureRun_unfold.
    destruct (callback_effects i w) as (Hs & Ho & Hpk & Htn & Hm).
    cbv zeta in Hs, Ho, Hpk, Htn, Hm.
    destruct (IH (afterCallback i w)) as (evs & w' & E & Ipk & Itn & Im).
    rewrite E. exists (cueOfCallback i w :: evs), w'.
    split; [reflexivity|]. rewrite Hs, Ho in *. split; [|split].
    + rewrite Ipk, Hpk, <- app_assoc. f_equal.
      destruct (sessionRef (comp w)) as [s|]; cbn [isNone orb filter map].
      * rewrite orb_false_r.
        destruct (isPausedRef (cap_tuning i)); reflexivity.
      * rewrite orb_true_r. reflexivity.
    + rewrite Itn, Htn, <- app_assoc. f_equal.
      destruct (isNone (audioContextOutRef (comp w))); [reflexivity|].
      unfold cuesOf. cbn [flat_map]. rewrite app_nil_r. reflexivity.
    + intro H. apply Im, Hm, H.
Qed.

(** X2.  The capture stream sends one packet per callback that is neither
    paused nor without a session, in order, each encoding the frame with the
    gain of that callback applied, whether or not sending fails; paused
    callbacks send nothing, and without a session nothing is sent at all. *)
Theorem one_packet_per_processed_frame :
  forall (inputs : list (CaptureInput num)) (w : World num Blob),
  exists (evs : list (option FeedbackType)) (w' : World num Blob),
    captureRun host inputs w = (Returned evs, w')
    /\ packetsOf (log w')
       = packetsOf (log w)
         ++ (if isNone (sessionRef (comp w)) then []
             else map (fun i => createPcmBlob host
                                  (scaled (inputGainRef (cap_tuning i)) (cap_frame i)))
                    (filter (fun i => negb (isPausedRef (cap_tuning i))) inputs)).
Proof.
  intros inputs w.
  destruct (captureRun_stream inputs w) as (evs & w' & E & P & _).
  exists evs, w'. split; assumption.
Qed.

(** X3.  Over the capture stream the tones played are exactly the cues
    emitted, in order, when there is an output context, and none when there
    is not; and the talking indicator, once equal to [wasUserTalkingRef],
    stays equal to it after every callback. *)
Theorem tones_follow_cues_and_indicator_mirrors_vad :
  forall (inputs : list (CaptureInput num)) (w : World num Blob),
  exists (evs : list (option FeedbackType)) (w' : World num Blob),
    captureRun host inputs w = (Returned evs, w')
    /\ tonesOf (log w')
       = tonesOf (log w)
         ++ (if isNone (audioContextOutRef (comp w)) then [] else cuesOf evs)
    /\ (isUserTalkingLocal (comp w) = wasUserTalkingRef (comp w) ->
        isUserTalkingLocal (comp w') = wasUserTalkingRef (comp w')).
Proof.
  intros inputs w.
  destruct (captureRun_stream inputs w) as (evs & w' & E & _ & T & M).
  exists evs, w'. repeat split; assumption.
Qed.

End CaptureStream.

(** ** Sources ending *)

Section SourcesEnding.

Variable num : Type.
Context {NUM : JSNumber num}.
Variable Blob : Type.
Variable host : Host num Blob.

Lemma afterEnded_fields (n : nat) (w : World num Blob) :
  let rest := filter (fun s => negb (Nat.eqb (node s) n)) (sourcesRef (comp w)) in
  sourcesRef (comp (afterEnded n w)) = rest
  /\ isSpeaking (comp (afterEnded n w))
     = (if Nat.eqb (List.length rest) 0 then false else isSpeaking (comp w)).
Proof.
  destruct w as [c l k]; destruct c. unfold afterEnded. cbn.
  destruct (Nat.eqb (List.length (filter _ _)) 0); split; reflexivity.
Qed.

Lemma filter_all_ended (n : nat) (l : list (Source num)) :
  (forall s, In s l -> In (node s) [n]) ->
  filter (fun s => negb (Nat.eqb (node s) n)) l = [].
Proof.
  induction l as [|s l IHl]; intro Hcov; [reflexivity|].
  cbn [filter]. destruct (Hcov s (or_introl eq_refl)) as [H|[]].
  rewrite <- H, Nat.eqb_refl. cbn [negb]. apply IHl.
  intros s' Hs'. apply Hcov. right. exact Hs'.
Qed.

Lemma ended_all (nodes : list nat) :
  forall w : World num Blob,
  nodes <> [] ->
  (forall s, In s (sourcesRef (comp w)) -> In (node s) nodes) ->
  exists w' : World num Blob,
    runSteps host (map (@Ended num) nodes) w = (Returned tt, w')
    /\ sourcesRef (comp w') = []
    /\ isSpeaking (comp w') = false.
Proof.
  induction nodes as [|n rest IH]; intros w Hne Hcov; [contradiction|].
  cbn [map runSteps runStep]. unfold bind. rewrite onended_runs.
  destruct (afterEnded_fields n w) as [Hsrc Hsp]. cbv zeta in Hsrc, Hsp.
  destruct rest as [|m rest'].
  - exists (afterEnded n w). split; [reflexivity|].
    rewrite Hsrc, Hsp, (filter_all_ended _ Hcov). split; reflexivity.
  - apply IH; [discriminate|].
    intros s Hs. rewrite Hsrc in Hs. apply filter_In in Hs. destruct Hs as [Hin Hn].
    destruct (Hcov s Hin) as [H|H]; [|exact H].
    rewrite <- H, Nat.eqb_refl in Hn. discriminate.
Qed.

(** X4.  When every source of the active set has ended, in whatever order
    the [onended] callbacks come (and even if some come twice or for sources
    long gone), the set is empty and the speaking indicator is off; and an
    [onended] that leaves another source in the set does not touch the
    indicator. *)
Theorem speaking_ends_with_the_last_source :
  forall (nodes : list nat) (w : World num Blob),
  nodes <> [] ->
  (forall s, In s (sourcesRef (comp w)) -> In (node s) nodes) ->
  (exists w' : World num Blob,
     runSteps host (map (@Ended num) nodes) w = (Returned tt, w')
     /\ sourcesRef (comp w') = []
     /\ isSpeaking (comp w') = false)
  /\ (forall (n : nat) (s : Source num),
        In s (sourcesRef (comp w)) -> node s <> n ->
        isSpeaking (comp (after (@onended num Blob n) w)) = isSpeaking (comp w)
        /\ In s (sourcesRef (comp (after (@onended num Blob n) w)))).
Proof.
  intros nodes w Hne Hcov. split; [apply ended_all; assumption|].
  intros n s Hin Hn. unfold after. rewrite onended_runs. cbn [snd].
  destruct (afterEnded_fields n w) as [Hsrc Hsp]. cbv zeta in Hsrc, Hsp.
  assert (Hs : In s (filter (fun s => negb (Nat.eqb (node s) n)) (sourcesRef (comp w)))).
  { apply filter_In. split; [exact Hin|].
    apply Nat.eqb_neq in Hn. rewrite Hn. reflexivity. }
  rewrite Hsrc, Hsp. split; [|exact Hs].
  destruct (filter _ _); [destruct Hs | reflexivity].
Qed.

End SourcesEnding.

(** ** Starting a session *)

Section Starting.

Variable num : Type.
Context {NUM : JSNumber num}.
Variable Blob : Type.
Variable host : Host num Blob.

(** X5.  A start request that is not refused for being re-entrant first tears
    the old session down: the calls of [cleanup] on the old component come
    before the microphone is requested, and only then may a connection be
    made; the session the component ends up with is none or a new one, never
    one handed out before. *)
Theorem startSession_tears_down_first :
  forall w : World num Blob,
  isConnecting (comp w) = false ->
  exists (w' : World num Blob) (later : list (Effect num Blob)),
    startSession host w = (Returned tt, w')
    /\ log w' = log w ++ @cleanupCalls num Blob (comp w) ++ GetUserMedia :: later
    /\ (forall s, ~ In (SessionClose s) later)
    /\ (sessionRef (comp w') = None
        \/ exists s', sessionRef (comp w') = Some s'
                      /\ nextNode w <= s' /\ In (LiveConnect s') later).
Proof.
  intros w Hc. rewrite startSession_runs. unfold afterStartSession. rewrite Hc.
  destruct (throws host GetUserMedia) as [m|].
  - eexists; exists []. split; [reflexivity|]. cbn [log comp].
    split; [rewrite <- app_assoc; reflexivity|]. split; [intros s []|].
    left. destruct w as [c l n]; destruct c; reflexivity.
  - destruct (throws host (LiveConnect (S (S (S (nextNode w)))))) as [m|];
      eexists; eexists; (split; [reflexivity|]); cbn [log comp];
      (split; [rewrite <- app_assoc; unfold setupCalls; reflexivity|]);
      (split; [intros s [H|[H|[H|[H|[]]]]]; discriminate|]).
    + left. destruct w as [c l n]; destruct c; reflexivity.
    + right. exists (S (S (S (nextNode w)))).
      split; [destruct w as [c l n]; destruct c; reflexivity|].
      split; [lia|]. right. right. right. left. reflexivity.
Qed.

(** X6.  How a start ends.  Refused microphone: the friendly message of the
    failure is in [error], [isConnecting] is false again, there is no session
    and no audio context.  Refused connection: the same, except that the two
    audio contexts and the gain node created before the connection stay in
    their refs.  Otherwise: no error, [isConnecting] still true (until
    [onopen]), and session, contexts and gain node are four different new
    handles.  A start while connecting changes nothing. *)
Theorem startSession_outcomes :
  forall w : World num Blob,
  let w' := after (startSession host) w in
  let c' := comp w' in
  (isConnecting (comp w) = true -> w' = w)
  /\ (isConnecting (comp w) = false ->
      (forall m, throws host GetUserMedia = Some m ->
         error c' = Some (getFriendlyErrorMessage host m)
         /\ isConnecting c' = false /\ sessionRef c' = None
         /\ audioContextInRef c' = None /\ audioContextOutRef c' = None
         /\ outputGainNodeRef c' = None)
      /\ (throws host GetUserMedia = None ->
          exists a b g s,
            a = nextNode w /\ b = S a /\ g = S b /\ s = S g
            /\ audioContextInRef c' = Some a /\ audioContextOutRef c' = Some b
            /\ outputGainNodeRef c' = Some g
            /\ (forall m, throws host (LiveConnect s) = Some m ->
                  error c' = Some (getFriendlyErrorMessage host m)
                  /\ isConnecting c' = false /\ sessionRef c' = None)
            /\ (throws host (LiveConnect s) = None ->
                  error c' = None /\ isConnecting c' = true
                  /\ sessionRef c' = Some s))).
Proof.
  intros w w' c'. subst c' w'. unfold after. rewrite startSession_runs. cbn [snd].
  unfold afterStartSession. split.
  - intro H. rewrite H. reflexivity.
  - intro H. rewrite H. split.
    + intros m Hm. rewrite Hm.
      destruct w as [c l n]; destruct c. repeat split; reflexivity.
    + intro Hg. rewrite Hg.
      exists (nextNode w), (S (nextNode w)), (S (S (nextNode w))),
             (S (S (S (nextNode w)))).
      repeat (split; [reflexivity|]).
      destruct (throws host (LiveConnect (S (S (S (nextNode w)))))) as [m|];
        destruct w as [c l n]; destruct c; cbn.
      * split; [reflexivity|]. split; [reflexivity|]. split; [reflexivity|].
        split; [|intro Hm0; discriminate].
        intros m0 Hm0. injection Hm0 as <-. repeat split; reflexivity.
      * split; [reflexivity|]. split; [reflexivity|]. split; [reflexivity|].
        split; [intros m0 Hm0; discriminate|].
        intros _. repeat split; reflexivity.
Qed.

End Starting.

(** ** Error messages *)

Lemma isPrefix_spec (p s : jsstring) :
  isPrefix p s = true <-> exists b, s = p ++ b.
Proof.
  revert s; induction p as [|x p IH]; intro s.
  - split; [intros _; exists s; reflexivity | reflexivity].
  - destruct s as [|y s]; cbn [isPrefix].
    + split; [discriminate | intros [b H]; discriminate].
    + rewrite andb_true_iff, N.eqb_eq, IH. split.
      * intros [-> [b ->]]. exists b. reflexivity.
      * intros [b H]. injection H as -> ->. split; [reflexivity | exists b; reflexivity].
Qed.

(** [includes] finds a substring exactly when there is one. *)
Lemma includes_spec (p s : jsstring) :
  includes p s = true <-> exists a b, s = a ++ p ++ b.
Proof.
  induction s as [|y s IH].
  - cbn [includes]. rewrite orb_false_r, isPrefix_spec. split.
    + intros [b H]. exists [], b. exact H.
    + intros (a & b & H). destruct a as [|x a]; [exists b; exact H | discriminate].
  - cbn [includes]. rewrite orb_true_iff, isPrefix_spec, IH. split.
    + intros [[b H] | (a & b & H)].
      * exists [], b. exact H.
      * exists (y :: a), b. rewrite H. reflexivity.
    + intros (a & b & H). destruct a as [|x a].
      * left. exists b. exact H.
      * right. injection H as _ H. exists a, b. exact H.
Qed.

Section ErrorMessages.

Variable num : Type.
Context {NUM : JSNumber num}.
Variable Blob : Type.
Variable host : Host num Blob.

(** X7.  The text the function works on is [err.message] when the error
    has a non-empty one and [String(err)] otherwise.  The message shown is
    never empty and never longer than 72 code units.  Offline, it says so
    whatever the failure was; online, it is the microphone message exactly
    when that text contains "Permission denied", and otherwise the first 50
    code units of that text between "An error occurred: " and "...". *)
Theorem friendly_message_is_short_and_classified :
  forall err : JSError,
  let text := messageOf err in
  let m := getFriendlyErrorMessage host err in
  (forall t, message err = Some t -> t <> [] -> text = t)
  /\ (message err = None \/ message err = Some [] -> text = toString err)
  /\ m <> []
  /\ (List.length m <= 72)%nat
  /\ (onLine host = false -> m = str "You seem to be offline.")
  /\ (onLine host = true ->
      ((exists a b, text = a ++ str "Permission denied" ++ b) ->
       m = str "Microphone access denied.")
      /\ (~ (exists a b, text = a ++ str "Permission denied" ++ b) ->
          m = str "An error occurred: " ++ firstn 50 text ++ str "...")).
Proof.
  intros err text m. subst m.
  split.
  { intros t E N. subst text. unfold messageOf. rewrite E.
    destruct t; [contradiction | reflexivity]. }
  split.
  { intros [E|E]; subst text; unfold messageOf; rewrite E; reflexivity. }
  unfold getFriendlyErrorMessage. fold text.
  destruct (onLine host); cbn [negb].
  - destruct (includes (str "Permission denied") text) eqn:I.
    + apply includes_spec in I.
      split; [discriminate|]. split; [vm_compute; lia|].
      split; [discriminate|]. intros _. split; [reflexivity|].
      intro H. contradiction.
    + assert (N : ~ (exists a b, text = a ++ str "Permission denied" ++ b)).
      { intro H. apply includes_spec in H. rewrite H in I. discriminate. }
      split; [discriminate|]. split.
      * rewrite !length_app, length_firstn.
        change (List.length (str "An error occurred: ")) with 19%nat.
        change (List.length (str "...")) with 3%nat. lia.
      * split; [discriminate|]. intros _. split; [|reflexivity].
        intro H. contradiction.
  - split; [discriminate|]. split; [vm_compute; lia|].
    split; [reflexivity|]. discriminate.
Qed.

End ErrorMessages.

(** ** More on the grammar check *)

Lemma jsstring_eqb_eq (a b : jsstring) : jsstring_eqb a b = true <-> a = b.
Proof.
  revert b; induction a as [|x a IH]; intros [|y b]; cbn [jsstring_eqb];
    try (split; [reflexivity | reflexivity]);
    try (split; discriminate).
  rewrite andb_true_iff, N.eqb_eq, IH. split.
  - intros [-> ->]. reflexivity.
  - intro H. injection H as -> ->. split; reflexivity.
Qed.

Section GrammarReplies.

Variable num : Type.
Context {NUM : JSNumber num}.
Variable Blob : Type.
Variable host : Host num Blob.

Lemma correctionFor_none (t : jsstring) :
  reply_status (grammarService host t) <> Some (str "CORRECTION")
  \/ correctedText (grammarService host t) = None
  \/ correctedText (grammarService host t) = Some [] ->
  correctionFor host t = None.
Proof.
  unfold correctionFor. intros H.
  destruct (reply_status (grammarService host t)) as [st|]; [|reflexivity].
  destruct (correctedText (grammarService host t)) as [c|]; [|reflexivity].
  destruct (jsstring_eqb st (str "CORRECTION")) eqn:E; [|reflexivity].
  apply jsstring_eqb_eq in E. subst st.
  destruct H as [H | [H | H]]; [contradiction | discriminate |].
  injection H as ->. reflexivity.
Qed.

(** X8.  A grammar check changes no entry when the request fails, when the
    status of the reply is not exactly "CORRECTION", or when the reply has no
    corrected text or an empty one; it returns all the same, and a failed
    request leaves a warning after the request in the log. *)
Theorem checkGrammar_changes_nothing_without_a_correction :
  forall (challenge : option Challenge) (t : jsstring) (ts : num)
         (w : World num Blob),
  throws host (GenerateContent t) <> None
  \/ reply_status (grammarService host t) <> Some (str "CORRECTION")
  \/ correctedText (grammarService host t) = None
  \/ correctedText (grammarService host t) = Some [] ->
  exists w' : World num Blob,
    checkGrammar host challenge t ts w = (Returned tt, w')
    /\ comp w' = comp w
    /\ (returnsEarly challenge t = false ->
        throws host (GenerateContent t) <> None ->
        log w' = log w ++ [GenerateContent t; ConsoleWarn]).
Proof.
  intros challenge t ts w H. eexists. split; [apply checkGrammar_runs|].
  unfold afterCheckGrammar.
  destruct (returnsEarly challenge t); [split; [reflexivity | discriminate]|].
  destruct (throws host (GenerateContent t)) as [m|] eqn:T.
  - split; [reflexivity|]. intros _ _. cbn. rewrite <- app_assoc. reflexivity.
  - destruct H as [H|H]; [contradiction|].
    rewrite (correctionFor_none t H). split; [reflexivity|].
    intros _ K. contradiction.
Qed.

(** X9.  Replies for the same timestamp: the later correction replaces the
    earlier one, so attaching twice is attaching the second; and corrections
    for timestamps that no entry matches both commute. *)
Theorem later_correction_wins :
  forall (ts : num) (c1 c2 : jsstring) (l : list (TranscriptionEntry num)),
  attachCorrection ts c2 (attachCorrection ts c1 l) = attachCorrection ts c2 l
  /\ forall ts' : num,
       (forall e, In e l ->
          neqb (timestamp e) ts && neqb (timestamp e) ts' = false) ->
       attachCorrection ts c1 (attachCorrection ts' c2 l)
       = attachCorrection ts' c2 (attachCorrection ts c1 l).
Proof.
  intros ts c1 c2 l. split.
  - unfold attachCorrection. rewrite map_map. apply map_ext. intro e.
    destruct (neqb (timestamp e) ts) eqn:E; cbn [timestamp]; rewrite E; reflexivity.
  - intros ts' H. unfold attachCorrection. rewrite !map_map.
    apply map_ext_in. intros e He. specialize (H e He).
    destruct (neqb (timestamp e) ts) eqn:E1, (neqb (timestamp e) ts') eqn:E2;
      cbn [timestamp]; rewrite ?E1, ?E2; try reflexivity.
    discriminate.
Qed.

Lemma onmessage_entries_exact (msg : LiveServerMessage) (ct now1 now2 : num)
  (w : World num Blob) :
  entries (comp (after (onmessage host msg ct now1 now2) w))
  = entries (comp w)
    ++ (if turnComplete msg
        then finalized
               {| input := accumulated (input (transcriptionRef (comp w)))
                             (inputTranscription msg);
                  output := accumulated (output (transcriptionRef (comp w)))
                              (outputTranscription msg) |} now1 now2
        else []).
Proof.
  unfold after. rewrite onmessage_runs. cbn [snd].
  rewrite afterTurnComplete_entries.
  destruct (afterDeltas_transcript msg (afterInterrupted msg (afterAudio host msg ct w)))
    as [E1 E2].
  destruct (afterInterrupted_keeps_transcript msg (afterAudio host msg ct w)) as [E3 E4].
  destruct (afterAudio_keeps_transcript host msg ct w) as [E5 E6].
  rewrite E1, E2, E3, E4, E5, E6. reflexivity.
Qed.

(** X10.  The correction is keyed by the timestamp alone.  When both texts of
    a turn are finalized and the two [Date.now()] of the turn read the same,
    the correction the service returns for the user's text ends up on the
    agent's entry of that turn as well as on the user's. *)
Theorem correction_lands_on_both_entries_of_a_turn :
  forall (challenge : option Challenge) (msg : LiveServerMessage)
         (currentTime now : num) (corrected : jsstring) (w : World num Blob),
  let accIn := accumulated (input (transcriptionRef (comp w))) (inputTranscription msg) in
  let accOut := accumulated (output (transcriptionRef (comp w))) (outputTranscription msg) in
  let w1 := after (onmessage host msg currentTime now now) w in
  let w2 := after (checkGrammar host challenge (trim accIn) now) w1 in
  turnComplete msg = true ->
  truthy (trim accIn) = true ->
  truthy (trim accOut) = true ->
  neqb now now = true ->
  returnsEarly challenge (trim accIn) = false ->
  throws host (GenerateContent (trim accIn)) = None ->
  correctionFor host (trim accIn) = Some corrected ->
  entries (comp w2)
  = attachCorrection now corrected (entries (comp w))
    ++ [ {| role := user; text := accIn; timestamp := now;
            correction := Some corrected |};
         {| role := model; text := accOut; timestamp := now;
            correction := Some corrected |} ].
Proof.
  intros challenge msg ct now corrected w accIn accOut w1 w2
         Htc Hin Hout Hnow Hg Ht Hc.
  assert (E1 : entries (comp w1)
               = entries (comp w)
                 ++ [ {| role := user; text := accIn; timestamp := now;
                         correction := None |};
                      {| role := model; text := accOut; timestamp := now;
                         correction := None |} ]).
  { subst w1. rewrite onmessage_entries_exact, Htc. unfold finalized.
    cbn [input output]. fold accIn accOut. rewrite Hin, Hout. reflexivity. }
  subst w2. unfold after. rewrite checkGrammar_runs. cbn [snd].
  unfold afterCheckGrammar. rewrite Hg, Ht, Hc.
  assert (E2 : entries (comp
                 {| comp := setEntries (attachCorrection now corrected)
                              (comp (emit (GenerateContent (trim accIn)) w1));
                    log := log (emit (GenerateContent (trim accIn)) w1);
                    nextNode := nextNode (emit (GenerateContent (trim accIn)) w1) |})
               = attachCorrection now corrected (entries (comp w1))).
  { destruct w1 as [c1 l1 n1]; destruct c1; reflexivity. }
  rewrite E2, E1. unfold attachCorrection. rewrite map_app. cbn [map timestamp].
  rewrite Hnow. reflexivity.
Qed.

End GrammarReplies.

(** ** Buffers never overlap *)

Section NoOverlap.

Variable Blob : Type.
Variable host : Host R Blob.

Local Open Scope R_scope.

(** [srcs] are the sources of [msgs], one each, and every source starts no
    earlier than [next], the end of the source before it (for the first
    one, [nextStartTime] as the run found it), and no earlier than the reading
    of the output clock its message was handled at; it starts at one of
    the two. *)
Fixpoint chained (next : R) (msgs : list (Inbound R)) (srcs : list (Source R)) : Prop :=
  match msgs, srcs with
  | [], [] => True
  | i :: msgs', s :: srcs' =>
      next <= startTime s
      /\ in_currentTime i <= startTime s
      /\ (startTime s = next \/ startTime s = in_currentTime i)
      /\ duration (buffer s) = durationOf host i
      /\ chained (startTime s + duration (buffer s) / playbackRate s) msgs' srcs'
  | _, _ => False
  end.

(** X11.  Whenever the messages arrive, as long as none interrupts: each
    buffer is started no earlier than the end of the buffer before it and
    no earlier than the present of the output clock, and exactly at the
    later of the two.  Scheduled buffers never overlap and are never started
    in the past. *)
Theorem buffers_never_overlap :
  forall (msgs : list (Inbound R)) (w : World R Blob),
  playing (comp w) ->
  Forall (fun i => carriesAudio i /\ interrupted (in_msg i) = false) msgs ->
  exists (srcs : list (Source R)) (w' : World R Blob),
    inboundRun host msgs w = (Returned tt, w')
    /\ scheduledOf (log w') = scheduledOf (log w) ++ srcs
    /\ chained (nextStartTimeRef (comp w)) msgs srcs.
Proof.
  induction msgs as [|i rest IH]; intros w Hpl Hall.
  - exists [], w. split; [reflexivity|]. split; [rewrite app_nil_r; reflexivity|].
    exact I.
  - inversion Hall as [|x l [Hau Hni] Hrest]; subst x l.
    destruct (@one_buffer R _ Blob host i w Hpl Hau Hni)
      as (s & w1 & E & Hsame & Hlog & Hst & Hrate & Hdur & Hnext & _).
    destruct (IH w1 (playing_same Hsame Hpl) Hrest) as (srcs & w' & E' & Hlog' & Hch).
    exists (s :: srcs), w'.
    split.
    { change (inboundRun host (i :: rest))
        with (bind (onmessage host (in_msg i) (in_currentTime i)
                      (in_now1 i) (in_now2 i))
                (fun _ => inboundRun host rest)).
      unfold bind at 1. rewrite E. exact E'. }
    split; [rewrite Hlog', Hlog, <- app_assoc; reflexivity|].
    cbn [chained]. change (nmax ?a ?b) with (Rmax a b) in Hst.
    split; [rewrite Hst; apply Rmax_l|].
    split; [rewrite Hst; apply Rmax_r|].
    split.
    { rewrite Hst. unfold Rmax.
      destruct (Rle_dec (nextStartTimeRef (comp w)) (in_currentTime i));
        [right | left]; reflexivity. }
    split; [exact Hdur|].
    change (nadd ?a (ndiv ?b ?c)) with (a + b / c) in Hnext.
    rewrite <- Hnext. exact Hch.
Qed.

End NoOverlap.

(** ** The properties above on concrete runs *)

(** The one buffer of [playingF] ends: the set is empty, the tutor no longer
    speaks. *)
Lemma speaking_ends_witness :
  map (@node float) (sourcesRef (comp playingF)) <> []
  /\ exists w' : World float (list float),
       runSteps hostF (map (@Ended float) (map (@node float) (sourcesRef (comp playingF))))
         playingF = (Returned tt, w')
       /\ sourcesRef (comp w') = []
       /\ isSpeaking (comp w') = false.
Proof.
  assert (H1 : map (@node float) (sourcesRef (comp playingF)) <> [])
    by (vm_compute; discriminate).
  split; [exact H1|].
  destruct (@speaking_ends_with_the_last_source float _ (list float) hostF
              (map (@node float) (sourcesRef (comp playingF))) playingF H1
              (fun s H => in_map (@node float) _ s H))
    as [H _].
  exact H.
Defined.

(** A second start on the opened session closes the first session before
    it asks for the microphone again. *)
Lemma startSession_tears_down_witness :
  isConnecting (comp openedF) = false
  /\ exists (w' : World float (list float)) (later : list (Effect float (list float))),
       startSession hostF openedF = (Returned tt, w')
       /\ log w' = log openedF ++ @cleanupCalls float (list float) (comp openedF)
                     ++ GetUserMedia :: later
       /\ (forall s, ~ In (SessionClose s) later).
Proof.
  split; [reflexivity|].
  destruct (@startSession_tears_down_first float (list float) hostF openedF eq_refl)
    as (w' & later & E & Hlog & Hno & _).
  exists w', later. split; [exact E|]. split; [exact Hlog | exact Hno].
Defined.

(** A host like [hostF] whose grammar requests fail. *)
Definition hostNoGrammar : Host float (list float) :=
  {| throws := fun e =>
       match e with
       | GenerateContent _ =>
           Some {| message := Some (str "503"); toString := str "Error: 503" |}
       | _ => None
       end;
     createPcmBlob := fun frame => frame;
     decodeAudioData := fun _ => {| duration := 1.5%float |};
     grammarService := grammarService hostF;
     onLine := true |}.

Lemma checkGrammar_failure_witness :
  exists w' : World float (list float),
    checkGrammar hostNoGrammar None (str "I is") 1000%float openedF = (Returned tt, w')
    /\ comp w' = comp openedF
    /\ log w' = log openedF ++ [GenerateContent (str "I is"); ConsoleWarn].
Proof.
  destruct (@checkGrammar_changes_nothing_without_a_correction float _ (list float)
              hostNoGrammar None (str "I is") 1000%float openedF)
    as (w' & E & Hc & Hl).
  - left. cbn. discriminate.
  - exists w'. split; [exact E|]. split; [exact Hc|].
    apply Hl; [vm_compute; reflexivity | cbn; discriminate].
Defined.

(** A turn whose two entries get the same [Date.now()]: the correction of
    "I is" lands on the tutor's "Hello!" too. *)
Definition turnToCorrect : LiveServerMessage :=
  {| inlineData := None;
     interrupted := false;
     inputTranscription := Some (Some (str " I is"));
     outputTranscription := Some (Some (str "Hello!"));
     turnComplete := true |}.

Lemma correction_on_both_witness :
  entries (comp (after (checkGrammar hostF None (str "I is") 1000%float)
                   (after (onmessage hostF turnToCorrect 0%float 1000%float 1000%float)
                      openedF)))
  = [ {| role := user; text := str " I is"; timestamp := 1000%float;
         correction := Some (str "I am") |};
      {| role := model; text := str "Hello!"; timestamp := 1000%float;
         correction := Some (str "I am") |} ].
Proof.
  apply (@correction_lands_on_both_entries_of_a_turn float _ (list float) hostF
           None turnToCorrect 0%float 1000%float (str "I am") openedF);
    vm_compute; reflexivity.
Defined.

(** Three buffers of 3 s at clock 1, 2 and 9: the third arrives after the
    second has ended and starts at its own arrival. *)
Lemma buffers_never_overlap_witness :
  playing (comp openedR)
  /\ Forall (fun i => carriesAudio i /\ interrupted (in_msg i) = false)
       [arrival 1%R; arrival 2%R; arrival 9%R]
  /\ exists (srcs : list (Source R)) (w' : World R unit),
       inboundRun hostR [arrival 1%R; arrival 2%R; arrival 9%R] openedR
       = (Returned tt, w')
       /\ scheduledOf (log w') = scheduledOf (log openedR) ++ srcs
       /\ chained hostR (nextStartTimeRef (comp openedR))
            [arrival 1%R; arrival 2%R; arrival 9%R] srcs.
Proof.
  assert (H2 : Forall (fun i => carriesAudio i /\ interrupted (in_msg i) = false)
                 [arrival 1%R; arrival 2%R; arrival 9%R])
    by (repeat constructor; apply carriesAudio_arrival).
  split; [exact playing_openedR|]. split; [exact H2|].
  exact (@buffers_never_overlap unit hostR
           [arrival 1%R; arrival 2%R; arrival 9%R] openedR playing_openedR H2).
Defined.

(** ** After teardown *)

Section AfterTeardown.

Variable num : Type.
Context {NUM : JSNumber num}.
Variable Blob : Type.
Variable host : Host num Blob.













End AfterTeardown.




(** ** A turn, delta by delta *)

Section TurnAssembly.

Variable num : Type.
Context {NUM : JSNumber num}.
Variable Blob : Type.
Variable host : Host num Blob.

(** What a message adds to an accumulator: nothing when it carries no
    transcription, the text of the transcription when it has one, and
    "undefined" when the transcription has no text. *)
Definition deltaOf (d : option (option jsstring)) : jsstring :=
  match d with Some t => appended t | None => [] end.

(** The input and output deltas of a run of messages, in order. *)
Definition deltasIn (msgs : list (Inbound num)) : jsstring :=
  List.concat (map (fun i => deltaOf (inputTranscription (in_msg i))) msgs).

Definition deltasOut (msgs : list (Inbound num)) : jsstring :=
  List.concat (map (fun i => deltaOf (outputTranscription (in_msg i))) msgs).

Lemma accumulated_deltaOf (acc : jsstring) (d : option (option jsstring)) :
  accumulated acc d = acc ++ deltaOf d.
Proof. destruct d; [reflexivity | symmetry; apply app_nil_r]. Qed.

(** The accumulators after a message, whatever the message. *)
Lemma onmessage_transcript (msg : LiveServerMessage) (ct now1 now2 : num)
  (w : World num Blob) :
  transcriptionRef (comp (after (onmessage host msg ct now1 now2) w))
  = if turnComplete msg then {| input := []; output := [] |}
    else {| input := input (transcriptionRef (comp w))
                     ++ deltaOf (inputTranscription msg);
            output := output (transcriptionRef (comp w))
                      ++ deltaOf (outputTranscription msg) |}.
Proof.
  unfold after. rewrite onmessage_runs. cbn [snd].
  destruct (afterDeltas_transcript msg (afterInterrupted msg (afterAudio host msg ct w)))
    as [E1 _].
  destruct (afterInterrupted_keeps_transcript msg (afterAudio host msg ct w)) as [E3 _].
  destruct (afterAudio_keeps_transcript host msg ct w) as [E5 _].
  unfold afterTurnComplete. destruct (turnComplete msg).
  - destruct (afterOutput msg _) as [c l n]; destruct c. reflexivity.
  - rewrite E1, E3, E5, !accumulated_deltaOf. reflexivity.
Qed.

Lemma inboundRun_cons (i : Inbound num) (rest : list (Inbound num))
  (w : World num Blob) :
  inboundRun host (i :: rest) w
  = inboundRun host rest
      (after (onmessage host (in_msg i) (in_currentTime i) (in_now1 i) (in_now2 i)) w).
Proof.
  cbn [inboundRun]. unfold bind, after. rewrite onmessage_runs. reflexivity.
Qed.

Lemma turn_assembled (body : list (Inbound num)) :
  forall (last : Inbound num) (w : World num Blob),
  Forall (fun i => turnComplete (in_msg i) = false) body ->
  turnComplete (in_msg last) = true ->
  exists (w1 w' : World num Blob),
    inboundRun host body w = (Returned tt, w1)
    /\ entries (comp w1) = entries (comp w)
    /\ inboundRun host (body ++ [last]) w = (Returned tt, w')
    /\ entries (comp w')
       = entries (comp w)
         ++ finalized
              {| input := input (transcriptionRef (comp w)) ++ deltasIn (body ++ [last]);
                 output := output (transcriptionRef (comp w)) ++ deltasOut (body ++ [last]) |}
              (in_now1 last) (in_now2 last)
    /\ transcriptionRef (comp w') = {| input := []; output := [] |}.
Proof.
  induction body as [|i rest IH]; intros last w Hb Hl.
  - exists w. eexists. split; [reflexivity|]. split; [reflexivity|].
    cbn [app]. split; [rewrite inboundRun_cons; reflexivity|].
    rewrite (@onmessage_entries_exact num NUM Blob host), onmessage_transcript, Hl.
    rewrite !accumulated_deltaOf. unfold deltasIn, deltasOut.
    cbn [map List.concat]. rewrite !app_nil_r. split; reflexivity.
  - inversion Hb as [|x l Hi Hrest]; subst x l.
    set (w0 := after (onmessage host (in_msg i) (in_currentTime i)
                        (in_now1 i) (in_now2 i)) w).
    assert (En : entries (comp w0) = entries (comp w)).
    { subst w0. rewrite (@onmessage_entries_exact num NUM Blob host), Hi.
      apply app_nil_r. }
    assert (Et : transcriptionRef (comp w0)
                 = {| input := input (transcriptionRef (comp w))
                               ++ deltaOf (inputTranscription (in_msg i));
                      output := output (transcriptionRef (comp w))
                                ++ deltaOf (outputTranscription (in_msg i)) |}).
    { subst w0. rewrite onmessage_transcript, Hi. reflexivity. }
    destruct (IH last w0 Hrest Hl) as (w1 & w' & E1 & N1 & E & N & T).
    exists w1, w'.
    split; [rewrite inboundRun_cons; exact E1|].
    split; [rewrite N1; exact En|].
    split; [cbn [app]; rewrite inboundRun_cons; exact E|].
    split; [|exact T].
    rewrite N, En, Et. cbn [input output app]. unfold deltasIn, deltasOut.
    cbn [map List.concat]. rewrite <- !app_assoc. reflexivity.
Qed.

(** X16.  A turn is the concatenation of its deltas.  Over messages whose
    audio, where the handler plays it, decodes, and of which only the last
    completes the turn: whichever of them interrupt and whatever state the
    component is in, nothing is appended before the last message, and the
    entries appended then are those of the accumulators as they stood,
    followed by what every input, respectively output, transcription added,
    in order of arrival: its text, or "undefined" when it has none; the
    accumulators are empty afterwards.  A message whose audio the handler
    would play but cannot decode adds nothing: its handler ends at the
    decoder, and its transcriptions and its turn-complete flag are lost. *)
Theorem turn_is_the_concatenation_of_its_deltas :
  (forall (body : list (Inbound num)) (last : Inbound num) (w : World num Blob),
   Forall (fun i => turnComplete (in_msg i) = false) body ->
   turnComplete (in_msg last) = true ->
   exists (w1 w' : World num Blob),
     inboundRun host body w = (Returned tt, w1)
     /\ entries (comp w1) = entries (comp w)
     /\ inboundRun host (body ++ [last]) w = (Returned tt, w')
     /\ entries (comp w')
        = entries (comp w)
          ++ finalized
               {| input := input (transcriptionRef (comp w)) ++ deltasIn (body ++ [last]);
                  output := output (transcriptionRef (comp w)) ++ deltasOut (body ++ [last]) |}
               (in_now1 last) (in_now2 last)
     /\ transcriptionRef (comp w') = {| input := []; output := [] |})
  /\ (forall (err : JSError) (i : Inbound num) (w : World num Blob),
      audible (in_msg i) (comp w) <> None ->
      exists w' : World num Blob,
        onmessageUndecodable host err (in_msg i) (in_currentTime i)
          (in_now1 i) (in_now2 i) w = (Thrown err, w')
        /\ entries (comp w') = entries (comp w)
        /\ transcriptionRef (comp w') = transcriptionRef (comp w))
  /\ (forall acc : jsstring,
      accumulated acc (Some None) = acc ++ str "undefined"
      /\ (forall t, accumulated acc (Some (Some t)) = acc ++ t)
      /\ accumulated acc None = acc).
Proof.
  split; [intros body last w; apply turn_assembled|]. split.
  - intros err i w Ha. rewrite onmessageUndecodable_runs.
    destruct (audible (in_msg i) (comp w)); [|contradiction].
    eexists. split; [reflexivity|].
    destruct w as [c l n]; destruct c; split; reflexivity.
  - intro acc. repeat split.
Qed.

End TurnAssembly.

(** "Bon", an interruption whose transcription has no text, then "jour" and
    the end of the turn. *)
Definition deltaF (interrupts : bool) (t : option string) (complete : bool)
  : Inbound float :=
  {| in_msg := {| inlineData := None; interrupted := interrupts;
                  inputTranscription := Some (option_map str t);
                  outputTranscription := None;
                  turnComplete := complete |};
     in_currentTime := 0%float; in_now1 := 1000%float; in_now2 := 1001%float |}.

Lemma turn_assembly_witness :
  exists w' : World float (list float),
    inboundRun hostF [deltaF false (Some "Bon"%string) false; deltaF true None false;
                      deltaF false (Some "jour"%string) true] openedF
    = (Returned tt, w')
    /\ map (@text float) (entries (comp w')) = [str "Bonundefinedjour"].
Proof.
  destruct (proj1 (@turn_is_the_concatenation_of_its_deltas float _ (list float) hostF)
              [deltaF false (Some "Bon"%string) false; deltaF true None false]
              (deltaF false (Some "jour"%string) true) openedF)
    as (_ & w' & _ & _ & E & N & _).
  - repeat constructor.
  - reflexivity.
  - exists w'. split; [exact E|]. rewrite N. vm_compute. reflexivity.
Defined.

(** * The application shell *)

From stdpp Require Import gmap.

Module App.

(** ** The catalogue *)

(** [Language] and [Scenario] with the fields the shell reads; the strings
    that are only displayed or sent to the tutor (flag, nativeName,
    description, icon, prompt, details) are left out. *)
Record Language : Type := {
  lang_id : jsstring;
  lang_name : jsstring;
  voice : jsstring
}.

Record Scenario : Type := {
  sc_id : jsstring;
  title : jsstring
}.

Record VoiceDetail : Type := {
  voice_id : jsstring;
  voice_name : jsstring;
  description : jsstring
}.

Definition language_ (i n v : string) : Language :=
  {| lang_id := str i; lang_name := str n; voice := str v |}.

Definition LANGUAGES : list Language :=
  [ language_ "en" "English" "Puck";
    language_ "es" "Spanish" "Kore";
    language_ "fr" "French" "Zephyr";
    language_ "de" "German" "Charon";
    language_ "jp" "Japanese" "Fenrir";
    language_ "it" "Italian" "Kore";
    language_ "pt" "Portuguese" "Zephyr";
    language_ "kr" "Korean" "Puck";
    language_ "cn" "Chinese" "Charon";
    language_ "ru" "Russian" "Fenrir";
    language_ "ar" "Arabic" "Zephyr";
    language_ "in" "Hindi" "Kore";
    language_ "tr" "Turkish" "Puck";
    language_ "nl" "Dutch" "Charon";
    language_ "se" "Swedish" "Zephyr";
    language_ "no" "Norwegian" "Fenrir";
    language_ "dk" "Danish" "Kore";
    language_ "fi" "Finnish" "Puck";
    language_ "pl" "Polish" "Charon";
    language_ "gr" "Greek" "Zephyr";
    language_ "th" "Thai" "Kore";
    language_ "vn" "Vietnamese" "Puck";
    language_ "id" "Indonesian" "Fenrir";
    language_ "il" "Hebrew" "Charon";
    language_ "ua" "Ukrainian" "Zephyr" ].

Definition VOICE_DETAILS : list VoiceDetail :=
  [ {| voice_id := str "Puck"; voice_name := str "Puck";
       description := str "Energetic & Friendly" |};
    {| voice_id := str "Charon"; voice_name := str "Charon";
       description := str "Calm & Sophisticated" |};
    {| voice_id := str "Kore"; voice_name := str "Kore";
       description := str "Bright & Clear" |};
    {| voice_id := str "Fenrir"; voice_name := str "Fenrir";
       description := str "Deep & Resonant" |};
    {| voice_id := str "Zephyr"; voice_name := str "Zephyr";
       description := str "Smooth & Gentle" |} ].

Definition SCENARIOS : list Scenario :=
  [ {| sc_id := str "casual"; title := str "Casual Chat" |};
    {| sc_id := str "ordering"; title := str "At a Restaurant" |};
    {| sc_id := str "interview"; title := str "Job Interview" |};
    {| sc_id := str "travel"; title := str "Travel & Airport" |} ].

Definition DIFFICULTIES : list jsstring :=
  [ str "Beginner"; str "Intermediate"; str "Advanced" ].

(** ** State and storage *)

Inductive Status : Type := idle | connecting | active | error.

Record AppState : Type := {
  language : option Language;
  scenario : option Scenario;
  selectedVoice : option jsstring;
  difficulty : jsstring;
  status : Status
}.

(** [localStorage]: the string items, and what [JSON.parse] makes of the
    item 'polyglot_completions', which only ever holds the [JSON.stringify]
    of the completions. *)
Record LocalStorage : Type := {
  items : gmap jsstring jsstring;
  polyglot_completions : option (gmap jsstring bool)
}.

Definition pref_lang_id : jsstring := str "polyglot_pref_lang_id".
Definition pref_voice : jsstring := str "polyglot_pref_voice".
Definition pref_difficulty : jsstring := str "polyglot_pref_difficulty".

(** [x || y] on an item that may be missing: an empty string is falsy. *)
Definition orElse {A : Type} (saved : option jsstring) (f : jsstring -> A) (other : A) : A :=
  match saved with
  | Some v => if truthy v then f v else other
  | None => other
  end.

Definition initialLang (it : gmap jsstring jsstring) : option Language :=
  orElse (it !! pref_lang_id)
    (fun savedLangId => List.find (fun l => jsstring_eqb (lang_id l) savedLangId) LANGUAGES)
    None.

Definition initialState (it : gmap jsstring jsstring) : AppState :=
  {| language := initialLang it;
     scenario := None;
     selectedVoice :=
       orElse (it !! pref_voice) Some
         (match initialLang it with
          | Some l => Some (voice l)
          | None => None
          end);
     difficulty := orElse (it !! pref_difficulty) (fun d => d) (str "Intermediate");
     status := idle |}.

(** The effect that persists the preferences. *)
Definition persistPreferences (st : AppState) (it : gmap jsstring jsstring)
  : gmap jsstring jsstring :=
  let it1 := match language st with
             | Some l => <[pref_lang_id := lang_id l]> it
             | None => it
             end in
  let it2 := match selectedVoice st with
             | Some v => if truthy v then <[pref_voice := v]> it1 else it1
             | None => it1
             end in
  <[pref_difficulty := difficulty st]> it2.

Record Shell : Type := {
  state : AppState;
  completions : gmap jsstring bool;
  localStorage : LocalStorage
}.

(** The two effects, run after a render.  React skips an effect whose
    dependencies did not change; the items it would write are then the ones
    it wrote last, so running both every time leaves the same storage. *)
Definition effects (sh : Shell) : Shell :=
  {| state := state sh;
     completions := completions sh;
     localStorage :=
       {| items := persistPreferences (state sh) (items (localStorage sh));
          polyglot_completions := Some (completions sh) |} |}.

Definition mount (ls : LocalStorage) : Shell :=
  effects
    {| state := initialState (items ls);
       completions := match polyglot_completions ls with
                      | Some saved => saved
                      | None => ∅
                      end;
       localStorage := ls |}.

(** ** Handlers *)

Definition withState (f : AppState -> AppState) (sh : Shell) : Shell :=
  {| state := f (state sh); completions := completions sh;
     localStorage := localStorage sh |}.

Definition setStatus (s : Status) (st : AppState) : AppState :=
  {| language := language st; scenario := scenario st;
     selectedVoice := selectedVoice st; difficulty := difficulty st; status := s |}.

Definition handleLanguageSelect (lang : Language) (st : AppState) : AppState :=
  {| language := Some lang; scenario := scenario st;
     selectedVoice := Some (voice lang); difficulty := difficulty st;
     status := status st |}.

Definition selectVoice (v : jsstring) (st : AppState) : AppState :=
  {| language := language st; scenario := scenario st;
     selectedVoice := Some v; difficulty := difficulty st; status := status st |}.

Definition selectDifficulty (d : jsstring) (st : AppState) : AppState :=
  {| language := language st; scenario := scenario st;
     selectedVoice := selectedVoice st; difficulty := d; status := status st |}.

Definition selectScenario (sc : Scenario) (st : AppState) : AppState :=
  {| language := language st; scenario := Some sc;
     selectedVoice := selectedVoice st; difficulty := difficulty st;
     status := status st |}.

(** [state.language && state.scenario && state.selectedVoice] *)
Definition configured (st : AppState) : bool :=
  match language st, scenario st, selectedVoice st with
  | Some _, Some _, Some v => truthy v
  | _, _, _ => false
  end.

Definition handleStart (st : AppState) : AppState :=
  if configured st then setStatus active st else st.

Definition underscore : N := 95%N.

(** [`${language.id}_${scenarioId}`] *)
Definition completionKey (l : Language) (scenarioId : jsstring) : jsstring :=
  lang_id l ++ underscore :: scenarioId.

Definition handleEnd (completed : bool) (sh : Shell) : Shell :=
  {| state :=
       {| language := language (state sh); scenario := None;
          selectedVoice := selectedVoice (state sh);
          difficulty := difficulty (state sh); status := idle |};
     completions :=
       match completed, language (state sh), scenario (state sh) with
       | true, Some l, Some sc => <[completionKey l (sc_id sc) := true]> (completions sh)
       | _, _, _ => completions sh
       end;
     localStorage := localStorage sh |}.

Definition isScenarioCompleted (st : AppState) (cs : gmap jsstring bool)
  (scenarioId : jsstring) : bool :=
  match language st with
  | None => false
  | Some l =>
      match cs !! completionKey l scenarioId with
      | Some b => b
      | None => false
      end
  end.

(** What is rendered is the conversation, not the setup screen. *)
Definition showsConversation (st : AppState) : bool :=
  match status st with
  | active => configured st
  | _ => false
  end.

(** The clicks: a language, voice, difficulty or scenario button, the start
    button, the End button of the conversation view, which passes
    [entries.length >= 4], and the logo. *)
Inductive Event : Type :=
| SelectLanguage (lang : Language)
| SelectVoice (v : jsstring)
| SelectDifficulty (d : jsstring)
| SelectScenario (sc : Scenario)
| Start
| End_ (completed : bool)
| Logo.

Definition endButton {num : Type} (c : Component num) : Event :=
  End_ (4 <=? List.length (entries c))%nat.

Definition handler (e : Event) (sh : Shell) : Shell :=
  match e with
  | SelectLanguage lang => withState (handleLanguageSelect lang) sh
  | SelectVoice v => withState (selectVoice v) sh
  | SelectDifficulty d => withState (selectDifficulty d) sh
  | SelectScenario sc => withState (selectScenario sc) sh
  | Start => withState handleStart sh
  | End_ c => handleEnd c sh
  | Logo => withState (setStatus idle) sh
  end.

Definition handle (e : Event) (sh : Shell) : Shell := effects (handler e sh).

Definition run (events : list Event) (sh : Shell) : Shell :=
  fold_left (fun sh e => handle e sh) events sh.

(** The buttons are made from the catalogue. *)
Definition offered (e : Event) : Prop :=
  match e with
  | SelectLanguage lang => In lang LANGUAGES
  | SelectVoice v => In v (map voice_id VOICE_DETAILS)
  | SelectDifficulty d => In d DIFFICULTIES
  | SelectScenario sc => In sc SCENARIOS
  | _ => True
  end.

(** ** The catalogue is well formed *)

Definition wellFormed (l : Language) : bool :=
  truthy (lang_id l) && truthy (voice l)
  && negb (existsb (N.eqb underscore) (lang_id l)).

Lemma LANGUAGES_wellFormed (l : Language) :
  In l LANGUAGES ->
  truthy (lang_id l) = true /\ truthy (voice l) = true
  /\ ~ In underscore (lang_id l).
Proof.
  intro H.
  assert (W : forallb wellFormed LANGUAGES = true) by (vm_compute; reflexivity).
  rewrite forallb_forall in W. specialize (W l H). unfold wellFormed in W.
  apply andb_prop in W. destruct W as [W N]. apply andb_prop in W.
  destruct W as [W1 W2]. split; [exact W1|]. split; [exact W2|].
  intro I. apply negb_true_iff in N.
  assert (E : existsb (N.eqb underscore) (lang_id l) = true).
  { apply existsb_exists. exists underscore. split; [exact I | apply N.eqb_refl]. }
  rewrite E in N. discriminate.
Qed.

(** The identifiers of the catalogue are unique: looking a language up by
    its id finds that language. *)
Lemma find_offered (l : Language) :
  In l LANGUAGES ->
  List.find (fun l' => jsstring_eqb (lang_id l') (lang_id l)) LANGUAGES = Some l.
Proof.
  unfold LANGUAGES. cbn [In]. intro H.
  repeat (destruct H as [<-|H]; [vm_compute; reflexivity|]).
  destruct H.
Qed.

Lemma found_is_offered (i : jsstring) (l : Language) :
  List.find (fun l' => jsstring_eqb (lang_id l') i) LANGUAGES = Some l ->
  In l LANGUAGES.
Proof. intro H. apply find_some in H. apply H. Qed.

Lemma voices_truthy (v : jsstring) :
  In v (map voice_id VOICE_DETAILS) -> truthy v = true.
Proof.
  cbn. intro H. repeat (destruct H as [<-|H]; [reflexivity|]). destruct H.
Qed.

Lemma difficulties_truthy (d : jsstring) : In d DIFFICULTIES -> truthy d = true.
Proof.
  cbn. intro H. repeat (destruct H as [<-|H]; [reflexivity|]). destruct H.
Qed.

(** ** What every reachable state satisfies *)

Record good (st : AppState) : Prop := {
  good_language : forall l, language st = Some l -> In l LANGUAGES;
  good_voice : forall v, selectedVoice st = Some v -> truthy v = true;
  good_both : language st <> None -> selectedVoice st <> None;
  good_difficulty : truthy (difficulty st) = true;
  good_status : status st = idle
                \/ (status st = active /\ configured st = true)
}.

(** The state a reload yields from [st]. *)
Definition reloaded (st : AppState) : AppState :=
  {| language := language st; scenario := None;
     selectedVoice := selectedVoice st; difficulty := difficulty st;
     status := idle |}.

Lemma good_initialState (it : gmap jsstring jsstring) : good (initialState it).
Proof.
  unfold initialState, initialLang, orElse.
  constructor; cbn [language selectedVoice difficulty status].
  - intros l H. destruct (it !! pref_lang_id) as [i|]; [|discriminate].
    destruct (truthy i); [|discriminate]. exact (@found_is_offered i l H).
  - intros v H. destruct (it !! pref_voice) as [sv|].
    + destruct (truthy sv) eqn:T; [injection H as <-; exact T|].
      destruct (it !! pref_lang_id) as [i|]; [|discriminate].
      destruct (truthy i); [|discriminate].
      destruct (List.find _ LANGUAGES) as [l|] eqn:F; [|discriminate].
      injection H as <-. apply (@LANGUAGES_wellFormed l), (@found_is_offered i l F).
    + destruct (it !! pref_lang_id) as [i|]; [|discriminate].
      destruct (truthy i); [|discriminate].
      destruct (List.find _ LANGUAGES) as [l|] eqn:F; [|discriminate].
      injection H as <-. apply (@LANGUAGES_wellFormed l), (@found_is_offered i l F).
  - intros H K. destruct (it !! pref_lang_id) as [i|]; [|contradiction].
    destruct (truthy i); [|contradiction].
    destruct (List.find _ LANGUAGES) as [l|]; [|contradiction].
    destruct (it !! pref_voice) as [sv|]; [|discriminate].
    destruct (truthy sv); discriminate.
  - destruct (it !! pref_difficulty) as [d|]; [|reflexivity].
    destruct (truthy d) eqn:T; [exact T | reflexivity].
  - left. reflexivity.
Qed.

Ltac still_configured sh :=
  unfold configured, handleLanguageSelect, selectVoice, selectScenario in *;
  cbn [language scenario selectedVoice] in *;
  destruct (language (state sh)); [|discriminate];
  destruct (scenario (state sh)); [|discriminate].

Lemma good_handler (e : Event) (sh : Shell) :
  offered e -> good (state sh) -> good (state (handler e sh)).
Proof.
  intros He [Gl Gv Gb Gd Gs].
  destruct e as [lang|v|d|sc| |b| ]; cbn [handler withState handleEnd state].
  - destruct (@LANGUAGES_wellFormed _ He) as (_ & Tv & _).
    constructor; cbn [handleLanguageSelect language selectedVoice difficulty status].
    + intros l H. injection H as <-. exact He.
    + intros v H. injection H as <-. exact Tv.
    + intros _. discriminate.
    + exact Gd.
    + destruct Gs as [Gs|[Gs Gc]]; [left; exact Gs|]. right. split; [exact Gs|].
      still_configured sh. exact Tv.
  - constructor; cbn [selectVoice language selectedVoice difficulty status].
    + exact Gl.
    + intros v' H. injection H as <-. exact (@voices_truthy _ He).
    + intros _. discriminate.
    + exact Gd.
    + destruct Gs as [Gs|[Gs Gc]]; [left; exact Gs|]. right. split; [exact Gs|].
      still_configured sh. exact (@voices_truthy _ He).
  - constructor; cbn [selectDifficulty language selectedVoice difficulty status];
      try assumption.
    exact (@difficulties_truthy _ He).
  - constructor; cbn [selectScenario language selectedVoice difficulty status];
      try assumption.
    destruct Gs as [Gs|[Gs Gc]]; [left; exact Gs|]. right. split; [exact Gs|].
    still_configured sh. exact Gc.
  - unfold handleStart. destruct (configured (state sh)) eqn:C.
    + constructor; cbn [setStatus language selectedVoice difficulty status];
        try assumption.
      right. split; [reflexivity|]. exact C.
    + constructor; try assumption.
      destruct Gs as [Gs|[_ Gc]]; [left; exact Gs | discriminate Gc].
  - constructor; cbn [language selectedVoice difficulty status]; try assumption.
    left. reflexivity.
  - constructor; cbn [setStatus language selectedVoice difficulty status];
      try assumption.
    left. reflexivity.
Qed.

Lemma state_effects (sh : Shell) : state (effects sh) = state sh.
Proof. reflexivity. Qed.

Lemma good_run (events : list Event) :
  forall sh : Shell,
  Forall offered events -> good (state sh) -> good (state (run events sh)).
Proof.
  induction events as [|e rest IH]; intros sh Ho G; [exact G|].
  inversion Ho as [|x l He Hrest]; subst x l.
  cbn [run fold_left]. apply IH; [exact Hrest|].
  unfold handle. rewrite state_effects. apply good_handler; assumption.
Qed.

(** ** Preferences survive a reload *)

Lemma pref_keys_differ :
  pref_lang_id <> pref_voice /\ pref_lang_id <> pref_difficulty
  /\ pref_voice <> pref_difficulty.
Proof. repeat split; vm_compute; discriminate. Qed.

(** The items the persist effect leaves, read back. *)
Lemma persisted_items (st : AppState) (it : gmap jsstring jsstring) :
  good st ->
  persistPreferences st it !! pref_lang_id
  = match language st with
    | Some l => Some (lang_id l)
    | None => it !! pref_lang_id
    end
  /\ persistPreferences st it !! pref_voice
     = match selectedVoice st with
       | Some v => Some v
       | None => it !! pref_voice
       end
  /\ persistPreferences st it !! pref_difficulty = Some (difficulty st).
Proof.
  intros [Gl Gv Gb Gd Gs]. destruct pref_keys_differ as (D1 & D2 & D3).
  unfold persistPreferences.
  split; [|split].
  - rewrite lookup_insert_ne by (intro E; apply D2; symmetry; exact E).
    destruct (selectedVoice st) as [v|].
    + rewrite (Gv v eq_refl).
      rewrite lookup_insert_ne by (intro E; apply D1; symmetry; exact E).
      destruct (language st); [apply lookup_insert_eq | reflexivity].
    + destruct (language st); [apply lookup_insert_eq | reflexivity].
  - rewrite lookup_insert_ne by (intro E; apply D3; symmetry; exact E).
    destruct (selectedVoice st) as [v|].
    + rewrite (Gv v eq_refl). apply lookup_insert_eq.
    + destruct (language st); [|reflexivity].
      rewrite lookup_insert_ne by exact D1. reflexivity.
  - apply lookup_insert_eq.
Qed.

Lemma reload_after_persist (st : AppState) (it : gmap jsstring jsstring) :
  good st ->
  (language st = None -> initialLang it = None) ->
  (selectedVoice st = None -> selectedVoice (initialState it) = None) ->
  initialState (persistPreferences st it) = reloaded st.
Proof.
  intros G Hl Hv. destruct (@persisted_items st it G) as (P1 & P2 & P3).
  destruct G as [Gl Gv Gb Gd Gs].
  assert (L : initialLang (persistPreferences st it) = language st).
  { unfold initialLang in *. rewrite P1. destruct (language st) as [l|] eqn:E.
    - unfold orElse. destruct (@LANGUAGES_wellFormed l (Gl l eq_refl)) as (T & _).
      rewrite T. apply find_offered, Gl. reflexivity.
    - apply Hl. reflexivity. }
  unfold initialState, reloaded. rewrite L, P2, P3. f_equal.
  - destruct (selectedVoice st) as [v|] eqn:E.
    + unfold orElse. rewrite (Gv v eq_refl). reflexivity.
    + assert (N : language st = None).
      { destruct (language st); [|reflexivity].
        exfalso. apply Gb; [discriminate | reflexivity]. }
      rewrite N. specialize (Hv eq_refl). unfold initialState in Hv.
      cbn [selectedVoice] in Hv. rewrite (Hl N) in Hv. exact Hv.
  - unfold orElse. rewrite Gd. reflexivity.
Qed.

Lemma handler_keeps_what_is_chosen (e : Event) (sh : Shell) :
  (language (state (handler e sh)) = None -> language (state sh) = None)
  /\ (selectedVoice (state (handler e sh)) = None -> selectedVoice (state sh) = None).
Proof.
  destruct e; cbn [handler withState handleEnd state]; unfold handleStart;
    try destruct (configured (state sh));
    cbn; split; intro H; try exact H; discriminate.
Qed.

Definition inStep (sh : Shell) : Prop :=
  good (state sh)
  /\ initialState (items (localStorage sh)) = reloaded (state sh)
  /\ polyglot_completions (localStorage sh) = Some (completions sh).

Lemma inStep_effects (sh : Shell) :
  good (state sh) ->
  (language (state sh) = None -> initialLang (items (localStorage sh)) = None) ->
  (selectedVoice (state sh) = None ->
   selectedVoice (initialState (items (localStorage sh))) = None) ->
  inStep (effects sh).
Proof.
  intros G Hl Hv. split; [exact G|]. split; [|reflexivity].
  cbn [effects localStorage items state]. apply reload_after_persist; assumption.
Qed.

Lemma inStep_mount (ls : LocalStorage) : inStep (mount ls).
Proof.
  unfold mount. apply inStep_effects; cbn [state localStorage].
  - apply good_initialState.
  - intro H. exact H.
  - intro H. exact H.
Qed.

Lemma localStorage_handler (e : Event) (sh : Shell) :
  localStorage (handler e sh) = localStorage sh.
Proof. destruct e; reflexivity. Qed.

Lemma inStep_handle (e : Event) (sh : Shell) :
  offered e -> inStep sh -> inStep (handle e sh).
Proof.
  intros He (G & R & _). unfold handle.
  destruct (handler_keeps_what_is_chosen e sh) as [Kl Kv].
  apply inStep_effects.
  - apply good_handler; assumption.
  - intro H. rewrite localStorage_handler.
    change (language (initialState (items (localStorage sh))) = None).
    rewrite R. apply Kl, H.
  - intro H. rewrite localStorage_handler, R. apply Kv, H.
Qed.

Lemma inStep_run (events : list Event) :
  forall sh : Shell, Forall offered events -> inStep sh -> inStep (run events sh).
Proof.
  induction events as [|e rest IH]; intros sh Ho I; [exact I|].
  inversion Ho as [|x l He Hrest]; subst x l.
  cbn [run fold_left]. apply IH; [exact Hrest|].
  apply inStep_handle; assumption.
Qed.

(** X12.  While the status is active the conversation is what is shown:
    from whatever the storage held at mount and whatever is clicked, the
    status is idle or active, never connecting or error, and an active status
    always comes with a language, a scenario and a non-empty voice. *)
Theorem active_session_is_configured :
  forall (ls : LocalStorage) (events : list Event),
  Forall offered events ->
  let st := state (run events (mount ls)) in
  (status st = idle \/ status st = active)
  /\ (status st = active ->
      exists l sc v, language st = Some l /\ scenario st = Some sc
                     /\ selectedVoice st = Some v /\ v <> [])
  /\ (showsConversation st = true <-> status st = active).
Proof.
  intros ls events Ho st.
  assert (G : good st).
  { apply good_run; [exact Ho|]. apply (inStep_mount ls). }
  destruct G as [_ _ _ _ Gs].
  assert (C : status st = active -> configured st = true).
  { intro A. destruct Gs as [Gs|[_ Gc]]; [rewrite A in Gs; discriminate | exact Gc]. }
  split; [destruct Gs as [Gs|[Gs _]]; [left | right]; exact Gs|]. split.
  - intro A. specialize (C A). unfold configured in C.
    destruct (language st) as [l|]; [|discriminate].
    destruct (scenario st) as [sc|]; [|discriminate].
    destruct (selectedVoice st) as [v|]; [|discriminate].
    exists l, sc, v. repeat split; try reflexivity.
    intro E. rewrite E in C. discriminate.
  - unfold showsConversation. split.
    + destruct (status st); try discriminate. reflexivity.
    + intro A. rewrite A. exact (C A).
Qed.

(** X13.  Preferences and completions survive a reload: after any clicks,
    mounting the application again on the storage it left restores the
    language, the voice, the difficulty and the completions, with no scenario
    selected and status idle. *)
Theorem reload_restores_preferences :
  forall (ls : LocalStorage) (events : list Event),
  Forall offered events ->
  let sh := run events (mount ls) in
  state (mount (localStorage sh)) = reloaded (state sh)
  /\ completions (mount (localStorage sh)) = completions sh.
Proof.
  intros ls events Ho sh.
  destruct (@inStep_run events (mount ls) Ho (inStep_mount ls)) as (_ & R & P).
  fold sh in R, P. unfold mount. cbn [effects state completions].
  split; [exact R|]. rewrite P. reflexivity.
Qed.

(** ** Completion marks *)

Lemma key_splits (a a' b b' : jsstring) :
  ~ In underscore a -> ~ In underscore a' ->
  a ++ underscore :: b = a' ++ underscore :: b' -> a = a' /\ b = b'.
Proof.
  revert a'; induction a as [|x a IH]; intros [|x' a'] Ha Ha' E; cbn in E.
  - injection E as <-. split; reflexivity.
  - injection E as <- _. exfalso. apply Ha'. left. reflexivity.
  - injection E as -> _. exfalso. apply Ha. left. reflexivity.
  - injection E as <- E. destruct (IH a') as [-> ->]; try exact E.
    + intro H. apply Ha. right. exact H.
    + intro H. apply Ha'. right. exact H.
    + split; reflexivity.
Qed.

Lemma completions_handler (e : Event) (sh : Shell) (k : jsstring) :
  completions sh !! k = Some true -> completions (handle e sh) !! k = Some true.
Proof.
  intro H. destruct e as [lang|v|d|sc| |b| ]; try exact H.
  cbn [handle effects handler handleEnd completions].
  destruct b; [|exact H].
  destruct (language (state sh)) as [l|]; [|exact H].
  destruct (scenario (state sh)) as [sc|]; [|exact H].
  destruct (decide (completionKey l (sc_id sc) = k)) as [<-|N].
  - apply lookup_insert_eq.
  - rewrite lookup_insert_ne by exact N. exact H.
Qed.

Lemma completions_run (events : list Event) :
  forall (sh : Shell) (k : jsstring),
  completions sh !! k = Some true ->
  completions (run events sh) !! k = Some true.
Proof.
  induction events as [|e rest IH]; intros sh k H; [exact H|].
  cbn [run fold_left]. apply IH. apply completions_handler. exact H.
Qed.

(** X14.  Ending a conversation with the End button marks its scenario as
    completed for its language exactly when the transcript has at least four
    entries, and changes the mark of no other language and scenario of the
    catalogue; the session is back to idle with no scenario selected.  A mark
    once set survives whatever is clicked afterwards. *)
Theorem end_button_marks_exactly_the_pair :
  forall (num : Type) (c : Component num) (sh : Shell) (l : Language) (sc : Scenario),
  In l LANGUAGES ->
  language (state sh) = Some l ->
  scenario (state sh) = Some sc ->
  let sh' := handle (endButton c) sh in
  status (state sh') = idle /\ scenario (state sh') = None
  /\ language (state sh') = Some l
  /\ (forall (st : AppState) (l' : Language) (scenarioId : jsstring),
        In l' LANGUAGES -> language st = Some l' ->
        isScenarioCompleted st (completions sh') scenarioId
        = ((4 <=? List.length (entries c))%nat
           && jsstring_eqb (lang_id l') (lang_id l)
           && jsstring_eqb scenarioId (sc_id sc))
          || isScenarioCompleted st (completions sh) scenarioId)
  /\ (forall (events : list Event) (k : jsstring),
        completions sh' !! k = Some true ->
        completions (run events sh') !! k = Some true).
Proof.
  intros num c sh l sc Hl El Es sh'.
  assert (M : forall (events : list Event) (k : jsstring),
            completions sh' !! k = Some true ->
            completions (run events sh') !! k = Some true)
    by (intros events k H; apply completions_run; exact H).
  subst sh'. unfold endButton in *. cbn [handle effects handler handleEnd state completions
                          status scenario language].
  split; [reflexivity|]. split; [reflexivity|]. split; [exact El|]. split.
  - intros st l' scenarioId Hl' El'. unfold isScenarioCompleted.
    rewrite El', El, Es.
    destruct (@LANGUAGES_wellFormed l Hl) as (_ & _ & U).
    destruct (@LANGUAGES_wellFormed l' Hl') as (_ & _ & U').
    destruct (4 <=? List.length (entries c))%nat; [|reflexivity].
    cbn [andb].
    destruct (decide (completionKey l (sc_id sc) = completionKey l' scenarioId))
      as [E|N].
    + rewrite <- E, lookup_insert_eq.
      destruct (@key_splits _ _ _ _ U U' E) as [E1 E2].
      rewrite <- E1, <- E2.
      rewrite (proj2 (jsstring_eqb_eq _ _) eq_refl).
      rewrite (proj2 (jsstring_eqb_eq _ _) eq_refl). reflexivity.
    + rewrite lookup_insert_ne by exact N.
      destruct (jsstring_eqb (lang_id l') (lang_id l)) eqn:B1; [|reflexivity].
      destruct (jsstring_eqb scenarioId (sc_id sc)) eqn:B2; [|reflexivity].
      apply jsstring_eqb_eq in B1, B2. exfalso. apply N.
      unfold completionKey. rewrite B1, B2. reflexivity.
  - exact M.
Qed.

(** ** On concrete clicks *)

Definition emptyStorage : LocalStorage :=
  {| items := ∅; polyglot_completions := None |}.

Definition french : Language := language_ "fr" "French" "Zephyr".

Definition ordering : Scenario :=
  {| sc_id := str "ordering"; title := str "At a Restaurant" |}.

Definition clicks : list Event :=
  [ SelectLanguage french; SelectScenario ordering; SelectVoice (str "Kore"); Start ].

Lemma clicks_offered : Forall offered clicks.
Proof.
  repeat constructor; cbn; tauto.
Qed.

Lemma active_session_witness :
  Forall offered clicks
  /\ status (state (run clicks (mount emptyStorage))) = active
  /\ showsConversation (state (run clicks (mount emptyStorage))) = true.
Proof.
  split; [exact clicks_offered|].
  destruct (@active_session_is_configured emptyStorage clicks clicks_offered) as (_ & _ & H).
  assert (A : status (state (run clicks (mount emptyStorage))) = active)
    by (vm_compute; reflexivity).
  split; [exact A|]. apply H. exact A.
Defined.

Lemma reload_witness :
  Forall offered clicks
  /\ selectedVoice (state (mount (localStorage (run clicks (mount emptyStorage)))))
     = Some (str "Kore").
Proof.
  split; [exact clicks_offered|].
  destruct (@reload_restores_preferences emptyStorage clicks clicks_offered) as [H _].
  rewrite H. vm_compute. reflexivity.
Defined.

(** A conversation of four entries, ended with the End button. *)
Definition fourEntries : Component float :=
  initial tuningF
    (List.repeat {| role := user; text := str "Bonjour"; timestamp := 0%float;
                    correction := None |} 4).

Lemma end_button_witness :
  In french LANGUAGES
  /\ isScenarioCompleted
       (state (handle (endButton fourEntries) (run clicks (mount emptyStorage))))
       (completions (handle (endButton fourEntries) (run clicks (mount emptyStorage))))
       (str "ordering") = true.
Proof.
  assert (I : In french LANGUAGES) by (cbn; tauto).
  split; [exact I|].
  destruct (@end_button_marks_exactly_the_pair float fourEntries
              (run clicks (mount emptyStorage)) french ordering I eq_refl eq_refl)
    as (_ & _ & El & H & _).
  rewrite (H _ french (str "ordering") I El). vm_compute. reflexivity.
Defined.

End App.
